(** * pi-media-player: button dispatcher and USB ingest watcher

    A shallow embedding of the two daemons of the repository,

    - [files/media_player_service.py]  (module [MediaPlayer] below), and
    - [files/usb_copy_service.py]      (module [UsbCopy] below),

    together with the properties of them that the specification states.

    Both scripts are straight-line glue around external facilities
    (RPi.GPIO, python-vlc, the filesystem, pyudev).  The external
    facilities are not part of the repository: they are modelled as an
    environment whose answers are arbitrary, and the Python control flow
    around them (sequencing, [try]/[except]/[finally], [for], [while True],
    local variables) is modelled by a small monad with state, exceptions
    and an output trace. *)

From Stdlib Require Import List String Ascii ZArith Lia Bool Arith.
Import ListNotations.

Open Scope string_scope.
Open Scope list_scope.

Infix "+++" := String.append (at level 60, right associativity).

(* ================================================================== *)
(** * Python control flow as a monad *)
(* ================================================================== *)

(** The exceptions the two scripts distinguish.  [except Exception]
    catches every [Exception _] and lets [KeyboardInterrupt] through (it
    derives from [BaseException] only). *)
Inductive exn : Type :=
| KeyboardInterrupt
| Exception (msg : string).

Definition is_Exception (e : exn) : bool :=
  match e with Exception _ => true | KeyboardInterrupt => false end.

Definition is_KeyboardInterrupt (e : exn) : bool :=
  match e with KeyboardInterrupt => true | Exception _ => false end.

(** [str(e)], as the f-strings of the log lines print it. *)
Definition str (e : exn) : string :=
  match e with KeyboardInterrupt => "" | Exception msg => msg end.

(** Reading a local variable that no assignment has reached. *)
Definition UnboundLocalError (name : string) : exn :=
  Exception ("local variable '" +++ name +++ "' referenced before assignment").

(** How a piece of code ends: it returns a value, it raises, or it is
    still running when the observation stops ([while True] never returns:
    [Running] is what a run of finitely many passes yields). *)
Inductive outcome (A : Type) : Type :=
| Ret (a : A)
| Raise (e : exn)
| Running.
Arguments Ret {A} a.
Arguments Raise {A} e.
Arguments Running {A}.

(** A computation over a state [S] that outputs events of type [E]. *)
Definition M (S E A : Type) : Type := S -> outcome A * S * list E.

Section Monad.
Context {S E : Type}.

Definition ret {A} (a : A) : M S E A := fun s => (Ret a, s, []).

Definition bind {A B} (m : M S E A) (k : A -> M S E B) : M S E B :=
  fun s =>
    match m s with
    | (Ret a, s1, t1) => let '(o, s2, t2) := k a s1 in (o, s2, t1 ++ t2)
    | (Raise e, s1, t1) => (Raise e, s1, t1)
    | (Running, s1, t1) => (Running, s1, t1)
    end.

Definition raise {A} (e : exn) : M S E A := fun s => (Raise e, s, []).

Definition emit (ev : E) : M S E unit := fun s => (Ret tt, s, [ev]).

(** One [except <class> as e: <handler>] clause. *)
Definition clause (A : Type) : Type := ((exn -> bool) * (exn -> M S E A))%type.

(** The first clause whose class matches, as Python selects it. *)
Fixpoint select {A} (cs : list (clause A)) (e : exn) : option (M S E A) :=
  match cs with
  | [] => None
  | (matches, handler) :: cs' =>
      if matches e then Some (handler e) else select cs' e
  end.

(** [try: body  except ...: ...].  A handler runs in the state the
    body left; what a handler raises is not offered to the sibling
    clauses. *)
Definition try_except {A} (body : M S E A) (cs : list (clause A)) : M S E A :=
  fun s =>
    match body s with
    | (Raise e, s1, t1) =>
        match select cs e with
        | Some handler => let '(o, s2, t2) := handler s1 in (o, s2, t1 ++ t2)
        | None => (Raise e, s1, t1)
        end
    | r => r
    end.

(** [try: body  finally: fin].  [fin] runs when the body has returned or
    raised; an exception of [fin] replaces the body's outcome. *)
Definition try_finally {A} (body : M S E A) (fin : M S E unit) : M S E A :=
  fun s =>
    match body s with
    | (Running, s1, t1) => (Running, s1, t1)
    | (o, s1, t1) =>
        match fin s1 with
        | (Ret _, s2, t2) => (o, s2, t1 ++ t2)
        | (Raise e, s2, t2) => (Raise e, s2, t1 ++ t2)
        | (Running, s2, t2) => (Running, s2, t1 ++ t2)
        end
    end.

(** [for x in l: body]. *)
Fixpoint for_each {X} (l : list X) (body : X -> M S E unit) : M S E unit :=
  match l with
  | [] => ret tt
  | x :: l' => bind (body x) (fun _ => for_each l' body)
  end.

(** [while True: body], observed for [passes] iterations. *)
Fixpoint while_true (passes : nat) (body : M S E unit) : M S E unit :=
  match passes with
  | O => fun s => (Running, s, [])
  | Datatypes.S n => bind body (fun _ => while_true n body)
  end.
End Monad.

Declare Scope py_scope.
Delimit Scope py_scope with py.
Notation "x <- m ;; k" := (bind m (fun x => k))
  (at level 61, m at next level, right associativity) : py_scope.
Notation "m ;; k" := (bind m (fun _ => k))
  (at level 61, right associativity) : py_scope.
Open Scope py_scope.

(** Projections of a finished run. *)
Definition result {S E A} (r : outcome A * S * list E) : outcome A := fst (fst r).
Definition final {S E A} (r : outcome A * S * list E) : S := snd (fst r).
Definition output {S E A} (r : outcome A * S * list E) : list E := snd r.

(** [ends_well Q o]: the code has ended, and if it ended by raising,
    the exception is one of [Q]. *)
Definition ends_well (Q : exn -> Prop) {A} (o : outcome A) : Prop :=
  match o with
  | Ret _ => True
  | Raise e => Q e
  | Running => False
  end.

(* ================================================================== *)
(** * files/media_player_service.py *)
(* ================================================================== *)

Module MediaPlayer.

(** What is modelled: every call into RPi.GPIO, python-vlc and
    [time.sleep] is a call into an environment that may return any value,
    raise any exception, and change its state at will.  An interrupt of
    the process ([KeyboardInterrupt]) arrives as the exception of such a
    call.  Logging goes to the trace and does not fail.  The loop of
    [main] never ends by itself; a run is observed for a number of
    passes. *)

(** Lines 11-18.  A Python dict iterates in insertion order. *)
Definition BUTTON_PINS : list (Z * string) :=
  [ (13%Z, "/home/pi/Videos/1.mp4");
    (19%Z, "/home/pi/Videos/2.mp4");
    (26%Z, "/home/pi/Videos/3.mp4");
    (21%Z, "/home/pi/Videos/4.mp4");
    (20%Z, "pause");
    (16%Z, "stop") ].

(** [GPIO.LOW] of RPi.GPIO. *)
Definition LOW : Z := 0.
Definition HIGH : Z := 1.

(** The calls the script makes into RPi.GPIO, python-vlc and [time].  A
    player or media object is named by the number the environment
    returned for it; [time.sleep] takes its argument in milliseconds
    (0.2 s = 200, 0.01 s = 10). *)
Inductive op : Type :=
| GPIO_setwarnings (flag : bool)
| GPIO_setmode_BCM
| GPIO_setup_IN_PUD_UP (pin : Z)
| GPIO_input (pin : Z)
| GPIO_cleanup
| vlc_MediaPlayer
| toggle_fullscreen (player : Z)
| player_stop (player : Z)
| player_pause (player : Z)
| player_play (player : Z)
| vlc_Media (fname : string)
| set_media (player media : Z)
| time_sleep (ms : Z).

Inductive loglevel : Type := INFO | ERROR.

(** What the environment answers to a call. *)
Inductive reply : Type :=
| Returns (v : Z)
| Raises (e : exn).

(** What a run leaves behind, in order: the external calls it made, each
    with the answer it got, and the lines it logged. *)
Inductive event : Type :=
| Called (c : op) (r : reply)
| Logged (lv : loglevel) (msg : string).

(** The hardware, the player and the signals of the operating system:
    any state machine that answers the calls.  An interrupt of the process
    shows as a call that raises [KeyboardInterrupt]. *)
Class Environment : Type := {
  world : Type;
  ext : op -> world -> reply * world
}.

Section Program.
Context {Env : Environment}.

(** The state of a run: the environment and the local variable
    [media_player] of [main], unbound until line 58 assigns it. *)
Record frame : Type := Frame { env : world; media_player : option Z }.

Definition P : Type -> Type := M frame event.

Definition call (c : op) : P Z :=
  fun s =>
    match ext c (env s) with
    | (Returns v, w) => (Ret v, Frame w (media_player s), [Called c (Returns v)])
    | (Raises e, w) => (Raise e, Frame w (media_player s), [Called c (Raises e)])
    end.

Definition logger_info (msg : string) : P unit := emit (Logged INFO msg).
Definition logger_error (msg : string) : P unit := emit (Logged ERROR msg).

Definition assign_media_player (v : Z) : P unit :=
  fun s => (Ret tt, Frame (env s) (Some v), []).

Definition read_media_player : P Z :=
  fun s =>
    match media_player s with
    | Some v => (Ret v, s, [])
    | None => (Raise (UnboundLocalError "media_player"), s, [])
    end.

(** Lines 20-30. *)
Definition setup_gpio : P unit :=
  try_except
    (call (GPIO_setwarnings false) ;;
     call GPIO_setmode_BCM ;;
     for_each (map fst BUTTON_PINS)
       (fun pin => call (GPIO_setup_IN_PUD_UP pin) ;; ret tt) ;;
     logger_info "GPIO initialized successfully")
    [ (is_Exception,
       fun e => logger_error ("GPIO setup error: " +++ str e) ;; raise e) ].

(** Lines 32-41. *)
Definition setup_media_player : P Z :=
  try_except
    (player <- call vlc_MediaPlayer ;;
     call (toggle_fullscreen player) ;;
     logger_info "Media player initialized successfully" ;;
     ret player)
    [ (is_Exception,
       fun e => logger_error ("Media player setup error: " +++ str e) ;; raise e) ].

(** Lines 43-52. *)
Definition play_video (player : Z) (fname : string) : P unit :=
  try_except
    (call (player_stop player) ;;
     media <- call (vlc_Media fname) ;;
     call (set_media player media) ;;
     call (player_play player) ;;
     logger_info ("Playing video: " +++ fname))
    [ (is_Exception,
       fun e => logger_error ("Playback error for " +++ fname +++ ": " +++ str e)) ].

(** Lines 64-71: the action of a pressed button. *)
Definition dispatch (action : string) : P unit :=
  if (action =? "pause")%string then
    (player <- read_media_player ;;
     call (player_pause player) ;;
     logger_info "Video paused")
  else if (action =? "stop")%string then
    (player <- read_media_player ;;
     call (player_stop player) ;;
     logger_info "Video stopped")
  else
    (player <- read_media_player ;;
     play_video player action).

(** Lines 63-72: the body of the [for] loop, for one entry of the table. *)
Definition on_button (b : Z * string) : P unit :=
  let '(pin, action) := b in
  v <- call (GPIO_input pin) ;;
  if (v =? LOW)%Z then
    (dispatch action ;;
     call (time_sleep 200) ;;
     ret tt)
  else ret tt.

(** Lines 62-73: one pass of the [while] loop. *)
Definition scan_pass : P unit :=
  for_each BUTTON_PINS on_button ;;
  call (time_sleep 10) ;;
  ret tt.

(** Lines 80-82: the [finally] block of [main]. *)
Definition cleanup : P unit :=
  player <- read_media_player ;;
  call (player_stop player) ;;
  call GPIO_cleanup ;;
  logger_info "Cleanup complete".

(** Lines 56-73: what the [try] of [main] guards, observed for [passes]
    passes of the loop. *)
Definition guarded (passes : nat) : P unit :=
  setup_gpio ;;
  player <- setup_media_player ;;
  assign_media_player player ;;
  logger_info "Starting main loop" ;;
  while_true passes scan_pass.

(** Lines 54-82. *)
Definition main (passes : nat) : P unit :=
  try_finally
    (try_except
       (guarded passes)
       [ (is_KeyboardInterrupt, fun _ => logger_info "Shutting down");
         (is_Exception,
          fun e => logger_error ("Unexpected error: " +++ str e)) ])
    cleanup.

(** The process starts with nothing assigned. *)
Definition start (w : world) : frame := Frame w None.
End Program.

(** ** Vocabulary of the statements *)

(** The calls of a trace and the lines of a trace, in order. *)
Definition calls (tr : list event) : list op :=
  flat_map (fun ev => match ev with Called c _ => [c] | Logged _ _ => [] end) tr.

Definition logged (tr : list event) : list (loglevel * string) :=
  flat_map (fun ev => match ev with Called _ _ => [] | Logged lv msg => [(lv, msg)] end) tr.

(** No call of the trace raised. *)
Definition returned (ev : event) : bool :=
  match ev with Called _ (Raises _) => false | _ => true end.

Definition quiet (tr : list event) : bool := forallb returned tr.

(** Every read of the input [pin] in the trace found it pressed. *)
Definition read_low (pin : Z) (ev : event) : bool :=
  match ev with
  | Called (GPIO_input p) r =>
      if (p =? pin)%Z
      then match r with Returns v => (v =? LOW)%Z | Raises _ => false end
      else true
  | _ => true
  end.

Definition pressed (pin : Z) (tr : list event) : bool := forallb (read_low pin) tr.

(** The actions of the specification's data model, and the binding of
    the six inputs to them that lines 11-18 configure. *)
Inductive action : Type :=
| LoadAndPlay (path : string)
| Pause
| Stop.

Definition bindings : list (Z * action) :=
  [ (13%Z, LoadAndPlay "/home/pi/Videos/1.mp4");
    (19%Z, LoadAndPlay "/home/pi/Videos/2.mp4");
    (26%Z, LoadAndPlay "/home/pi/Videos/3.mp4");
    (21%Z, LoadAndPlay "/home/pi/Videos/4.mp4");
    (20%Z, Pause);
    (16%Z, Stop) ].

(** How the loop reads an entry of [BUTTON_PINS]. *)
Definition meaning (entry : string) : action :=
  if (entry =? "pause")%string then Pause
  else if (entry =? "stop")%string then Stop
  else LoadAndPlay entry.

(** The calls that carry out an action on the player; [media] is the
    object that [vlc.Media(path)] returned. *)
Definition action_calls (player media : Z) (a : action) : list op :=
  match a with
  | LoadAndPlay path =>
      [ player_stop player; vlc_Media path; set_media player media; player_play player ]
  | Pause => [ player_pause player ]
  | Stop => [ player_stop player ]
  end.

(** The line the log shows once the action of a table entry has run, and
    how often a trace shows it. *)
Definition completion_line (entry : string) : string :=
  if (entry =? "pause")%string then "Video paused"
  else if (entry =? "stop")%string then "Video stopped"
  else "Playing video: " +++ entry.

Definition completes (entry : string) (line : loglevel * string) : bool :=
  match line with
  | (INFO, msg) => (msg =? completion_line entry)%string
  | (ERROR, _) => false
  end.

Definition times_fired (entry : string) (tr : list event) : nat :=
  List.length (filter (completes entry) (logged tr)).

Definition entry_eq_dec (x y : Z * string) : {x = y} + {x <> y}.
Proof.
  decide equality; [apply string_dec | apply Z.eq_dec].
Defined.

Definition op_eq_dec (x y : op) : {x = y} + {x <> y}.
Proof.
  decide equality; auto using Z.eq_dec, string_dec, bool_dec.
Defined.

(** What the calls [cs] of one pass of the loop show of the input [pin]
    and its entry: the pass reads [pin] once; if [low], the read is
    followed at once by the calls that carry out the action of [entry] on
    [player] and by the debounce sleep, and otherwise by nothing; what
    comes next is the read of the next input, or the sleep that ends the
    pass. *)
Definition served (player pin : Z) (entry : string) (low : bool) (cs : list op) : Prop :=
  exists pre media post,
    cs = pre ++ GPIO_input pin
               :: (if low
                   then action_calls player media (meaning entry) ++ [time_sleep 200]
                   else [])
               ++ post
    /\ ~ In (GPIO_input pin) pre
    /\ ~ In (GPIO_input pin) post
    /\ (post = [time_sleep 10] \/ exists q rest, post = GPIO_input q :: rest).

(** The calls with which [setup_gpio] configures the GPIO subsystem
    (lines 23-26), in order. *)
Definition setup_calls : list op :=
  [ GPIO_setwarnings false; GPIO_setmode_BCM ]
    ++ map GPIO_setup_IN_PUD_UP (map fst BUTTON_PINS).

(** The inputs that a trace reads, in order, and the time it spends in
    [time.sleep], in milliseconds. *)
Definition reads (tr : list event) : list Z :=
  flat_map (fun c => match c with GPIO_input pin => [pin] | _ => [] end) (calls tr).

Definition slept (tr : list event) : Z :=
  fold_right (fun c acc => match c with time_sleep ms => (ms + acc)%Z | _ => acc end)
             0%Z (calls tr).


(** A property of the calls of a trace, as a property of its events. *)
Definition on_calls (q : op -> bool) (ev : event) : bool :=
  match ev with Called c _ => q c | Logged _ _ => true end.

(** The files of the table: its entries other than "pause" and "stop",
    which lines 64-71 pass to [play_video]. *)
Definition video_files : list string :=
  filter (fun entry => negb (entry =? "pause")%string && negb (entry =? "stop")%string)
         (map snd BUTTON_PINS).

(** The calls of the loop of [main] (lines 61-73) around the player
    [player]: reading an input of the table, the two sleeps, loading a
    file of the table, and driving [player]. *)
Definition loop_op (player : Z) (c : op) : bool :=
  match c with
  | GPIO_input pin => existsb (Z.eqb pin) (map fst BUTTON_PINS)
  | time_sleep ms => (ms =? 200)%Z || (ms =? 10)%Z
  | vlc_Media fname => existsb (String.eqb fname) video_files
  | player_stop p | player_pause p | player_play p | set_media p _ => (p =? player)%Z
  | _ => false
  end.

(** No call of the trace raised, and every read of an input found it
    released. *)
Definition idle_event (ev : event) : bool :=
  match ev with
  | Called (GPIO_input _) (Returns v) => negb (v =? LOW)%Z
  | Called _ (Raises _) => false
  | _ => true
  end.

Definition idle (tr : list event) : bool := forallb idle_event tr.
(** ** Three environments to run the program in *)

(** Button 1 (pin 13) is held down, every other input is released;
    the player is object 1, every media object is object 2. *)
Definition held_13 : Environment := {|
  world := unit;
  ext c w :=
    match c with
    | GPIO_input pin => (Returns (if (pin =? 13)%Z then LOW else HIGH), w)
    | vlc_MediaPlayer => (Returns 1%Z, w)
    | vlc_Media _ => (Returns 2%Z, w)
    | _ => (Returns 0%Z, w)
    end
|}.

(** The GPIO subsystem cannot be configured: [GPIO.setup] raises. *)
Definition gpio_broken : Environment := {|
  world := unit;
  ext c w :=
    match c with
    | GPIO_setup_IN_PUD_UP _ => (Raises (Exception "No access to /dev/mem"), w)
    | _ => (Returns 0%Z, w)
    end
|}.

(** The GPIO subsystem works and the player cannot be made:
    [vlc.MediaPlayer()] raises. *)
Definition vlc_broken : Environment := {|
  world := unit;
  ext c w :=
    match c with
    | vlc_MediaPlayer => (Raises (Exception "no libvlc"), w)
    | _ => (Returns 0%Z, w)
    end
|}.

(** Nothing is pressed, and the process is interrupted during the idle
    sleep that ends the first pass. *)
Definition interrupted : Environment := {|
  world := unit;
  ext c w :=
    match c with
    | GPIO_input _ => (Returns HIGH, w)
    | vlc_MediaPlayer => (Returns 1%Z, w)
    | time_sleep 10 => (Raises KeyboardInterrupt, w)
    | _ => (Returns 0%Z, w)
    end
|}.

(** ** Further environments *)

(** Button 1 is held down and its file cannot be opened: [vlc.Media]
    raises. *)
Definition missing_file : Environment := {|
  world := unit;
  ext c w :=
    match c with
    | GPIO_input pin => (Returns (if (pin =? 13)%Z then LOW else HIGH), w)
    | vlc_MediaPlayer => (Returns 1%Z, w)
    | vlc_Media _ => (Raises (Exception "cannot open file"), w)
    | _ => (Returns 0%Z, w)
    end
|}.

(** Button 5 (pause) is held down and the player refuses to pause. *)
Definition pause_broken : Environment := {|
  world := unit;
  ext c w :=
    match c with
    | GPIO_input pin => (Returns (if (pin =? 20)%Z then LOW else HIGH), w)
    | vlc_MediaPlayer => (Returns 1%Z, w)
    | player_pause _ => (Raises (Exception "player is gone"), w)
    | _ => (Returns 0%Z, w)
    end
|}.

(** Buttons 1 and 5 are held down together. *)
Definition held_13_and_20 : Environment := {|
  world := unit;
  ext c w :=
    match c with
    | GPIO_input pin =>
        (Returns (if (pin =? 13)%Z || (pin =? 20)%Z then LOW else HIGH), w)
    | vlc_MediaPlayer => (Returns 1%Z, w)
    | vlc_Media _ => (Returns 2%Z, w)
    | _ => (Returns 0%Z, w)
    end
|}.


(** Nothing is pressed and nothing fails. *)
Definition all_released : Environment := {|
  world := unit;
  ext c w :=
    match c with
    | GPIO_input _ => (Returns HIGH, w)
    | vlc_MediaPlayer => (Returns 1%Z, w)
    | _ => (Returns 0%Z, w)
    end
|}.
End MediaPlayer.

(* ================================================================== *)
(** * files/usb_copy_service.py *)
(* ================================================================== *)

Module UsbCopy.

(** What is modelled: the filesystem is a tree of files and directories;
    [os.path.exists], [isfile] and [isdir] read it, [shutil.copy2] and
    [shutil.copytree] write it, and each of [os.listdir], [copy2] and
    [copytree] may fail as the environment decides, a failed copy leaving
    anything or nothing at its destination.  Printing goes to the trace
    and does not fail.  The devices that pyudev enumerates and the events
    it delivers are given to [main] as lists.  Line 10 (making [DEST_DIR]
    when the module is loaded) is not part of the functions modelled here:
    a statement that needs the destination to be a directory says so. *)

(** ** The filesystem *)

(** A path is the list of its components: [os.path.join(src, item)] is
    [src ++ [item]] for the [item]s that [os.listdir] returns. *)
Definition path : Type := list string.

(** What a name of a directory stands for, as [os.path] tells it apart:
    a regular file (its bytes and metadata), a directory (its entries in
    the order [os.listdir] returns them), or something that exists and is
    neither (a FIFO, a socket, a device).  Symbolic links are not
    modelled: every name that is listed exists for [os.path.exists], and a
    write at a name changes nothing but what that name holds. *)
#[warnings="-register-all"]
Inductive node : Type :=
| File (data : string)
| Dir (entries : list (string * node))
| Other.

Fixpoint child (name : string) (es : list (string * node)) : option node :=
  match es with
  | [] => None
  | (n, c) :: es' => if (n =? name)%string then Some c else child name es'
  end.

Fixpoint set_child (name : string) (c' : node) (es : list (string * node))
  : list (string * node) :=
  match es with
  | [] => []
  | (n, c) :: es' =>
      if (n =? name)%string then (n, c') :: es' else (n, c) :: set_child name c' es'
  end.

(** What a path names below the directory tree [n]. *)
Fixpoint lookup (p : path) (n : node) : option node :=
  match p with
  | [] => Some n
  | x :: p' =>
      match n with
      | Dir es => match child x es with Some c => lookup p' c | None => None end
      | _ => None
      end
  end.

(** The chain of fresh directories [p] that ends in [new]. *)
Fixpoint mk (p : path) (new : node) : node :=
  match p with
  | [] => new
  | x :: p' => Dir [(x, mk p' new)]
  end.

(** Putting [new] at [p].  The directory that is to hold it must exist,
    unless [parents] asks for the missing ones to be made (as
    [os.makedirs] does for [shutil.copytree]); [None] when a component of
    the way is missing or is no directory. *)
Fixpoint write (parents : bool) (p : path) (new : node) (n : node) : option node :=
  match p with
  | [] => Some new
  | x :: p' =>
      match n with
      | Dir es =>
          match child x es with
          | Some c =>
              match write parents p' new c with
              | Some c' => Some (Dir (set_child x c' es))
              | None => None
              end
          | None =>
              match p' with
              | [] => Some (Dir (es ++ [(x, new)]))
              | _ :: _ =>
                  if parents then Some (Dir (es ++ [(x, mk p' new)])) else None
              end
          end
      | _ => None
      end
  end.

(** [shutil.copytree(s, d, dirs_exist_ok=True)] onto a destination [d]
    that exists: the entries of [s] are laid over those of [d],
    directories merged and files replaced; [None] when [d] is no directory. *)
Fixpoint copytree_onto (s d : node) : option node :=
  match s, d with
  | Dir ses, Dir des =>
      option_map Dir
      ((fix lay (l : list (string * node)) (acc : list (string * node))
         : option (list (string * node)) :=
         match l with
         | [] => Some acc
         | (name, c) :: l' =>
             match child name acc with
             | None => lay l' (acc ++ [(name, c)])
             | Some dc =>
                 match c with
                 | Dir _ =>
                     match copytree_onto c dc with
                     | Some m => lay l' (set_child name m acc)
                     | None => None
                     end
                 | _ => lay l' (set_child name c acc)
                 end
             end
         end) ses des)
  | _, _ => None
  end.

(** [inside q p]: the path [q] is [p] or lies below it. *)
Definition inside (q p : path) : Prop := exists r, q = p ++ r.

(** [keeps dst fs fs']: every path that names something in [fs] names
    the same thing in [fs'], except for [dst] and the directories on the
    way to it (which may have gained entries). *)
Definition keeps (dst : path) (fs fs' : node) : Prop :=
  forall q n, ~ inside dst q -> lookup q fs = Some n -> lookup q fs' = Some n.

(** A path as the messages print it, and a path string as its components. *)
Definition show (p : path) : string := "/" +++ String.concat "/" p.

Fixpoint components (s cur : string) : list string :=
  match s with
  | EmptyString => if (cur =? "")%string then [] else [cur]
  | String c s' =>
      if (c =? "/")%char
      then (if (cur =? "")%string then [] else [cur]) ++ components s' ""
      else components s' (cur +++ String c "")
  end.

Definition path_of (s : string) : path := components s "".

(** Line 8. *)
Definition DEST_DIR : path := path_of "/home/apex".

(** ** The environment *)

(** What the script prints and how long it sleeps (milliseconds). *)
Inductive event : Type :=
| Printed (line : string)
| Slept (ms : Z).

(** Which calls into [os] and [shutil] fail is up to the environment:
    [listdir_fault src] is the error [os.listdir(src)] raises, if any;
    [copy_fault src_path dst_path] is the error [shutil.copy2] or
    [shutil.copytree] raises for that pair, if any, with what the failed
    copy has left at [dst_path] by then. *)
Class Faults : Type := {
  listdir_fault : path -> option exn;
  copy_fault : path -> path -> option (option node * exn)
}.

Definition FileNotFoundError (p : path) : exn :=
  Exception ("[Errno 2] No such file or directory: '" +++ show p +++ "'").
Definition NotADirectoryError (p : path) : exn :=
  Exception ("[Errno 20] Not a directory: '" +++ show p +++ "'").

Section Program.
Context {Flt : Faults}.

(** The state of a run is the filesystem, as the tree below its root. *)
Definition F : Type -> Type := M node event.

Definition print (line : string) : F unit := emit (Printed line).
Definition time_sleep (ms : Z) : F unit := emit (Slept ms).

Definition os_listdir (p : path) : F (list string) :=
  fun fs =>
    match listdir_fault p with
    | Some e => (Raise e, fs, [])
    | None =>
        match lookup p fs with
        | Some (Dir es) => (Ret (map fst es), fs, [])
        | Some _ => (Raise (NotADirectoryError p), fs, [])
        | None => (Raise (FileNotFoundError p), fs, [])
        end
    end.

Definition os_path_exists (p : path) : F bool :=
  fun fs => (Ret (match lookup p fs with Some _ => true | None => false end), fs, []).

Definition os_path_isfile (p : path) : F bool :=
  fun fs => (Ret (match lookup p fs with Some (File _) => true | _ => false end), fs, []).

Definition os_path_isdir (p : path) : F bool :=
  fun fs => (Ret (match lookup p fs with Some (Dir _) => true | _ => false end), fs, []).

(** What a copy that failed has left behind at its destination. *)
Definition leftover (dst_path : path) (rest : option node) (fs : node) : node :=
  match rest with
  | Some n => match write true dst_path n fs with Some fs' => fs' | None => fs end
  | None => fs
  end.

(** [shutil.copy2(src_path, dst_path)] for a [dst_path] that names the
    file to write. *)
Definition shutil_copy2 (src_path dst_path : path) : F unit :=
  fun fs =>
    match copy_fault src_path dst_path with
    | Some (rest, e) => (Raise e, leftover dst_path rest fs, [])
    | None =>
        match lookup src_path fs with
        | Some (File data) =>
            match write false dst_path (File data) fs with
            | Some fs' => (Ret tt, fs', [])
            | None => (Raise (FileNotFoundError dst_path), fs, [])
            end
        | _ => (Raise (FileNotFoundError src_path), fs, [])
        end
    end.

(** [shutil.copytree(src_path, dst_path, dirs_exist_ok=True)]. *)
Definition shutil_copytree (src_path dst_path : path) : F unit :=
  fun fs =>
    match copy_fault src_path dst_path with
    | Some (rest, e) => (Raise e, leftover dst_path rest fs, [])
    | None =>
        match lookup src_path fs with
        | Some (Dir es) =>
            let tree :=
              match lookup dst_path fs with
              | None => Some (Dir es)
              | Some d => copytree_onto (Dir es) d
              end in
            match tree with
            | Some new =>
                match write true dst_path new fs with
                | Some fs' => (Ret tt, fs', [])
                | None => (Raise (NotADirectoryError dst_path), fs, [])
                end
            | None => (Raise (NotADirectoryError dst_path), fs, [])
            end
        | Some _ => (Raise (NotADirectoryError src_path), fs, [])
        | None => (Raise (FileNotFoundError src_path), fs, [])
        end
    end.

(** Lines 20-33: the body of the [for] loop ([continue] ends it early). *)
Definition copy_item (src dst : path) (item : string) : F unit :=
  let src_path := src ++ [item] in
  let dst_path := dst ++ [item] in
  there <- os_path_exists dst_path ;;
  if there then
    print ("Skipping " +++ show dst_path +++ " - already exists")
  else
    isfile <- os_path_isfile src_path ;;
    if isfile then
      print ("Copying file: " +++ show src_path +++ " to " +++ show dst_path) ;;
      shutil_copy2 src_path dst_path
    else
      isdir <- os_path_isdir src_path ;;
      if isdir then
        print ("Copying directory: " +++ show src_path +++ " to " +++ show dst_path) ;;
        shutil_copytree src_path dst_path
      else ret tt.

(** Lines 19-33: what the [try] of [copy_files] guards. *)
Definition copy_loop (src dst : path) : F unit :=
  items <- os_listdir src ;;
  for_each items (copy_item src dst).

(** Lines 16-35. *)
Definition copy_files (src dst : path) : F unit :=
  try_except
    (copy_loop src dst)
    [ (is_Exception, fun e => print ("Error copying files: " +++ str e)) ].

(** ** Devices *)

(** A pyudev device: its properties, and the action of the event that
    reported it ([None] for a device that was enumerated). *)
Record device : Type := Device {
  properties : list (string * string);
  action : option string
}.

Fixpoint assoc (key : string) (l : list (string * string)) : option string :=
  match l with
  | [] => None
  | (k, v) :: l' => if (k =? key)%string then Some v else assoc key l'
  end.

(** [device.get(key)]. *)
Definition get (d : device) (key : string) : option string :=
  assoc key (properties d).

(** [x == s] for an [x] that is a string or [None]. *)
Definition equals (x : option string) (s : string) : bool :=
  match x with Some v => (v =? s)%string | None => false end.

(** The truth value of a string or [None]. *)
Definition truthy (x : option string) : bool :=
  match x with Some v => negb (v =? "")%string | None => false end.

(** Lines 12-14. *)
Definition get_mount_point (d : device) : option string := get d "MEDIA_MNT".

(** Lines 46-50: the startup scan, for one enumerated device. *)
Definition on_existing (d : device) : F unit :=
  if equals (get d "ID_BUS") "usb" && truthy (get d "MEDIA_MNT") then
    match get_mount_point d with
    | Some mount_point =>
        if truthy (Some mount_point) then
          print ("Found existing USB at " +++ mount_point) ;;
          copy_files (path_of mount_point) DEST_DIR
        else ret tt
    | None => ret tt
    end
  else ret tt.

(** Lines 54-59: the event loop, for one event. *)
Definition on_event (d : device) : F unit :=
  if equals (get d "ID_BUS") "usb" && equals (action d) "add" then
    time_sleep 1000 ;;
    match get_mount_point d with
    | Some mount_point =>
        if truthy (Some mount_point) then
          print ("New USB detected at " +++ mount_point) ;;
          copy_files (path_of mount_point) DEST_DIR
        else ret tt
    | None => ret tt
    end
  else ret tt.

(** Lines 37-59, for the devices that are attached at startup and the
    events that arrive while the process is watched.  The event source
    never ends, so neither does [main]. *)
Definition main (existing events : list device) : F unit :=
  print "Monitoring for USB devices..." ;;
  for_each existing on_existing ;;
  for_each events on_event ;;
  (fun fs => (Running, fs, [])).

(** ** Vocabulary of the statements *)

(** No call of [copy_files src dst] into [os] or [shutil] fails. *)
Definition faultless (src dst : path) : Prop :=
  listdir_fault src = None
  /\ (forall item, copy_fault (src ++ [item]) (dst ++ [item]) = None).
End Program.

(** ** Environments and filesystems to run the program in *)

Definition no_faults : Faults := {|
  listdir_fault _ := None;
  copy_fault _ _ := None
|}.

(** The volume holds [clips/new.mp4]; the destination already has a
    directory [clips], with [old.mp4] in it. *)
Definition fs_clips : node :=
  Dir [ ("media", Dir [ ("usb", Dir [ ("clips", Dir [ ("new.mp4", File "new") ]) ]) ]);
        ("home", Dir [ ("apex", Dir [ ("clips", Dir [ ("old.mp4", File "old") ]) ]) ]) ].

(** The volume holds [a.txt], [b.txt] and the directory [c] with [d.txt];
    the destination already has a [b.txt] of its own. *)
Definition fs_ab : node :=
  Dir [ ("media", Dir [ ("usb", Dir [ ("a.txt", File "a of the volume");
                                      ("b.txt", File "b of the volume");
                                      ("c", Dir [ ("d.txt", File "d") ]) ]) ]);
        ("home", Dir [ ("apex", Dir [ ("b.txt", File "b of the destination") ]) ]) ].

(** Copying [c] of the volume fails with an I/O error after the
    directory itself was made. *)
Definition io_error_at_c : Faults := {|
  listdir_fault _ := None;
  copy_fault src_path _ :=
    if list_eq_dec string_dec src_path ["media"; "usb"; "c"]
    then Some (Some (Dir []), Exception "[Errno 5] Input/output error")
    else None
|}.

Definition usb_enumerated : device :=
  Device [ ("ID_BUS", "usb"); ("MEDIA_MNT", "/media/usb") ] None.

Definition usb_arrived : device :=
  Device [ ("ID_BUS", "usb"); ("MEDIA_MNT", "/media/usb") ] (Some "add").


(** ** Further faults, filesystems and devices *)

(** Copying [a.txt] of the volume fails with an I/O error before anything
    of it was written. *)
Definition io_error_at_a : Faults := {|
  listdir_fault _ := None;
  copy_fault src_path _ :=
    if list_eq_dec string_dec src_path ["media"; "usb"; "a.txt"]
    then Some (None, Exception "[Errno 5] Input/output error")
    else None
|}.

(** Copying [a.txt] of the volume fails after half of it was written. *)
Definition disk_full_at_a : Faults := {|
  listdir_fault _ := None;
  copy_fault src_path _ :=
    if list_eq_dec string_dec src_path ["media"; "usb"; "a.txt"]
    then Some (Some (File "a of"), Exception "[Errno 28] No space left on device")
    else None
|}.

(** Nothing is mounted at [/media/usb]; the destination is empty. *)
Definition fs_bare : node :=
  Dir [ ("media", Dir []); ("home", Dir [ ("apex", Dir []) ]) ].

(** The volume holds a FIFO next to a file. *)
Definition fs_fifo : node :=
  Dir [ ("media", Dir [ ("usb", Dir [ ("pipe", Other); ("a.txt", File "a") ]) ]);
        ("home", Dir [ ("apex", Dir []) ]) ].

(** A partition of the internal disk; a USB partition that is not
    mounted; the removal of a USB volume. *)
Definition sd_card : device :=
  Device [ ("ID_BUS", "mmc"); ("MEDIA_MNT", "/boot") ] None.

Definition usb_unmounted : device :=
  Device [ ("ID_BUS", "usb") ] (Some "add").

Definition usb_removed : device :=
  Device [ ("ID_BUS", "usb"); ("MEDIA_MNT", "/media/usb") ] (Some "remove").
End UsbCopy.

(* ================================================================== *)
(** * Facts about the control flow *)
(* ================================================================== *)

Section MonadFacts.
Context {S E : Type}.

Lemma bind_run {A B} (m : M S E A) (k : A -> M S E B) s a s1 t1 o s2 t2 :
  m s = (Ret a, s1, t1) ->
  k a s1 = (o, s2, t2) ->
  bind m k s = (o, s2, t1 ++ t2).
Proof.
  intros Hm Hk. unfold bind. now rewrite Hm, Hk.
Qed.

Lemma bind_raise {A B} (m : M S E A) (k : A -> M S E B) s e s1 t1 :
  m s = (Raise e, s1, t1) ->
  bind m k s = (Raise e, s1, t1).
Proof.
  intros Hm. unfold bind. now rewrite Hm.
Qed.

(** The output of a sequence starts with the output of its first part. *)
Lemma bind_output {A B} (m : M S E A) (k : A -> M S E B) s :
  output (bind m k s)
  = output (m s)
    ++ match m s with (Ret a, s1, _) => output (k a s1) | _ => [] end.
Proof.
  unfold bind. destruct (m s) as [[[a|e|] s1] t1]; cbn.
  - now destruct (k a s1) as [[o s2] t2].
  - now rewrite app_nil_r.
  - now rewrite app_nil_r.
Qed.

(** What holds of every event of a sequence holds of every event of its
    first part, and of the rest when the first part returns. *)
Lemma bind_all (p : E -> bool) {A B} (m : M S E A) (k : A -> M S E B) s :
  forallb p (output (bind m k s)) = true ->
  forallb p (output (m s)) = true
  /\ (forall a s1 t1, m s = (Ret a, s1, t1) -> forallb p (output (k a s1)) = true).
Proof.
  rewrite bind_output, forallb_app. intros H.
  apply andb_true_iff in H as (H1 & H2). split; [exact H1 |].
  intros a s1 t1 Hm. now rewrite Hm in H2.
Qed.

Lemma try_except_all (p : E -> bool) {A} (body : M S E A) (cs : list (clause A)) s :
  forallb p (output (try_except body cs s)) = true ->
  forallb p (output (body s)) = true.
Proof.
  unfold try_except. destruct (body s) as [[[a|e|] s1] t1]; cbn; trivial.
  destruct (select cs e) as [h |]; cbn; trivial.
  destruct (h s1) as [[o s2] t2]. cbn. rewrite forallb_app.
  intros H. now apply andb_true_iff in H.
Qed.

(** The first [k] passes of a loop are the start of its first [k + j]. *)
Lemma while_true_output (body : M S E unit) (k j : nat) s :
  exists rest,
    output (while_true (k + j) body s) = output (while_true k body s) ++ rest.
Proof.
  revert s. induction k as [| k IH]; intros s.
  - now exists (output (while_true (0 + j) body s)).
  - cbn [while_true Nat.add]. rewrite !bind_output.
    destruct (body s) as [[[[] | e |] s1] t1]; cbn [output snd].
    + destruct (IH s1) as (rest & ->). exists rest. now rewrite app_assoc.
    + exists []. now rewrite !app_nil_r.
    + exists []. now rewrite !app_nil_r.
Qed.

Lemma while_true_all (p : E -> bool) (body : M S E unit) (k N : nat) s :
  k <= N ->
  forallb p (output (while_true N body s)) = true ->
  forallb p (output (while_true k body s)) = true.
Proof.
  intros Hk. replace N with (k + (N - k)) by lia.
  destruct (while_true_output body k (N - k) s) as (rest & ->).
  rewrite forallb_app. intros H. now apply andb_true_iff in H.
Qed.

(** Code ends well when each of its steps does. *)
Lemma bind_ends_well (Q : exn -> Prop) {A B} (m : M S E A) (k : A -> M S E B) s :
  ends_well Q (result (m s)) ->
  (forall a s1, ends_well Q (result (k a s1))) ->
  ends_well Q (result (bind m k s)).
Proof.
  intros Hm Hk. unfold bind.
  destruct (m s) as [[[a|e|] s1] t1]; cbn in *; trivial.
  specialize (Hk a s1). now destruct (k a s1) as [[o s2] t2].
Qed.

Lemma for_each_ends_well (Q : exn -> Prop) {X} (body : X -> M S E unit) :
  (forall x s, ends_well Q (result (body x s))) ->
  forall l s, ends_well Q (result (for_each l body s)).
Proof.
  intros Hbody. induction l as [| x l IH]; intros s; cbn; [easy |].
  apply bind_ends_well; auto.
Qed.

(** A relation between the state before and the state after that every
    step of a computation maintains holds across the computation. *)
Section Invariant.
Variable R : S -> S -> Prop.
Hypothesis R_refl : forall s, R s s.
Hypothesis R_trans : forall s1 s2 s3, R s1 s2 -> R s2 s3 -> R s1 s3.

Lemma bind_maintains {A B} (m : M S E A) (k : A -> M S E B) s :
  R s (final (m s)) ->
  (forall a s1, R s1 (final (k a s1))) ->
  R s (final (bind m k s)).
Proof.
  intros Hm Hk. unfold bind.
  destruct (m s) as [[[a|e|] s1] t1]; cbn in *; trivial.
  specialize (Hk a s1). destruct (k a s1) as [[o s2] t2]. cbn in *. eauto.
Qed.

Lemma for_each_maintains {X} (body : X -> M S E unit) :
  (forall x s, R s (final (body x s))) ->
  forall l s, R s (final (for_each l body s)).
Proof.
  intros Hbody. induction l as [| x l IH]; intros s; cbn.
  - apply R_refl.
  - apply bind_maintains; auto.
Qed.

Lemma try_except_maintains {A} (body : M S E A) (cs : list (clause A)) s :
  R s (final (body s)) ->
  (forall e h s1, select cs e = Some h -> R s1 (final (h s1))) ->
  R s (final (try_except body cs s)).
Proof.
  intros Hb Hh. unfold try_except.
  destruct (body s) as [[[a|e|] s1] t1]; cbn in *; trivial.
  destruct (select cs e) as [h |] eqn:Hsel; cbn; trivial.
  specialize (Hh e h s1 Hsel). destruct (h s1) as [[o s2] t2]. cbn in *. eauto.
Qed.
End Invariant.

(** The output of [try]/[finally] is the output of the body, followed by
    the output of the [finally] block when the body has ended. *)
Lemma try_finally_output {A} (body : M S E A) (fin : M S E unit) s :
  output (try_finally body fin s)
  = output (body s)
    ++ match body s with
       | (Running, _, _) => []
       | (_, s1, _) => output (fin s1)
       end.
Proof.
  unfold try_finally.
  destruct (body s) as [[[a|e|] s1] t1]; cbn [output snd];
    [ | | now rewrite app_nil_r ];
    now destruct (fin s1) as [[[[]|e'|] s2] t2].
Qed.

Lemma try_finally_all (p : E -> bool) {A} (body : M S E A) (fin : M S E unit) s :
  forallb p (output (try_finally body fin s)) = true ->
  forallb p (output (body s)) = true.
Proof.
  rewrite try_finally_output, forallb_app. intros H.
  now apply andb_true_iff in H.
Qed.

(** What every step of a computation keeps (an invariant [I] of the
    state, and a property [p] of every event it outputs), the computation
    keeps. *)
Section Upholds.
Variable p : E -> bool.
Variable I : S -> Prop.

Lemma bind_upholds {A B} (m : M S E A) (k : A -> M S E B) s :
  forallb p (output (m s)) = true /\ I (final (m s)) ->
  (forall a s1, I s1 -> forallb p (output (k a s1)) = true /\ I (final (k a s1))) ->
  forallb p (output (bind m k s)) = true /\ I (final (bind m k s)).
Proof.
  intros (Hp & Hi) Hk. unfold bind.
  destruct (m s) as [[[a|e|] s1] t1]; cbn in *; auto.
  destruct (Hk a s1 Hi) as (Hp2 & Hi2).
  destruct (k a s1) as [[o s2] t2]. cbn in *. now rewrite forallb_app, Hp, Hp2.
Qed.

Lemma for_each_upholds {X} (body : X -> M S E unit) (l : list X) :
  (forall x s, In x l -> I s ->
               forallb p (output (body x s)) = true /\ I (final (body x s))) ->
  forall s, I s ->
            forallb p (output (for_each l body s)) = true
            /\ I (final (for_each l body s)).
Proof.
  induction l as [| x l IH]; intros Hbody s Hs; cbn [for_each].
  - now split.
  - apply bind_upholds; [apply Hbody; [now left | exact Hs] |].
    intros _ s1 Hs1. apply IH; [| exact Hs1].
    intros y s2 Hy. apply Hbody. now right.
Qed.

Lemma while_true_upholds (body : M S E unit) :
  (forall s, I s -> forallb p (output (body s)) = true /\ I (final (body s))) ->
  forall N s, I s ->
              forallb p (output (while_true N body s)) = true
              /\ I (final (while_true N body s)).
Proof.
  intros Hbody. induction N as [| N IH]; intros s Hs; cbn [while_true].
  - now split.
  - apply bind_upholds; auto.
Qed.

Lemma try_except_upholds {A} (body : M S E A) (cs : list (clause A)) s :
  forallb p (output (body s)) = true /\ I (final (body s)) ->
  (forall e h s1, select cs e = Some h -> I s1 ->
                  forallb p (output (h s1)) = true /\ I (final (h s1))) ->
  forallb p (output (try_except body cs s)) = true
  /\ I (final (try_except body cs s)).
Proof.
  intros (Hp & Hi) Hh. unfold try_except.
  destruct (body s) as [[[a|e|] s1] t1]; cbn in *; auto.
  destruct (select cs e) as [h |] eqn:Hsel; cbn; auto.
  destruct (Hh e h s1 Hsel Hi) as (Hp2 & Hi2).
  destruct (h s1) as [[o s2] t2]. cbn in *. now rewrite forallb_app, Hp, Hp2.
Qed.
End Upholds.

(** A loop over [l1 ++ l2] whose part over [l1] returns goes on with
    [l2] from where that part ended. *)
Lemma for_each_app_run {X} (body : X -> M S E unit) (l1 l2 : list X) :
  forall s s1 t1,
    for_each l1 body s = (Ret tt, s1, t1) ->
    for_each (l1 ++ l2) body s
    = (result (for_each l2 body s1), final (for_each l2 body s1),
       t1 ++ output (for_each l2 body s1)).
Proof.
  induction l1 as [| x l1 IH]; intros s s1 t1 H.
  - cbn in H. injection H as <- <-. cbn [app].
    now destruct (for_each l2 body s) as [[o s2] t2].
  - cbn [for_each app] in H |- *. unfold bind in H |- *.
    destruct (body x s) as [[[[] | e |] sx] tx]; try discriminate H.
    destruct (for_each l1 body sx) as [[o' s'] t'] eqn:Hrest.
    injection H as -> -> <-.
    rewrite (IH _ _ _ Hrest). cbn [result final output fst snd].
    now rewrite app_assoc.
Qed.
End MonadFacts.

(* ================================================================== *)
(** * Facts about the button dispatcher *)
(* ================================================================== *)

Module MediaPlayerFacts.
Import MediaPlayer.

Lemma calls_app (t1 t2 : list event) : calls (t1 ++ t2) = calls t1 ++ calls t2.
Proof.
  apply flat_map_app.
Qed.

Lemma logged_app (t1 t2 : list event) : logged (t1 ++ t2) = logged t1 ++ logged t2.
Proof.
  apply flat_map_app.
Qed.

Lemma times_fired_app (entry : string) (t1 t2 : list event) :
  times_fired entry (t1 ++ t2) = times_fired entry t1 + times_fired entry t2.
Proof.
  unfold times_fired. now rewrite logged_app, filter_app, length_app.
Qed.

(** A trace whose one line is the completion line of [other]. *)
Lemma times_fired_line (entry other : string) (tr : list event) :
  logged tr = [(INFO, completion_line other)] ->
  times_fired entry tr
  = if (completion_line other =? completion_line entry)%string then 1 else 0.
Proof.
  intros H. unfold times_fired. rewrite H. cbn [filter completes].
  now destruct (completion_line other =? completion_line entry)%string.
Qed.

(** A trace in which no input is read has found every input pressed. *)
Lemma pressed_without_reads (pin : Z) (tr : list event) :
  (forall p, ~ In (GPIO_input p) (calls tr)) -> pressed pin tr = true.
Proof.
  induction tr as [| ev tr IH]; intros H; [reflexivity |].
  change (pressed pin (ev :: tr)) with (read_low pin ev && pressed pin tr).
  rewrite IH.
  - destruct ev as [c r | lv msg]; trivial.
    destruct c as [ | | | q | | | | | | | | | ]; trivial.
    exfalso. apply (H q). now left.
  - intros p Hp. apply (H p). unfold calls. cbn. apply in_or_app. now right.
Qed.

Lemma action_calls_read_nothing (h media : Z) (a : action) (p : Z) :
  ~ In (GPIO_input p) (action_calls h media a).
Proof.
  destruct a; cbn; intuition discriminate.
Qed.

Section Facts.
Context {Env : Environment}.

Lemma bind_quiet {A B} (m : P A) (k : A -> P B) (s : frame) :
  quiet (output (bind m k s)) = true ->
  quiet (output (m s)) = true
  /\ (forall a s1 t1, m s = (Ret a, s1, t1) -> quiet (output (k a s1)) = true).
Proof.
  apply bind_all.
Qed.

Lemma bind_pressed (pin : Z) {A B} (m : P A) (k : A -> P B) (s : frame) :
  pressed pin (output (bind m k s)) = true ->
  pressed pin (output (m s)) = true
  /\ (forall a s1 t1, m s = (Ret a, s1, t1) -> pressed pin (output (k a s1)) = true).
Proof.
  apply bind_all.
Qed.

(** A call that did not raise returned, and left [media_player] as it was. *)
Lemma call_quiet (c : op) (s : frame) :
  quiet (output (call c s)) = true ->
  exists v w, call c s = (Ret v, Frame w (media_player s), [Called c (Returns v)]).
Proof.
  unfold call. destruct (ext c (env s)) as [[v | e] w]; cbn; [eauto | discriminate].
Qed.

(** The next call of a sequence that stays quiet: its run, and the
    quietness of what follows it. *)
Ltac next_call Q v w E :=
  let Q1 := fresh "Q" in
  apply bind_quiet in Q as (Q1 & Q);
  apply call_quiet in Q1 as (v & w & E);
  specialize (Q _ _ _ E); cbv beta in Q.

(** [play_video] when none of its calls raises. *)
Lemma play_video_run (player : Z) (fname : string) (s : frame) :
  quiet (output (play_video player fname s)) = true ->
  exists v1 media v3 v4 w,
    play_video player fname s
    = (Ret tt, Frame w (media_player s),
       [ Called (player_stop player) (Returns v1);
         Called (vlc_Media fname) (Returns media);
         Called (set_media player media) (Returns v3);
         Called (player_play player) (Returns v4);
         Logged INFO ("Playing video: " +++ fname) ]).
Proof.
  intros Q. unfold play_video in Q. apply try_except_all in Q.
  next_call Q v1 w1 E1. next_call Q media w2 E2.
  next_call Q v3 w3 E3. next_call Q v4 w4 E4.
  exists v1, media, v3, v4, w4.
  unfold play_video, try_except.
  erewrite bind_run; [ | exact E1 | ].
  2:{ eapply bind_run; [exact E2 |]. eapply bind_run; [exact E3 |].
      eapply bind_run; [exact E4 |]. reflexivity. }
  reflexivity.
Qed.

Lemma read_media_player_run (s : frame) (h : Z) :
  media_player s = Some h ->
  read_media_player s = (Ret h, s, []).
Proof.
  intros H. unfold read_media_player. now rewrite H.
Qed.

Lemma frame_eta (s : frame) (h : Z) :
  media_player s = Some h -> s = Frame (env s) (Some h).
Proof.
  destruct s as [w o]; cbn. now intros ->.
Qed.

(** The action of a table entry when none of its calls raises and
    [media_player] is bound to [h]: the calls of the action the entry
    means, and its completion line. *)
Lemma dispatch_run (entry : string) (s : frame) (h : Z) :
  quiet (output (dispatch entry s)) = true ->
  media_player s = Some h ->
  exists media w tr,
    dispatch entry s = (Ret tt, Frame w (Some h), tr)
    /\ calls tr = action_calls h media (meaning entry)
    /\ logged tr = [(INFO, completion_line entry)].
Proof.
  intros Q Hs. pose proof (read_media_player_run s h Hs) as Hr.
  unfold dispatch, meaning, completion_line in *.
  destruct (entry =? "pause")%string; [| destruct (entry =? "stop")%string];
    apply bind_quiet in Q as (_ & Q); specialize (Q _ _ _ Hr); cbv beta in Q.
  - next_call Q v w E. rewrite Hs in E.
    exists 0%Z, w. eexists. split.
    { eapply bind_run; [exact Hr |]. eapply bind_run; [exact E |]. reflexivity. }
    split; reflexivity.
  - next_call Q v w E. rewrite Hs in E.
    exists 0%Z, w. eexists. split.
    { eapply bind_run; [exact Hr |]. eapply bind_run; [exact E |]. reflexivity. }
    split; reflexivity.
  - destruct (play_video_run h entry s Q) as (v1 & media & v3 & v4 & w & E).
    rewrite Hs in E.
    exists media, w. eexists. split.
    { eapply bind_run; [exact Hr | exact E]. }
    split; reflexivity.
Qed.

(** The loop body when none of its calls raises: the input is read; if
    it reads [LOW] the action of the entry runs and the debounce sleep
    follows, otherwise nothing follows. *)
Lemma on_button_run (pin : Z) (entry : string) (s : frame) (h : Z) :
  quiet (output (on_button (pin, entry) s)) = true ->
  media_player s = Some h ->
  exists w tr,
    on_button (pin, entry) s = (Ret tt, Frame w (Some h), tr)
    /\ ((pressed pin tr = true
         /\ logged tr = [(INFO, completion_line entry)]
         /\ exists media,
              calls tr
              = GPIO_input pin :: action_calls h media (meaning entry) ++ [time_sleep 200])
        \/ (pressed pin tr = false /\ logged tr = [] /\ calls tr = [GPIO_input pin])).
Proof.
  intros Q Hs. destruct s as [w0 o]. cbn in Hs. subst o. unfold on_button in Q.
  next_call Q v w1 E1. cbn [media_player] in *.
  destruct (v =? LOW)%Z eqn:Hv.
  - apply bind_quiet in Q as (Qd & Q).
    destruct (dispatch_run entry (Frame w1 (Some h)) h Qd eq_refl)
      as (media & w2 & t2 & E2 & Hcalls & Hlog).
    specialize (Q _ _ _ E2). cbv beta in Q.
    next_call Q v3 w3 E3. cbn [media_player] in E3.
    exists w3. eexists. split.
    + unfold on_button. eapply bind_run; [exact E1 |]. rewrite Hv.
      eapply bind_run; [exact E2 |]. eapply bind_run; [exact E3 |]. reflexivity.
    + left. split; [| split].
      * unfold pressed. rewrite !forallb_app. cbn.
        rewrite Z.eqb_refl, Hv. cbn.
        fold (pressed pin t2). rewrite pressed_without_reads; [reflexivity |].
        intros p. rewrite Hcalls. apply action_calls_read_nothing.
      * rewrite !logged_app, Hlog. reflexivity.
      * exists media. rewrite !calls_app, Hcalls. reflexivity.
  - exists w1, [Called (GPIO_input pin) (Returns v)]. split.
    + unfold on_button. etransitivity.
      { eapply bind_run; [exact E1 |]. rewrite Hv. reflexivity. }
      reflexivity.
    + right. cbn. now rewrite Z.eqb_refl, Hv.
Qed.

(** Whatever the environment answers, [play_video] makes its calls in
    the order stop, load, play: it gets as far as the first call that
    raises, swallows an [Exception], and lets only an interrupt through. *)
Lemma play_video_keeps_the_order (player : Z) (path : string) (s : frame) :
  exists media n,
    calls (output (play_video player path s))
    = firstn n [ player_stop player; vlc_Media path;
                 set_media player media; player_play player ]
    /\ (result (play_video player path s) = Ret tt
        \/ result (play_video player path s) = Raise KeyboardInterrupt).
Proof.
  unfold play_video, try_except, bind, call, result, output.
  destruct (ext (player_stop player) (env s)) as [[v1|[|m1]] w1]; cbn;
    [ | exists 0%Z, 1%nat; auto .. ].
  destruct (ext (vlc_Media path) w1) as [[media|[|m2]] w2]; cbn;
    [ | exists 0%Z, 2%nat; auto .. ].
  destruct (ext (set_media player media) w2) as [[v3|[|m3]] w3]; cbn;
    [ | exists media, 3%nat; auto .. ].
  destruct (ext (player_play player) w3) as [[v4|[|m4]] w4]; cbn;
    exists media, 4%nat; auto.
Qed.

(** C3.  For every path and every state the player and the process are
    in, a run of [play_video] (the load-and-play action) in which no call
    raises invokes exactly stop, then load (a media object is made for the
    path and set on the player), then play, in that order, then logs the
    path, and returns. *)
Theorem play_video_stops_loads_plays (player : Z) (path : string) (s : frame) :
  quiet (output (play_video player path s)) = true ->
  exists v1 media v3 v4,
    output (play_video player path s)
    = [ Called (player_stop player) (Returns v1);
        Called (vlc_Media path) (Returns media);
        Called (set_media player media) (Returns v3);
        Called (player_play player) (Returns v4);
        Logged INFO ("Playing video: " +++ path) ]
    /\ result (play_video player path s) = Ret tt.
Proof.
  intros Q. destruct (play_video_run player path s Q) as (v1 & media & v3 & v4 & w & H).
  exists v1, media, v3, v4. rewrite H. split; reflexivity.
Qed.

(** The typed bindings are the table of lines 11-18, entry by entry. *)
Lemma bindings_read_the_table :
  bindings = map (fun b => (fst b, meaning (snd b))) BUTTON_PINS.
Proof.
  reflexivity.
Qed.


(** C9.  The loop tells actions apart by comparing strings and by
    nothing else: a pressed input whose entry is any string other than
    "pause" and "stop" has [play_video] run with that string as the file
    name, whatever the string is; stated for a run of the body in which no
    call raises. *)
Theorem other_entries_are_played (pin : Z) (entry : string) (s : frame) (h : Z) :
  entry <> "pause" ->
  entry <> "stop" ->
  media_player s = Some h ->
  quiet (output (on_button (pin, entry) s)) = true ->
  pressed pin (output (on_button (pin, entry) s)) = true ->
  exists media,
    calls (output (on_button (pin, entry) s))
    = [ GPIO_input pin;
        player_stop h; vlc_Media entry; set_media h media; player_play h;
        time_sleep 200 ]
    /\ logged (output (on_button (pin, entry) s))
       = [(INFO, "Playing video: " +++ entry)]
    /\ result (on_button (pin, entry) s) = Ret tt.
Proof.
  intros Hpause Hstop Hs Q Hp.
  destruct (on_button_run pin entry s h Q Hs)
    as (w & tr & H & [(_ & Hlog & media & Hcalls) | (Hrel & _)]);
    rewrite H in *; cbn [output result fst snd] in *; [| congruence].
  unfold meaning, completion_line in *.
  apply String.eqb_neq in Hpause, Hstop. rewrite Hpause, Hstop in *.
  exists media. now repeat split.
Qed.

(** *** Counting dispatches *)

Lemma on_button_counts (entry : string) (q : Z) (b : string) (s : frame) (h : Z) :
  quiet (output (on_button (q, b) s)) = true ->
  media_player s = Some h ->
  exists w tr,
    on_button (q, b) s = (Ret tt, Frame w (Some h), tr)
    /\ (completion_line b <> completion_line entry -> times_fired entry tr = 0)
    /\ (pressed q tr = true -> b = entry -> times_fired entry tr = 1).
Proof.
  intros Q Hs.
  destruct (on_button_run q b s h Q Hs)
    as (w & tr & H & [(_ & Hlog & _) | (Hrel & Hlog & _)]);
    exists w, tr; (split; [exact H |]).
  - rewrite (times_fired_line entry b tr Hlog). split.
    + intros Hne. apply String.eqb_neq in Hne. now rewrite Hne.
    + intros _ ->. now rewrite String.eqb_refl.
  - unfold times_fired. rewrite Hlog. split; [reflexivity | congruence].
Qed.

(** A scan over a list of entries fires [entry] once for each time the
    held input's own entry stands in the list, provided the other entries
    of the list log other lines. *)
Lemma scan_counts (pin : Z) (entry : string) (l : list (Z * string)) :
  Forall (fun b => b = (pin, entry)
                   \/ completion_line (snd b) <> completion_line entry) l ->
  forall s h,
    media_player s = Some h ->
    quiet (output (for_each l on_button s)) = true ->
    pressed pin (output (for_each l on_button s)) = true ->
    exists w tr,
      for_each l on_button s = (Ret tt, Frame w (Some h), tr)
      /\ times_fired entry tr = count_occ entry_eq_dec l (pin, entry).
Proof.
  intros Hl. induction Hl as [| [q b] l Hb Hl IH]; intros s h Hs Q Hp.
  - exists (env s), []. split; [| reflexivity].
    cbn. unfold ret. now rewrite (frame_eta s h Hs) at 1.
  - cbn [for_each] in Q, Hp.
    apply bind_quiet in Q as (Q1 & Q). apply bind_pressed in Hp as (Hp1 & Hp).
    destruct (on_button_counts entry q b s h Q1 Hs) as (w1 & t1 & H1 & Hother & Hsame).
    specialize (Q _ _ _ H1). specialize (Hp _ _ _ H1). cbv beta in Q, Hp.
    destruct (IH (Frame w1 (Some h)) h eq_refl Q Hp) as (w2 & t2 & H2 & Hcount).
    exists w2, (t1 ++ t2). split.
    + cbn [for_each]. eapply bind_run; [exact H1 | exact H2].
    + rewrite times_fired_app, Hcount. cbn [count_occ].
      destruct (entry_eq_dec (q, b) (pin, entry)) as [Heq | Hneq].
      * injection Heq as -> ->. rewrite Hsame; trivial.
        now rewrite H1 in Hp1.
      * destruct Hb as [Hb | Hb]; [contradiction |]. now rewrite Hother.
Qed.

(** The table names every input once, and no two of its entries log the
    same completion line. *)
Lemma table_entries_differ (pin : Z) (entry : string) :
  In (pin, entry) BUTTON_PINS ->
  Forall (fun b => b = (pin, entry)
                   \/ completion_line (snd b) <> completion_line entry) BUTTON_PINS
  /\ count_occ entry_eq_dec BUTTON_PINS (pin, entry) = 1.
Proof.
  intros Hin. cbn in Hin.
  repeat (destruct Hin as [Hin | Hin]; [injection Hin as <- <- | ]); try easy;
    (split;
     [ repeat (apply Forall_cons;
               [ first [left; reflexivity | right; vm_compute; discriminate] | ]);
       apply Forall_nil
     | reflexivity ]).
Qed.

Lemma scan_pass_counts (pin : Z) (entry : string) (s : frame) (h : Z) :
  In (pin, entry) BUTTON_PINS ->
  media_player s = Some h ->
  quiet (output (scan_pass s)) = true ->
  pressed pin (output (scan_pass s)) = true ->
  exists w tr,
    scan_pass s = (Ret tt, Frame w (Some h), tr) /\ times_fired entry tr = 1.
Proof.
  intros Hin Hs Q Hp. unfold scan_pass in Q, Hp.
  destruct (table_entries_differ pin entry Hin) as (Hall & Hone).
  apply bind_quiet in Q as (Q1 & Q). apply bind_pressed in Hp as (Hp1 & _).
  destruct (scan_counts pin entry BUTTON_PINS Hall s h Hs Q1 Hp1)
    as (w1 & t1 & H1 & Hcount).
  specialize (Q _ _ _ H1). cbv beta in Q.
  next_call Q v2 w2 H2. cbn [media_player] in H2.
  exists w2. eexists. split.
  - unfold scan_pass. eapply bind_run; [exact H1 |].
    eapply bind_run; [exact H2 |]. reflexivity.
  - rewrite times_fired_app, Hcount, Hone. reflexivity.
Qed.

Lemma loop_counts (pin : Z) (entry : string) :
  In (pin, entry) BUTTON_PINS ->
  forall (N : nat) (s : frame) (h : Z),
    media_player s = Some h ->
    quiet (output (while_true N scan_pass s)) = true ->
    pressed pin (output (while_true N scan_pass s)) = true ->
    exists w tr,
      while_true N scan_pass s = (Running, Frame w (Some h), tr)
      /\ times_fired entry tr = N.
Proof.
  intros Hin. induction N as [| N IH]; intros s h Hs Q Hp.
  - exists (env s), []. split; [| reflexivity].
    cbn. now rewrite (frame_eta s h Hs) at 1.
  - cbn [while_true] in Q, Hp.
    apply bind_quiet in Q as (Q1 & Q). apply bind_pressed in Hp as (Hp1 & Hp).
    destruct (scan_pass_counts pin entry s h Hin Hs Q1 Hp1) as (w1 & t1 & H1 & Hone).
    specialize (Q _ _ _ H1). specialize (Hp _ _ _ H1). cbv beta in Q, Hp.
    destruct (IH (Frame w1 (Some h)) h eq_refl Q Hp) as (w2 & t2 & H2 & Hcount).
    exists w2, (t1 ++ t2). split.
    + cbn [while_true]. eapply bind_run; [exact H1 | exact H2].
    + now rewrite times_fired_app, Hone, Hcount.
Qed.

(** *** Startup and cleanup *)

(** [setup_gpio] calls into the GPIO configuration only, and assigns no
    variable. *)
Lemma setup_gpio_footprint (s : frame) :
  media_player (final (setup_gpio s)) = media_player s
  /\ Forall (fun c => match c with
                      | GPIO_setwarnings _ | GPIO_setmode_BCM
                      | GPIO_setup_IN_PUD_UP _ => True
                      | _ => False
                      end) (calls (output (setup_gpio s))).
Proof.
  unfold setup_gpio, try_except, final, output.
  cbn [map fst BUTTON_PINS for_each]. unfold bind, call, logger_info, emit, ret.
  repeat (cbn [env media_player select is_Exception fst snd app];
          match goal with
          | |- context [ext ?c ?w] => destruct (ext c w) as [[?|[|?]] ?]
          end);
    cbn; split; trivial; repeat constructor.
Qed.

(** The [finally] block with [media_player] unbound: its first
    statement raises, the rest is not reached. *)
Lemma cleanup_unbound (s : frame) :
  media_player s = None ->
  cleanup s = (Raise (UnboundLocalError "media_player"), s, []).
Proof.
  intros H. unfold cleanup. apply bind_raise.
  unfold read_media_player. now rewrite H.
Qed.

(** C1 (what the code does when the GPIO configuration fails).  When
    [setup_gpio] raises, [main] reads no input (the loop is not entered),
    and its [finally] block reads [media_player] before line 58 has
    assigned it: the read raises, so [main] ends in that error and
    [GPIO.cleanup] is not called, and neither is [stop] on any player. *)
Theorem main_skips_cleanup_when_gpio_setup_fails
    (w : world) (e : exn) (passes : nat) :
  result (setup_gpio (start w)) = Raise e ->
  result (main passes (start w)) = Raise (UnboundLocalError "media_player")
  /\ ~ In GPIO_cleanup (calls (output (main passes (start w))))
  /\ (forall h, ~ In (player_stop h) (calls (output (main passes (start w)))))
  /\ (forall pin, ~ In (GPIO_input pin) (calls (output (main passes (start w))))).
Proof.
  intros Hraise.
  destruct (setup_gpio_footprint (start w)) as (Hmp & Hfoot).
  destruct (setup_gpio (start w)) as [[o s1] t1] eqn:Hrun.
  cbn in Hraise, Hmp, Hfoot. subst o.
  assert (Hmain : exists lv msg,
             main passes (start w)
             = (Raise (UnboundLocalError "media_player"), s1,
                (t1 ++ [Logged lv msg]) ++ [])).
  { unfold main, try_finally, try_except, guarded.
    erewrite bind_raise by exact Hrun.
    destruct e as [| m]; cbn [select is_KeyboardInterrupt is_Exception];
      unfold logger_info, logger_error, emit; cbv beta iota zeta;
      rewrite (cleanup_unbound s1 Hmp); do 2 eexists; reflexivity. }
  destruct Hmain as (lv & msg & ->). cbn [result output fst snd].
  rewrite !calls_app. cbn [calls flat_map app]. rewrite !app_nil_r.
  rewrite Forall_forall in Hfoot.
  split; [reflexivity |].
  repeat split; [intros Hin | intros h Hin | intros pin Hin];
    apply Hfoot in Hin; exact Hin.
Qed.

(** The exit paths on which the cleanup works: the guarded block got as
    far as binding [media_player] and then raised (an interrupt, or an
    error in the loop).  [main] logs the exception and returns, and if
    neither call of the [finally] block raises, its last calls are [stop]
    on the player and [GPIO.cleanup]. *)
Lemma main_cleans_up_once_the_player_is_bound
    (passes : nat) (s s1 : frame) (e : exn) (t1 : list event) (h : Z) :
  guarded passes s = (Raise e, s1, t1) ->
  media_player s1 = Some h ->
  quiet (output (cleanup s1)) = true ->
  result (main passes s) = Ret tt
  /\ calls (output (main passes s)) = calls t1 ++ [player_stop h; GPIO_cleanup].
Proof.
  intros Hrun Hs Q.
  pose proof (read_media_player_run s1 h Hs) as Hr.
  unfold cleanup in Q.
  apply bind_quiet in Q as (_ & Q). specialize (Q _ _ _ Hr). cbv beta in Q.
  next_call Q v1 w1 E1. next_call Q v2 w2 E2.
  assert (Hfin : cleanup s1
                 = (Ret tt, Frame w2 (media_player s1),
                    [] ++ [Called (player_stop h) (Returns v1)]
                       ++ [Called GPIO_cleanup (Returns v2)]
                       ++ [Logged INFO "Cleanup complete"])).
  { unfold cleanup. eapply bind_run; [exact Hr |]. eapply bind_run; [exact E1 |].
    eapply bind_run; [exact E2 |]. reflexivity. }
  unfold main, try_finally, try_except. rewrite Hrun.
  destruct e as [| m]; cbn [select is_KeyboardInterrupt is_Exception];
    unfold logger_info, logger_error, emit; cbv beta iota zeta;
    rewrite Hfin; cbn [result output fst snd];
    rewrite !calls_app; cbn; now rewrite app_nil_r.
Qed.

(** *** Setting up *)

Lemma setup_pins_run (pins : list Z) (s : frame) :
  quiet (output (for_each pins (fun pin => call (GPIO_setup_IN_PUD_UP pin) ;; ret tt) s))
  = true ->
  exists w tr,
    for_each pins (fun pin => call (GPIO_setup_IN_PUD_UP pin) ;; ret tt) s
    = (Ret tt, Frame w (media_player s), tr)
    /\ calls tr = map GPIO_setup_IN_PUD_UP pins
    /\ logged tr = [].
Proof.
  revert s. induction pins as [| pin pins IH]; intros s Q.
  - exists (env s), []. repeat split. cbn. unfold ret. now destruct s.
  - cbn [for_each] in Q. apply bind_quiet in Q as (Q1 & Q).
    next_call Q1 v w1 E1.
    assert (Hstep : (call (GPIO_setup_IN_PUD_UP pin) ;; ret tt) s
                    = (Ret tt, Frame w1 (media_player s),
                       [Called (GPIO_setup_IN_PUD_UP pin) (Returns v)] ++ [])).
    { eapply bind_run; [exact E1 | reflexivity]. }
    specialize (Q _ _ _ Hstep). cbv beta in Q.
    destruct (IH _ Q) as (w2 & t2 & E2 & Hcalls & Hlog). cbn [media_player] in E2.
    exists w2. eexists. split.
    { cbn [for_each]. eapply bind_run; [exact Hstep | exact E2]. }
    rewrite !calls_app, !logged_app, Hcalls, Hlog. split; reflexivity.
Qed.

Lemma setup_gpio_run (s : frame) :
  quiet (output (setup_gpio s)) = true ->
  exists w tr,
    setup_gpio s = (Ret tt, Frame w (media_player s), tr)
    /\ calls tr = setup_calls
    /\ logged tr = [(INFO, "GPIO initialized successfully")].
Proof.
  intros Q. unfold setup_gpio in Q. apply try_except_all in Q.
  next_call Q v1 w1 E1. next_call Q v2 w2 E2.
  apply bind_quiet in Q as (Q3 & _).
  destruct (setup_pins_run _ _ Q3) as (w3 & t3 & E3 & Hcalls & Hlog).
  cbn [media_player] in E3.
  exists w3. eexists. split.
  { unfold setup_gpio, try_except.
    erewrite bind_run; [ | exact E1 | ].
    2:{ eapply bind_run; [exact E2 |]. eapply bind_run; [exact E3 |]. reflexivity. }
    reflexivity. }
  rewrite !calls_app, !logged_app, Hcalls, Hlog. split; reflexivity.
Qed.

(** X1.  When no GPIO call raises, [setup_gpio] turns the warnings off,
    selects BCM numbering, configures the six inputs of the table as
    pulled-up inputs in the order of the table, logs its one line, and
    returns, having assigned nothing. *)
Theorem setup_gpio_configures_the_inputs (s : frame) :
  quiet (output (setup_gpio s)) = true ->
  result (setup_gpio s) = Ret tt
  /\ calls (output (setup_gpio s))
     = [ GPIO_setwarnings false; GPIO_setmode_BCM;
         GPIO_setup_IN_PUD_UP 13; GPIO_setup_IN_PUD_UP 19; GPIO_setup_IN_PUD_UP 26;
         GPIO_setup_IN_PUD_UP 21; GPIO_setup_IN_PUD_UP 20; GPIO_setup_IN_PUD_UP 16 ]
  /\ logged (output (setup_gpio s)) = [(INFO, "GPIO initialized successfully")]
  /\ media_player (final (setup_gpio s)) = media_player s.
Proof.
  intros Q. destruct (setup_gpio_run s Q) as (w & tr & Hrun & Hcalls & Hlog).
  rewrite Hrun. cbn [result output final fst snd]. rewrite Hcalls, Hlog. repeat split.
Qed.

(** X2.  When [setup_gpio] raises, it raises what the failing GPIO call
    raised: the calls made are the configuration calls up to and including
    that one, so no input after it is configured; an [Exception] is logged
    once, as "GPIO setup error: ...", and an interrupt is not logged. *)
Theorem setup_gpio_reraises (s : frame) (e : exn) :
  result (setup_gpio s) = Raise e ->
  (exists n, n < List.length setup_calls
             /\ calls (output (setup_gpio s)) = firstn (S n) setup_calls)
  /\ (exists c, In (Called c (Raises e)) (output (setup_gpio s))
               /\ last (calls (output (setup_gpio s))) c = c)
  /\ logged (output (setup_gpio s))
     = (if is_Exception e then [(ERROR, "GPIO setup error: " +++ str e)] else []).
Proof.
  unfold setup_gpio, try_except, result, output.
  cbn [map fst BUTTON_PINS for_each]. unfold bind, call, logger_info, emit, ret.
  repeat (cbn [env media_player select is_Exception fst snd app];
          match goal with
          | |- context [ext ?c ?w] => destruct (ext c w) as [[?|[|?]] ?]
          end);
    cbn; intros H; try discriminate H; injection H as <-; cbn;
    (split;
     [ first [ exists 0; split; [cbn; lia | reflexivity]
             | exists 1; split; [cbn; lia | reflexivity]
             | exists 2; split; [cbn; lia | reflexivity]
             | exists 3; split; [cbn; lia | reflexivity]
             | exists 4; split; [cbn; lia | reflexivity]
             | exists 5; split; [cbn; lia | reflexivity]
             | exists 6; split; [cbn; lia | reflexivity]
             | exists 7; split; [cbn; lia | reflexivity] ]
     | split;
       [ eexists; split;
         [ repeat (first [left; reflexivity | right]) | reflexivity ]
       | reflexivity ] ]).
Qed.

Lemma setup_media_player_run (s : frame) :
  quiet (output (setup_media_player s)) = true ->
  exists player v w,
    setup_media_player s
    = (Ret player, Frame w (media_player s),
       [ Called vlc_MediaPlayer (Returns player);
         Called (toggle_fullscreen player) (Returns v);
         Logged INFO "Media player initialized successfully" ]).
Proof.
  intros Q. unfold setup_media_player in Q. apply try_except_all in Q.
  next_call Q player w1 E1. next_call Q v w2 E2.
  exists player, v, w2.
  unfold setup_media_player, try_except.
  erewrite bind_run; [ | exact E1 | ].
  2:{ eapply bind_run; [exact E2 |]. eapply bind_run; reflexivity. }
  reflexivity.
Qed.

(** X3.  When neither call raises, [setup_media_player] makes a player,
    toggles that player to fullscreen, logs its line, and returns the
    player that [vlc.MediaPlayer()] returned. *)
Theorem setup_media_player_returns_the_player (s : frame) :
  quiet (output (setup_media_player s)) = true ->
  exists player v,
    result (setup_media_player s) = Ret player
    /\ output (setup_media_player s)
       = [ Called vlc_MediaPlayer (Returns player);
           Called (toggle_fullscreen player) (Returns v);
           Logged INFO "Media player initialized successfully" ]
    /\ media_player (final (setup_media_player s)) = media_player s.
Proof.
  intros Q. destruct (setup_media_player_run s Q) as (player & v & w & Hrun).
  exists player, v. rewrite Hrun. repeat split.
Qed.

(** X4.  When [setup_media_player] raises, no player is returned: it
    raises what [vlc.MediaPlayer()] or [toggle_fullscreen] raised, after
    logging an [Exception] once as "Media player setup error: ...". *)
Theorem setup_media_player_reraises (s : frame) (e : exn) :
  result (setup_media_player s) = Raise e ->
  logged (output (setup_media_player s))
  = (if is_Exception e then [(ERROR, "Media player setup error: " +++ str e)] else [])
  /\ ((calls (output (setup_media_player s)) = [vlc_MediaPlayer]
       /\ In (Called vlc_MediaPlayer (Raises e)) (output (setup_media_player s)))
      \/ exists player,
           calls (output (setup_media_player s))
           = [vlc_MediaPlayer; toggle_fullscreen player]
           /\ In (Called (toggle_fullscreen player) (Raises e))
                 (output (setup_media_player s))).
Proof.
  unfold setup_media_player, try_except, bind, call, result, output.
  destruct (ext vlc_MediaPlayer (env s)) as [[player | [| m1]] w1]; cbn;
    [ | intros [= <-]; cbn; auto .. ].
  destruct (ext (toggle_fullscreen player) w1) as [[v | [| m2]] w2]; cbn;
    intros H; try discriminate H; injection H as <-;
    (split; [reflexivity | right; exists player; cbn; auto]).
Qed.

(** *** Playback errors *)

(** X5.  [play_video] swallows playback errors: whichever of its calls
    raises an [Exception], the calls after it are not made, the error is
    logged once as "Playback error for <file>: ...", and [play_video]
    returns. *)
Theorem play_video_swallows_errors
    (player : Z) (fname : string) (s : frame) (c : op) (msg : string) :
  In (Called c (Raises (Exception msg))) (output (play_video player fname s)) ->
  result (play_video player fname s) = Ret tt
  /\ logged (output (play_video player fname s))
     = [(ERROR, "Playback error for " +++ fname +++ ": " +++ msg)]
  /\ last (calls (output (play_video player fname s))) c = c.
Proof.
  unfold play_video, try_except, bind, call, result, output.
  destruct (ext (player_stop player) (env s)) as [[v1 | [| m1]] w1]; cbn;
    [ destruct (ext (vlc_Media fname) w1) as [[media | [| m2]] w2]; cbn;
      [ destruct (ext (set_media player media) w2) as [[v3 | [| m3]] w3]; cbn;
        [ destruct (ext (player_play player) w3) as [[v4 | [| m4]] w4]; cbn | .. ]
      | .. ]
    | .. ];
    intros H; repeat (destruct H as [H | H]);
    first [ discriminate H | contradiction | injection H as <- <-; auto ].
Qed.

(** X6.  Pausing and stopping never load media: whatever the environment
    does, the action of "pause" calls nothing but [pause] on the player,
    and the action of "stop" nothing but [stop]; no media object is made
    or set and nothing is played. *)
Theorem pause_and_stop_load_nothing (s : frame) :
  (forall c, In c (calls (output (dispatch "pause" s))) ->
             exists player, media_player s = Some player /\ c = player_pause player)
  /\ (forall c, In c (calls (output (dispatch "stop" s))) ->
                exists player, media_player s = Some player /\ c = player_stop player).
Proof.
  unfold dispatch. cbn [String.eqb Ascii.eqb Bool.eqb].
  unfold bind, read_media_player, call, output.
  destruct (media_player s) as [h |]; cbn; [| split; intros c []].
  split.
  - destruct (ext (player_pause h) (env s)) as [[v | e] w]; cbn;
      intros c [<- | []]; eauto.
  - destruct (ext (player_stop h) (env s)) as [[v | e] w]; cbn;
      intros c [<- | []]; eauto.
Qed.

Lemma on_button_idle (b : Z * string) (s : frame) :
  idle (output (on_button b s)) = true ->
  exists v w,
    on_button b s
    = (Ret tt, Frame w (media_player s), [Called (GPIO_input (fst b)) (Returns v)]).
Proof.
  destruct b as [pin a]. intros Q. unfold idle, on_button in Q.
  apply (bind_all idle_event) in Q as (Q1 & _). unfold call in Q1.
  destruct (ext (GPIO_input pin) (env s)) as [[v | e] w] eqn:Hread;
    [| discriminate Q1].
  cbn in Q1. rewrite andb_true_r in Q1. apply negb_true_iff in Q1.
  exists v, w. unfold on_button, bind, call. now rewrite Hread, Q1.
Qed.

Lemma scan_idle (l : list (Z * string)) :
  forall s : frame,
    idle (output (for_each l on_button s)) = true ->
    exists w tr,
      for_each l on_button s = (Ret tt, Frame w (media_player s), tr)
      /\ calls tr = map GPIO_input (map fst l)
      /\ logged tr = [].
Proof.
  induction l as [| b l IH]; intros s Q.
  - exists (env s), []. repeat split. cbn. unfold ret. now destruct s.
  - cbn [for_each] in Q. apply (bind_all idle_event) in Q as (Q1 & Q).
    destruct (on_button_idle b s Q1) as (v & w1 & E1).
    specialize (Q _ _ _ E1). cbv beta in Q.
    destruct (IH _ Q) as (w2 & t2 & E2 & Hc & Hl). cbn [media_player] in E2.
    exists w2. eexists. split.
    { cbn [for_each]. eapply bind_run; [exact E1 | exact E2]. }
    rewrite calls_app, logged_app, Hc, Hl. split; reflexivity.
Qed.

(** X7.  A pass in which every input reads released (and no call
    raises) reads the six inputs in the order of the table, sleeps its
    10 ms, and does nothing else: no call on the player, no log line, no
    debounce sleep.  It does not read [media_player] either, so it runs the
    same whether a player is bound or not. *)
Theorem idle_pass_only_reads_and_sleeps (s : frame) :
  idle (output (scan_pass s)) = true ->
  result (scan_pass s) = Ret tt
  /\ calls (output (scan_pass s))
     = [ GPIO_input 13; GPIO_input 19; GPIO_input 26;
         GPIO_input 21; GPIO_input 20; GPIO_input 16; time_sleep 10 ]
  /\ logged (output (scan_pass s)) = []
  /\ media_player (final (scan_pass s)) = media_player s.
Proof.
  intros Q. unfold idle, scan_pass in Q.
  apply (bind_all idle_event) in Q as (Q1 & Q).
  destruct (scan_idle BUTTON_PINS s Q1) as (w1 & t1 & E1 & Hc & Hl).
  specialize (Q _ _ _ E1). cbv beta in Q.
  apply (bind_all idle_event) in Q as (Q2 & _). unfold call in Q2.
  cbn [env media_player] in Q2.
  destruct (ext (time_sleep 10) w1) as [[v2 | e2] w2] eqn:Hsleep;
    [| discriminate Q2].
  assert (Hrun : scan_pass s
                 = (Ret tt, Frame w2 (media_player s),
                    t1 ++ [Called (time_sleep 10) (Returns v2)] ++ [])).
  { unfold scan_pass. eapply bind_run; [exact E1 |].
    eapply bind_run; [| reflexivity].
    unfold call. cbn [env media_player]. now rewrite Hsleep. }
  rewrite Hrun. cbn [result final output fst snd].
  rewrite calls_app, logged_app, Hc, Hl. repeat split.
Qed.

(** X8.  Errors of [pause] and [stop] are not swallowed: when the input
    of a "pause" or "stop" entry reads [LOW] and the call on the player
    raises, the loop body raises the same exception at once, without a log
    line and without the debounce sleep. *)
Theorem pause_and_stop_errors_leave_the_loop
    (pin : Z) (entry : string) (c : op) (s : frame) (h : Z) (e : exn)
    (w1 w2 : world) :
  media_player s = Some h ->
  (entry, c) = ("pause", player_pause h) \/ (entry, c) = ("stop", player_stop h) ->
  ext (GPIO_input pin) (env s) = (Returns LOW, w1) ->
  ext c w1 = (Raises e, w2) ->
  on_button (pin, entry) s
  = (Raise e, Frame w2 (Some h),
     [Called (GPIO_input pin) (Returns LOW); Called c (Raises e)]).
Proof.
  intros Hs Hentry Hread Hcall. destruct s as [w0 o]. cbn in Hs, Hread. subst o.
  destruct Hentry as [[= -> ->] | [= -> ->]];
    unfold on_button, dispatch, bind, call, read_media_player;
    cbn [env media_player String.eqb Ascii.eqb Bool.eqb];
    rewrite Hread; cbn; rewrite Hcall; reflexivity.
Qed.

(** *** One pass of the loop *)

Lemma reads_app (t1 t2 : list event) : reads (t1 ++ t2) = reads t1 ++ reads t2.
Proof.
  unfold reads. now rewrite calls_app, flat_map_app.
Qed.

Lemma slept_app (t1 t2 : list event) : slept (t1 ++ t2) = (slept t1 + slept t2)%Z.
Proof.
  unfold slept. rewrite calls_app.
  induction (calls t1) as [| c l IH]; cbn; [reflexivity |].
  rewrite IH. destruct c; lia.
Qed.

Lemma pressed_app (pin : Z) (t1 t2 : list event) :
  pressed pin (t1 ++ t2) = pressed pin t1 && pressed pin t2.
Proof.
  apply forallb_app.
Qed.

(** The loop body when none of its calls raises, event by event: the
    read comes first; what follows reads nothing, and is the action of
    the entry and the debounce sleep if the read returned [LOW], and
    nothing otherwise. *)
Lemma on_button_shape (q : Z) (b : string) (s : frame) (h : Z) :
  quiet (output (on_button (q, b) s)) = true ->
  media_player s = Some h ->
  exists v w rest,
    on_button (q, b) s
    = (Ret tt, Frame w (Some h), Called (GPIO_input q) (Returns v) :: rest)
    /\ ((v = LOW
         /\ logged rest = [(INFO, completion_line b)]
         /\ exists media,
              calls rest = action_calls h media (meaning b) ++ [time_sleep 200])
        \/ (v <> LOW /\ rest = [])).
Proof.
  intros Q Hs. destruct s as [w0 o]. cbn in Hs. subst o. unfold on_button in Q.
  next_call Q v w1 E1. cbn [media_player] in *.
  destruct (v =? LOW)%Z eqn:Hv.
  - apply bind_quiet in Q as (Qd & Q).
    destruct (dispatch_run b (Frame w1 (Some h)) h Qd eq_refl)
      as (media & w2 & t2 & E2 & Hcalls & Hlog).
    specialize (Q _ _ _ E2). cbv beta in Q.
    next_call Q v3 w3 E3. cbn [media_player] in E3.
    exists v, w3, (t2 ++ [Called (time_sleep 200) (Returns v3)] ++ []). split.
    + unfold on_button. etransitivity.
      { eapply bind_run; [exact E1 |]. rewrite Hv.
        eapply bind_run; [exact E2 |]. eapply bind_run; [exact E3 |]. reflexivity. }
      reflexivity.
    + left. apply Z.eqb_eq in Hv. split; [exact Hv |]. split.
      * rewrite !logged_app, Hlog. reflexivity.
      * exists media. rewrite !calls_app, Hcalls. reflexivity.
  - exists v, w1, []. split.
    + unfold on_button. etransitivity.
      { eapply bind_run; [exact E1 |]. rewrite Hv. reflexivity. }
      reflexivity.
    + right. apply Z.eqb_neq in Hv. now split.
Qed.

Lemma action_calls_only_play (h media : Z) (a : action) :
  flat_map (fun c => match c with GPIO_input pin => [pin] | _ => [] end)
           (action_calls h media a) = []
  /\ fold_right (fun c acc => match c with time_sleep ms => (ms + acc)%Z | _ => acc end)
                0%Z (action_calls h media a ++ [time_sleep 200]) = 200%Z.
Proof.
  destruct a; split; reflexivity.
Qed.

(** What the loop body adds to a pass, in the terms of the statements. *)
Lemma on_button_effect (pin : Z) (entry : string) (q : Z) (b : string)
    (s : frame) (h : Z) :
  quiet (output (on_button (q, b) s)) = true ->
  media_player s = Some h ->
  exists w tr (fired : bool),
    on_button (q, b) s = (Ret tt, Frame w (Some h), tr)
    /\ reads tr = [q]
    /\ slept tr = (200 * Z.of_nat (List.length (logged tr)))%Z
    /\ logged tr = (if fired then [(INFO, completion_line b)] else [])
    /\ pressed pin tr = (if (q =? pin)%Z then fired else true).
Proof.
  intros Q Hs.
  destruct (on_button_shape q b s h Q Hs)
    as (v & w & rest & Hrun & [(-> & Hlog & media & Hcalls) | (Hv & ->)]).
  - exists w, (Called (GPIO_input q) (Returns LOW) :: rest), true.
    destruct (action_calls_only_play h media (meaning b)) as (Hreads & Hslept).
    split; [exact Hrun |].
    change (Called (GPIO_input q) (Returns LOW) :: rest)
      with ([Called (GPIO_input q) (Returns LOW)] ++ rest).
    rewrite reads_app, slept_app, logged_app, pressed_app.
    assert (Hr : reads rest = []).
    { unfold reads. rewrite Hcalls, flat_map_app, Hreads. reflexivity. }
    assert (Hp : pressed pin rest = true).
    { apply pressed_without_reads. intros p Hin.
      assert (Hin' : In p (reads rest)).
      { unfold reads. apply in_flat_map. exists (GPIO_input p). split; [exact Hin |].
        now left. }
      now rewrite Hr in Hin'. }
    rewrite Hr, Hp, Hlog. unfold slept at 2. rewrite Hcalls, Hslept.
    repeat split. cbn. now destruct (q =? pin)%Z.
  - exists w, [Called (GPIO_input q) (Returns v)], false.
    split; [exact Hrun |]. apply Z.eqb_neq in Hv. cbn. rewrite Hv.
    repeat split. now destruct (q =? pin)%Z.
Qed.

Lemma scan_reads (l : list (Z * string)) :
  forall (s : frame) (h : Z),
    media_player s = Some h ->
    quiet (output (for_each l on_button s)) = true ->
    exists w tr,
      for_each l on_button s = (Ret tt, Frame w (Some h), tr)
      /\ reads tr = map fst l
      /\ slept tr = (200 * Z.of_nat (List.length (logged tr)))%Z.
Proof.
  induction l as [| [q b] l IH]; intros s h Hs Q.
  - exists (env s), []. repeat split.
    cbn. unfold ret. now rewrite (frame_eta s h Hs) at 1.
  - cbn [for_each] in Q. apply bind_quiet in Q as (Q1 & Q).
    destruct (on_button_effect q b q b s h Q1 Hs)
      as (w1 & t1 & fired & E1 & Hr1 & Hs1 & _).
    specialize (Q _ _ _ E1). cbv beta in Q.
    destruct (IH (Frame w1 (Some h)) h eq_refl Q) as (w2 & t2 & E2 & Hr2 & Hs2).
    exists w2, (t1 ++ t2). split.
    + cbn [for_each]. eapply bind_run; [exact E1 | exact E2].
    + rewrite reads_app, slept_app, logged_app, length_app, Hr1, Hr2, Hs1, Hs2.
      split; [reflexivity | lia].
Qed.

(** X9.  A pass of the loop in which no call raises reads each of the
    six inputs exactly once, in the order of the table, whatever is
    pressed, and returns; it sleeps 200 ms for every action it carried out
    and 10 ms at its end. *)
Theorem scan_pass_reads_every_input_once (s : frame) (h : Z) :
  media_player s = Some h ->
  quiet (output (scan_pass s)) = true ->
  result (scan_pass s) = Ret tt
  /\ reads (output (scan_pass s)) = [13; 19; 26; 21; 20; 16]%Z
  /\ slept (output (scan_pass s))
     = (10 + 200 * Z.of_nat (List.length (logged (output (scan_pass s)))))%Z.
Proof.
  intros Hs Q. unfold scan_pass in Q.
  apply bind_quiet in Q as (Q1 & Q).
  destruct (scan_reads BUTTON_PINS s h Hs Q1) as (w1 & t1 & E1 & Hr & Hsl).
  specialize (Q _ _ _ E1). cbv beta in Q.
  next_call Q v2 w2 E2.
  assert (Hrun : scan_pass s
                 = (Ret tt, Frame w2 (Some h),
                    t1 ++ [Called (time_sleep 10) (Returns v2)] ++ [])).
  { unfold scan_pass. eapply bind_run; [exact E1 |].
    eapply bind_run; [exact E2 |]. reflexivity. }
  rewrite Hrun. cbn [result output fst snd].
  rewrite reads_app, slept_app, logged_app, length_app, Hr, Hsl.
  split; [reflexivity |]. split; [reflexivity |].
  change (slept ([Called (time_sleep 10) (Returns v2)] ++ [])) with 10%Z.
  change (List.length (logged ([Called (time_sleep 10) (Returns v2)] ++ [])))
    with 0.
  lia.
Qed.

Lemma scan_fires (pin : Z) (entry : string) (l : list (Z * string)) :
  Forall (fun b => b = (pin, entry)
                   \/ (fst b <> pin
                       /\ completion_line (snd b) <> completion_line entry)) l ->
  count_occ entry_eq_dec l (pin, entry) <= 1 ->
  forall (s : frame) (h : Z),
    media_player s = Some h ->
    quiet (output (for_each l on_button s)) = true ->
    exists w tr,
      for_each l on_button s = (Ret tt, Frame w (Some h), tr)
      /\ times_fired entry tr
         = (if pressed pin tr then count_occ entry_eq_dec l (pin, entry) else 0)
      /\ (count_occ entry_eq_dec l (pin, entry) = 0 -> pressed pin tr = true).
Proof.
  intros Hl. induction Hl as [| [q b] l Hb Hl IH]; intros Hocc s h Hs Q.
  - exists (env s), []. repeat split.
    cbn. unfold ret. now rewrite (frame_eta s h Hs) at 1.
  - cbn [for_each] in Q. apply bind_quiet in Q as (Q1 & Q).
    destruct (on_button_effect pin entry q b s h Q1 Hs)
      as (w1 & t1 & fired & E1 & _ & _ & Hlog1 & Hp1).
    specialize (Q _ _ _ E1). cbv beta in Q.
    cbn [count_occ] in Hocc |- *.
    destruct (entry_eq_dec (q, b) (pin, entry)) as [Heq | Hneq].
    + injection Heq as -> ->.
      destruct (IH ltac:(lia) (Frame w1 (Some h)) h eq_refl Q)
        as (w2 & t2 & E2 & Hf2 & Hp2).
      exists w2, (t1 ++ t2). split.
      { cbn [for_each]. eapply bind_run; [exact E1 | exact E2]. }
      assert (Hzero : count_occ entry_eq_dec l (pin, entry) = 0) by lia.
      rewrite times_fired_app, pressed_app, Hf2, Hp1, (Hp2 Hzero), Hzero, Z.eqb_refl.
      split; [| discriminate].
      unfold times_fired. rewrite Hlog1.
      destruct fired; cbn; [now rewrite String.eqb_refl | reflexivity].
    + destruct Hb as [Hb | (Hq & Hline)]; [contradiction |]. cbn [fst snd] in Hq, Hline.
      destruct (IH ltac:(lia) (Frame w1 (Some h)) h eq_refl Q)
        as (w2 & t2 & E2 & Hf2 & Hp2).
      exists w2, (t1 ++ t2). split.
      { cbn [for_each]. eapply bind_run; [exact E1 | exact E2]. }
      apply Z.eqb_neq in Hq. apply String.eqb_neq in Hline.
      rewrite times_fired_app, pressed_app, Hf2, Hp1, Hq.
      split; [| exact Hp2].
      unfold times_fired at 1. rewrite Hlog1.
      destruct fired; cbn; [now rewrite Hline | reflexivity].
Qed.

(** The table names every input once, on its own pin and with its own
    completion line. *)
Lemma table_entries_apart (pin : Z) (entry : string) :
  In (pin, entry) BUTTON_PINS ->
  Forall (fun b => b = (pin, entry)
                   \/ (fst b <> pin
                       /\ completion_line (snd b) <> completion_line entry))
         BUTTON_PINS
  /\ count_occ entry_eq_dec BUTTON_PINS (pin, entry) = 1.
Proof.
  intros Hin. cbn in Hin.
  repeat (destruct Hin as [Hin | Hin]; [injection Hin as <- <- | ]); try easy;
    (split;
     [ repeat (apply Forall_cons;
               [ first [ left; reflexivity
                       | right; split; [discriminate | vm_compute; discriminate] ]
               | ]);
       apply Forall_nil
     | reflexivity ]).
Qed.

Lemma in_calls_reads (p : Z) (tr : list event) :
  In (GPIO_input p) (calls tr) -> In p (reads tr).
Proof.
  intros H. unfold reads. apply in_flat_map.
  exists (GPIO_input p). split; [exact H | now left].
Qed.

Lemma pressed_of_other_reads (pin : Z) (tr : list event) :
  ~ In pin (reads tr) -> pressed pin tr = true.
Proof.
  induction tr as [| ev tr IH]; intros H; [reflexivity |].
  change (ev :: tr) with ([ev] ++ tr) in H |- *.
  rewrite reads_app in H. rewrite pressed_app.
  rewrite IH by (contradict H; apply in_or_app; now right).
  rewrite andb_true_r.
  destruct ev as [c r | lv msg]; [| reflexivity].
  destruct c as [| | | p | | | | | | | | |]; try reflexivity.
  cbn. destruct (Z.eqb_spec p pin) as [-> | _]; [| reflexivity].
  contradict H. apply in_or_app. left. now left.
Qed.

(** A loop over entries starts with the read of the first of them. *)
Lemma scan_starts_with_a_read (l : list (Z * string)) (s : frame) (h : Z) :
  quiet (output (for_each l on_button s)) = true ->
  media_player s = Some h ->
  l = []
  \/ exists q rest, calls (output (for_each l on_button s)) = GPIO_input q :: rest.
Proof.
  intros Q Hs. destruct l as [| [q b] l]; [now left | right].
  cbn [for_each] in Q |- *. apply bind_quiet in Q as (Q1 & _).
  destruct (on_button_shape q b s h Q1 Hs) as (v & w & rest & Hrun & _).
  rewrite bind_output, Hrun. cbn [output snd].
  rewrite calls_app. cbn. eauto.
Qed.

(** The calls of a loop over entries, around the one entry of [pin]. *)
Lemma scan_serves (pin : Z) (entry : string) (h : Z) (l2 : list (Z * string)) :
  ~ In pin (map fst l2) ->
  forall (l1 : list (Z * string)) (s : frame),
    ~ In pin (map fst l1) ->
    quiet (output (for_each (l1 ++ (pin, entry) :: l2) on_button s)) = true ->
    media_player s = Some h ->
    exists w tr pre media post,
      for_each (l1 ++ (pin, entry) :: l2) on_button s = (Ret tt, Frame w (Some h), tr)
      /\ calls tr
         = pre ++ GPIO_input pin
                 :: (if pressed pin tr
                     then action_calls h media (meaning entry) ++ [time_sleep 200]
                     else [])
                 ++ post
      /\ ~ In (GPIO_input pin) pre
      /\ ~ In (GPIO_input pin) post
      /\ (post = [] \/ exists q rest, post = GPIO_input q :: rest).
Proof.
  intros Hl2. induction l1 as [| [q b] l1 IH]; intros s Hl1 Q Hs.
  - cbn [app for_each] in Q |- *. apply bind_quiet in Q as (Q1 & Q).
    destruct (on_button_shape pin entry s h Q1 Hs) as (v & w1 & rest & Hrun & Hcases).
    specialize (Q _ _ _ Hrun). cbv beta in Q.
    destruct (scan_reads l2 (Frame w1 (Some h)) h eq_refl Q) as (w2 & t2 & E2 & Hr2 & _).
    pose proof (scan_starts_with_a_read l2 (Frame w1 (Some h)) h Q eq_refl) as Hhead.
    rewrite E2 in Hhead. cbn [output snd] in Hhead.
    assert (Hp2 : pressed pin t2 = true).
    { apply pressed_of_other_reads. now rewrite Hr2. }
    assert (Hpost : ~ In (GPIO_input pin) (calls t2)).
    { intros Hin. apply in_calls_reads in Hin. now rewrite Hr2 in Hin. }
    assert (Hhd : calls t2 = [] \/ exists q rest', calls t2 = GPIO_input q :: rest').
    { destruct Hhead as [-> | Hhead]; [left | now right].
      cbn in E2. now injection E2 as _ <-. }
    exists w2, ((Called (GPIO_input pin) (Returns v) :: rest) ++ t2), [].
    destruct Hcases as [(-> & _ & media & Hcalls) | (Hv & ->)].
    + exists media, (calls t2). split.
      { eapply bind_run; [exact Hrun | exact E2]. }
      assert (Hp1 : pressed pin rest = true).
      { apply pressed_of_other_reads. unfold reads.
        rewrite Hcalls, flat_map_app.
        destruct (action_calls_only_play h media (meaning entry)) as (-> & _).
        cbn. tauto. }
      split; [| now repeat split].
      rewrite pressed_app.
      change (pressed pin (Called (GPIO_input pin) (Returns LOW) :: rest))
        with (read_low pin (Called (GPIO_input pin) (Returns LOW)) && pressed pin rest).
      cbn [read_low]. rewrite Z.eqb_refl, Hp1, Hp2.
      change (LOW =? LOW)%Z with true. cbn [andb].
      rewrite calls_app.
      change (calls (Called (GPIO_input pin) (Returns LOW) :: rest))
        with (GPIO_input pin :: calls rest).
      now rewrite Hcalls.
    + exists 0%Z, (calls t2). split.
      { eapply bind_run; [exact Hrun | exact E2]. }
      split; [| now repeat split].
      rewrite pressed_app.
      change (pressed pin [Called (GPIO_input pin) (Returns v)])
        with (read_low pin (Called (GPIO_input pin) (Returns v)) && true).
      cbn [read_low]. rewrite Z.eqb_refl.
      apply Z.eqb_neq in Hv. rewrite Hv. cbn [andb].
      now rewrite calls_app.
  - assert (Hq : q <> pin) by (contradict Hl1; now left).
    assert (Hl1' : ~ In pin (map fst l1)) by (contradict Hl1; now right).
    cbn [app for_each] in Q |- *. apply bind_quiet in Q as (Q1 & Q).
    destruct (on_button_effect pin entry q b s h Q1 Hs)
      as (w1 & t1 & fired & E1 & Hr1 & _ & _ & Hp1).
    specialize (Q _ _ _ E1). cbv beta in Q.
    destruct (IH (Frame w1 (Some h)) Hl1' Q eq_refl)
      as (w & tr & pre & media & post & E & Hcalls & Hpre & Hpost & Hhd).
    apply Z.eqb_neq in Hq. rewrite Hq in Hp1.
    exists w, (t1 ++ tr), (calls t1 ++ pre), media, post. split.
    { eapply bind_run; [exact E1 | exact E]. }
    split; [| split; [| now split]].
    + now rewrite calls_app, pressed_app, Hp1, Hcalls, <- app_assoc.
    + intros Hin. apply in_app_or in Hin as [Hin | Hin]; [| contradiction].
      apply in_calls_reads in Hin. rewrite Hr1 in Hin.
      destruct Hin as [-> | []]. now rewrite Z.eqb_refl in Hq.
Qed.

(** Every input of the table has its own pin. *)
Lemma table_split (pin : Z) (entry : string) :
  In (pin, entry) BUTTON_PINS ->
  exists l1 l2,
    BUTTON_PINS = l1 ++ (pin, entry) :: l2
    /\ ~ In pin (map fst l1)
    /\ ~ In pin (map fst l2).
Proof.
  intros Hin. destruct (in_split _ _ Hin) as (l1 & l2 & Heq).
  exists l1, l2. split; [exact Heq |].
  assert (Hnd : NoDup (map fst BUTTON_PINS)).
  { cbn. repeat (apply NoDup_cons; [cbn; intuition discriminate |]). apply NoDup_nil. }
  rewrite Heq, map_app in Hnd. cbn [map fst] in Hnd.
  apply NoDup_remove_2 in Hnd.
  split; contradict Hnd; apply in_or_app; auto.
Qed.

(** The calls of a pass, around the read of one input of the table. *)
Lemma scan_pass_serves (pin : Z) (entry : string) (s : frame) (h : Z) :
  In (pin, entry) BUTTON_PINS ->
  media_player s = Some h ->
  quiet (output (scan_pass s)) = true ->
  served h pin entry (pressed pin (output (scan_pass s))) (calls (output (scan_pass s))).
Proof.
  intros Hin Hs Q.
  destruct (table_split pin entry Hin) as (l1 & l2 & Heq & Hl1 & Hl2).
  unfold scan_pass in Q |- *. rewrite Heq in Q |- *.
  apply bind_quiet in Q as (Q1 & Q).
  destruct (scan_serves pin entry h l2 Hl2 l1 s Hl1 Q1 Hs)
    as (w1 & tr & pre & media & post & E1 & Hcalls & Hpre & Hpost & Hhd).
  specialize (Q _ _ _ E1). cbv beta in Q.
  next_call Q v2 w2 E2.
  assert (Hrun : (for_each (l1 ++ (pin, entry) :: l2) on_button ;;
                  call (time_sleep 10) ;; ret tt) s
                 = (Ret tt, Frame w2 (Some h),
                    tr ++ [Called (time_sleep 10) (Returns v2)] ++ [])).
  { eapply bind_run; [exact E1 |]. eapply bind_run; [exact E2 |]. reflexivity. }
  rewrite Hrun. cbn [output snd].
  rewrite pressed_app, calls_app, Hcalls.
  change (pressed pin ([Called (time_sleep 10) (Returns v2)] ++ [])) with true.
  change (calls ([Called (time_sleep 10) (Returns v2)] ++ [])) with [time_sleep 10].
  rewrite andb_true_r.
  exists pre, media, (post ++ [time_sleep 10]). split; [| split; [| split]].
  - now rewrite <- app_assoc, <- app_comm_cons, <- app_assoc.
  - exact Hpre.
  - intros H. apply in_app_or in H as [H | [H | []]]; [contradiction | discriminate H].
  - destruct Hhd as [-> | (q & rest & ->)]; [now left | right].
    now exists q, (rest ++ [time_sleep 10]).
Qed.

(** X10.  In a pass in which no call raises, every input of the table
    that reads pressed has its action run exactly once, and every input
    that reads released has it not run at all; so buttons that are down
    together each fire in the same pass, one after the other.  The pass
    reads the input once; if it reads [LOW], the calls that carry out its
    action on the player and the debounce sleep follow the read, and if it
    does not, the read of the next input (or the end of the pass) follows;
    the log shows the completion line of the action once, or not at all. *)
Theorem scan_pass_fires_what_is_pressed
    (pin : Z) (entry : string) (s : frame) (h : Z) :
  In (pin, entry) BUTTON_PINS ->
  media_player s = Some h ->
  quiet (output (scan_pass s)) = true ->
  served h pin entry (pressed pin (output (scan_pass s))) (calls (output (scan_pass s)))
  /\ times_fired entry (output (scan_pass s))
     = (if pressed pin (output (scan_pass s)) then 1 else 0).
Proof.
  intros Hin Hs Q. split; [now apply scan_pass_serves |].
  unfold scan_pass in Q.
  destruct (table_entries_apart pin entry Hin) as (Hall & Hone).
  apply bind_quiet in Q as (Q1 & Q).
  destruct (scan_fires pin entry BUTTON_PINS Hall ltac:(lia) s h Hs Q1)
    as (w1 & t1 & E1 & Hf & _).
  specialize (Q _ _ _ E1). cbv beta in Q.
  next_call Q v2 w2 E2.
  assert (Hrun : scan_pass s
                 = (Ret tt, Frame w2 (Some h),
                    t1 ++ [Called (time_sleep 10) (Returns v2)] ++ [])).
  { unfold scan_pass. eapply bind_run; [exact E1 |].
    eapply bind_run; [exact E2 |]. reflexivity. }
  rewrite Hrun. cbn [output snd].
  rewrite times_fired_app, pressed_app, Hf, Hone. cbn.
  rewrite andb_true_r. destruct (pressed pin t1); reflexivity.
Qed.

(** *** A button that is held *)

(** The calls of a run of the loop, pass by pass, when the input reads
    pressed throughout. *)
Lemma loop_serves (pin : Z) (entry : string) :
  In (pin, entry) BUTTON_PINS ->
  forall (N : nat) (s : frame) (h : Z),
    media_player s = Some h ->
    quiet (output (while_true N scan_pass s)) = true ->
    pressed pin (output (while_true N scan_pass s)) = true ->
    exists passes,
      List.length passes = N
      /\ calls (output (while_true N scan_pass s)) = List.concat passes
      /\ Forall (served h pin entry true) passes.
Proof.
  intros Hin. induction N as [| N IH]; intros s h Hs Q Hp.
  - exists []. repeat split. apply Forall_nil.
  - cbn [while_true] in Q, Hp |- *.
    apply bind_quiet in Q as (Q1 & Q). apply bind_pressed in Hp as (Hp1 & Hp).
    pose proof (scan_pass_serves pin entry s h Hin Hs Q1) as Hserved.
    rewrite Hp1 in Hserved.
    destruct (scan_pass_counts pin entry s h Hin Hs Q1 Hp1) as (w1 & t1 & E1 & _).
    specialize (Q _ _ _ E1). specialize (Hp _ _ _ E1). cbv beta in Q, Hp.
    destruct (IH (Frame w1 (Some h)) h eq_refl Q Hp) as (passes & Hlen & Hcalls & Hall).
    rewrite E1 in Hserved. cbn [output snd] in Hserved.
    exists (calls t1 :: passes). split; [cbn; now rewrite Hlen |].
    split; [| now apply Forall_cons].
    rewrite bind_output, E1. cbn [output snd List.concat].
    now rewrite calls_app, Hcalls.
Qed.

(** C5.  The loop keeps no debounce or edge state: an input that reads
    pressed in each of [N] consecutive passes has its action run once in
    each of them.  In a run of [N] passes in which every read of the input
    returns [LOW] (and no call raises), the loop is still running after
    each pass, and the calls of the first [k] passes are, pass by pass,
    [k] times these: one read of the input, followed at once by the calls
    that carry out its action on the player (for a file: stop, load, set,
    play) and by the debounce sleep; the log shows the completion line of
    the action [k] times.  This holds for every [k] up to [N], whatever
    the other inputs read. *)
Theorem held_button_fires_every_pass
    (pin : Z) (entry : string) (N : nat) (s : frame) (h : Z) :
  In (pin, entry) BUTTON_PINS ->
  media_player s = Some h ->
  quiet (output (while_true N scan_pass s)) = true ->
  pressed pin (output (while_true N scan_pass s)) = true ->
  forall k, k <= N ->
    result (while_true k scan_pass s) = Running
    /\ (exists passes,
          List.length passes = k
          /\ calls (output (while_true k scan_pass s)) = List.concat passes
          /\ Forall (served h pin entry true) passes)
    /\ times_fired entry (output (while_true k scan_pass s)) = k.
Proof.
  intros Hin Hs Q Hp k Hk.
  apply (while_true_all _ _ k N s Hk) in Q.
  apply (while_true_all _ _ k N s Hk) in Hp.
  split; [| split].
  - destruct (loop_counts pin entry Hin k s h Hs Q Hp) as (w & tr & H & _).
    now rewrite H.
  - now apply loop_serves.
  - destruct (loop_counts pin entry Hin k s h Hs Q Hp) as (w & tr & H & Hcount).
    now rewrite H.
Qed.

(** *** What the loop calls *)

Lemma forallb_calls (q : op -> bool) (tr : list event) :
  forallb q (calls tr) = forallb (on_calls q) tr.
Proof.
  induction tr as [| [c r | lv msg] tr IH]; cbn; [reflexivity | |]; now rewrite <- IH.
Qed.

Lemma call_upholds (h : Z) (c : op) (s : frame) :
  loop_op h c = true ->
  media_player s = Some h ->
  forallb (on_calls (loop_op h)) (output (call c s)) = true
  /\ media_player (final (call c s)) = Some h.
Proof.
  intros Hc Hs. unfold call.
  destruct (ext c (env s)) as [[v | e] w]; cbn; rewrite Hc; auto.
Qed.

Lemma read_media_player_bind {B} (k : Z -> P B) (s : frame) (h : Z) :
  media_player s = Some h ->
  bind read_media_player k s = k h s.
Proof.
  intros Hs. unfold bind, read_media_player. rewrite Hs.
  now destruct (k h s) as [[o s2] t2].
Qed.

Ltac upholds h :=
  repeat first
    [ apply call_upholds;
      [ first [reflexivity | cbn; apply Z.eqb_refl | assumption] | assumption ]
    | apply (bind_upholds (on_calls (loop_op h)) (fun s => media_player s = Some h));
      [ | intros ? ? ? ]
    | split; [reflexivity | assumption] ].

Lemma play_video_upholds (h : Z) (fname : string) (s : frame) :
  existsb (String.eqb fname) video_files = true ->
  media_player s = Some h ->
  forallb (on_calls (loop_op h)) (output (play_video h fname s)) = true
  /\ media_player (final (play_video h fname s)) = Some h.
Proof.
  intros Hf Hs. unfold play_video.
  apply (try_except_upholds (on_calls (loop_op h)) (fun s => media_player s = Some h)).
  - upholds h.
  - intros e hd s1 Hsel Hs1. cbn in Hsel.
    destruct (is_Exception e); [| discriminate].
    injection Hsel as <-. split; [reflexivity | exact Hs1].
Qed.

Lemma dispatch_upholds (h : Z) (a : string) (s : frame) :
  In a (map snd BUTTON_PINS) ->
  media_player s = Some h ->
  forallb (on_calls (loop_op h)) (output (dispatch a s)) = true
  /\ media_player (final (dispatch a s)) = Some h.
Proof.
  intros Ha Hs. unfold dispatch.
  destruct (a =? "pause")%string eqn:Hpause;
    [| destruct (a =? "stop")%string eqn:Hstop];
    rewrite (read_media_player_bind _ s h Hs);
    [ upholds h | upholds h | ].
  apply play_video_upholds; [| exact Hs].
  unfold video_files. apply existsb_exists. exists a.
  split; [| apply String.eqb_refl].
  apply filter_In. split; [exact Ha |]. now rewrite Hpause, Hstop.
Qed.

Lemma scan_pass_upholds (h : Z) (s : frame) :
  media_player s = Some h ->
  forallb (on_calls (loop_op h)) (output (scan_pass s)) = true
  /\ media_player (final (scan_pass s)) = Some h.
Proof.
  intros Hs. unfold scan_pass.
  apply (bind_upholds (on_calls (loop_op h)) (fun s => media_player s = Some h));
    [ | intros; upholds h ].
  apply (for_each_upholds (on_calls (loop_op h)) (fun s => media_player s = Some h));
    [ | exact Hs ].
  intros [pin a] s1 Hin Hs1.
  assert (Hp : loop_op h (GPIO_input pin) = true).
  { cbn [loop_op]. apply existsb_exists. exists pin.
    split; [apply (in_map fst _ _ Hin) | apply Z.eqb_refl]. }
  pose proof (in_map snd _ _ Hin) as Ha. cbn [snd] in Ha. unfold on_button.
  apply (bind_upholds (on_calls (loop_op h)) (fun s => media_player s = Some h));
    [ now apply call_upholds | ].
  intros v s2 Hs2. destruct (v =? LOW)%Z; [| now split].
  apply (bind_upholds (on_calls (loop_op h)) (fun s => media_player s = Some h));
    [ now apply dispatch_upholds | intros; upholds h ].
Qed.

Lemma loop_upholds (h : Z) (N : nat) (s : frame) :
  media_player s = Some h ->
  forallb (on_calls (loop_op h)) (output (while_true N scan_pass s)) = true
  /\ media_player (final (while_true N scan_pass s)) = Some h.
Proof.
  apply (while_true_upholds (on_calls (loop_op h)) (fun s => media_player s = Some h)).
  intros s1. apply scan_pass_upholds.
Qed.

(** X11.  Whatever the inputs read and whatever the calls answer, the
    loop, once entered with a player, makes no call but these: it reads
    inputs of the table, sleeps 200 ms or 10 ms, loads one of the four
    files of the table (never "pause" or "stop"), and stops, pauses, loads
    and plays the one player it was entered with.  It never configures or
    releases the GPIO pins, makes no second player, and leaves
    [media_player] as it is. *)
Theorem loop_drives_only_its_player (h : Z) (N : nat) (s : frame) :
  media_player s = Some h ->
  forallb (loop_op h) (calls (output (while_true N scan_pass s))) = true
  /\ media_player (final (while_true N scan_pass s)) = Some h.
Proof.
  intros Hs. rewrite forallb_calls. now apply loop_upholds.
Qed.

(** *** The whole of [main] *)

Lemma scan_pass_returns (s : frame) (h : Z) :
  media_player s = Some h ->
  quiet (output (scan_pass s)) = true ->
  exists w tr, scan_pass s = (Ret tt, Frame w (Some h), tr).
Proof.
  intros Hs Q. unfold scan_pass in Q.
  apply bind_quiet in Q as (Q1 & Q).
  destruct (scan_reads BUTTON_PINS s h Hs Q1) as (w1 & t1 & E1 & _).
  specialize (Q _ _ _ E1). cbv beta in Q.
  next_call Q v2 w2 E2.
  exists w2. eexists. unfold scan_pass.
  eapply bind_run; [exact E1 |]. eapply bind_run; [exact E2 |]. reflexivity.
Qed.

Lemma loop_runs (N : nat) :
  forall (s : frame) (h : Z),
    media_player s = Some h ->
    quiet (output (while_true N scan_pass s)) = true ->
    exists w tr, while_true N scan_pass s = (Running, Frame w (Some h), tr).
Proof.
  induction N as [| N IH]; intros s h Hs Q.
  - exists (env s), []. cbn. now rewrite (frame_eta s h Hs) at 1.
  - cbn [while_true] in Q. apply bind_quiet in Q as (Q1 & Q).
    destruct (scan_pass_returns s h Hs Q1) as (w1 & t1 & E1).
    specialize (Q _ _ _ E1). cbv beta in Q.
    destruct (IH (Frame w1 (Some h)) h eq_refl Q) as (w2 & t2 & E2).
    exists w2, (t1 ++ t2). cbn [while_true].
    eapply bind_run; [exact E1 | exact E2].
Qed.

Lemma guarded_runs (N : nat) (s : frame) :
  quiet (output (guarded N s)) = true ->
  exists h w t0 s0,
    guarded N s = (Running, Frame w (Some h), t0 ++ output (while_true N scan_pass s0))
    /\ media_player s0 = Some h
    /\ calls t0 = setup_calls ++ [vlc_MediaPlayer; toggle_fullscreen h]
    /\ logged t0 = [ (INFO, "GPIO initialized successfully");
                     (INFO, "Media player initialized successfully");
                     (INFO, "Starting main loop") ].
Proof.
  intros Q. unfold guarded in Q.
  apply bind_quiet in Q as (Q1 & Q).
  destruct (setup_gpio_run s Q1) as (w1 & t1 & E1 & Hc1 & Hl1).
  specialize (Q _ _ _ E1). cbv beta in Q.
  apply bind_quiet in Q as (Q2 & Q).
  destruct (setup_media_player_run _ Q2) as (h & v & w2 & E2).
  specialize (Q _ _ _ E2). cbv beta in Q.
  apply bind_quiet in Q as (_ & Q). specialize (Q tt _ _ eq_refl). cbv beta in Q.
  apply bind_quiet in Q as (_ & Q). specialize (Q tt _ _ eq_refl). cbv beta in Q.
  cbn [env media_player] in Q.
  destruct (loop_runs N (Frame w2 (Some h)) h eq_refl Q) as (w3 & t3 & E3).
  exists h, w3.
  exists (t1 ++ [ Called vlc_MediaPlayer (Returns h);
                  Called (toggle_fullscreen h) (Returns v);
                  Logged INFO "Media player initialized successfully";
                  Logged INFO "Starting main loop" ]).
  exists (Frame w2 (Some h)). split; [| split; [reflexivity |]].
  - unfold guarded. rewrite E3. cbn [output snd].
    etransitivity.
    { eapply bind_run; [exact E1 |]. eapply bind_run; [exact E2 |].
      eapply bind_run; [reflexivity |]. eapply bind_run; [reflexivity |].
      exact E3. }
    now rewrite <- !app_assoc.
  - rewrite calls_app, logged_app, Hc1, Hl1. split; reflexivity.
Qed.

(** X12.  As long as no call raises, [main] does not end: it configures
    the GPIO pins, makes the player and toggles it to fullscreen, logs the
    three startup lines, and from then on is in the loop, where it makes
    only the calls of the loop on that player; in particular it never
    calls [GPIO.cleanup]. *)
Theorem main_runs_until_a_call_raises (N : nat) (s : frame) :
  quiet (output (main N s)) = true ->
  result (main N s) = Running
  /\ exists h rest lines,
       calls (output (main N s))
       = setup_calls ++ [vlc_MediaPlayer; toggle_fullscreen h] ++ rest
       /\ forallb (loop_op h) rest = true
       /\ logged (output (main N s))
          = [ (INFO, "GPIO initialized successfully");
              (INFO, "Media player initialized successfully");
              (INFO, "Starting main loop") ] ++ lines.
Proof.
  intros Q. unfold main in Q.
  apply try_finally_all, try_except_all in Q.
  destruct (guarded_runs N s Q) as (h & w & t0 & s0 & Hrun & Hs0 & Hc & Hl).
  unfold main, try_finally, try_except. rewrite Hrun. cbn [result output fst snd].
  split; [reflexivity |].
  exists h, (calls (output (while_true N scan_pass s0))),
         (logged (output (while_true N scan_pass s0))).
  rewrite calls_app, logged_app, Hc, Hl, <- app_assoc.
  repeat split. rewrite forallb_calls. now apply loop_upholds.
Qed.

Lemma setup_media_player_raises (s : frame) (e : exn) :
  result (setup_media_player s) = Raise e ->
  exists w tr,
    setup_media_player s = (Raise e, Frame w (media_player s), tr)
    /\ logged tr
       = (if is_Exception e
          then [(ERROR, "Media player setup error: " +++ str e)] else [])
    /\ ~ In GPIO_cleanup (calls tr)
    /\ (forall h, ~ In (player_stop h) (calls tr))
    /\ (forall pin, ~ In (GPIO_input pin) (calls tr)).
Proof.
  unfold setup_media_player, try_except, bind, call, result.
  destruct (ext vlc_MediaPlayer (env s)) as [[player | [| m1]] w1]; cbn.
  2,3: intros [= <-]; do 2 eexists; (split; [reflexivity |]); cbn;
       repeat split; intros; intuition discriminate.
  destruct (ext (toggle_fullscreen player) w1) as [[v | [| m2]] w2]; cbn;
    intros H; try discriminate H; injection H as <-;
    do 2 eexists; (split; [reflexivity |]); cbn;
    repeat split; intros; intuition discriminate.
Qed.

Lemma main_unbound (N : nat) (s s1 : frame) (e : exn) (t1 : list event) :
  guarded N s = (Raise e, s1, t1) ->
  media_player s1 = None ->
  main N s
  = (Raise (UnboundLocalError "media_player"), s1,
     t1 ++ [ if is_KeyboardInterrupt e
             then Logged INFO "Shutting down"
             else Logged ERROR ("Unexpected error: " +++ str e) ]).
Proof.
  intros Hrun Hs. unfold main, try_finally, try_except. rewrite Hrun.
  destruct e as [| m]; cbn [select is_KeyboardInterrupt is_Exception];
    unfold logger_info, logger_error, emit; cbv beta iota zeta;
    rewrite (cleanup_unbound s1 Hs); now rewrite app_nil_r.
Qed.

(** X13.  When the GPIO pins are configured and [setup_media_player] then
    raises, [main] logs the exception ("Shutting down" for an interrupt,
    "Unexpected error: ..." after the "Media player setup error: ..." of
    [setup_media_player] otherwise), and its [finally] block then reads
    [media_player], which line 58 has not assigned: [main] ends in that
    error, the configured pins are not released, no input is read, and
    "Cleanup complete" is not logged. *)
Theorem main_skips_cleanup_when_player_setup_fails
    (N : nat) (s : frame) (e : exn) :
  media_player s = None ->
  quiet (output (setup_gpio s)) = true ->
  result (setup_media_player (final (setup_gpio s))) = Raise e ->
  result (main N s) = Raise (UnboundLocalError "media_player")
  /\ ~ In GPIO_cleanup (calls (output (main N s)))
  /\ (forall pin, ~ In (GPIO_input pin) (calls (output (main N s))))
  /\ logged (output (main N s))
     = (INFO, "GPIO initialized successfully")
         :: (if is_Exception e
             then [ (ERROR, "Media player setup error: " +++ str e);
                    (ERROR, "Unexpected error: " +++ str e) ]
             else [ (INFO, "Shutting down") ]).
Proof.
  intros Hs Q Hraise.
  destruct (setup_gpio_run s Q) as (w1 & t1 & E1 & Hc1 & Hl1).
  rewrite E1 in Hraise. cbn [final fst snd] in Hraise.
  destruct (setup_media_player_raises _ e Hraise)
    as (w2 & t2 & E2 & Hl2 & Hno_cleanup & _ & Hno_input).
  cbn [media_player] in E2.
  assert (Hg : guarded N s = (Raise e, Frame w2 (media_player s), t1 ++ t2)).
  { unfold guarded. eapply bind_run; [exact E1 |]. now apply bind_raise. }
  rewrite (main_unbound N s _ e _ Hg) by (cbn; exact Hs).
  cbn [result output fst snd].
  rewrite !calls_app, !logged_app, Hc1, Hl1, Hl2.
  split; [reflexivity |].
  assert (Hlast : calls [ if is_KeyboardInterrupt e
                          then Logged INFO "Shutting down"
                          else Logged ERROR ("Unexpected error: " +++ str e) ] = []).
  { now destruct e. }
  rewrite Hlast, app_nil_r.
  split; [| split].
  - intros Hin. apply in_app_or in Hin as [Hin | Hin]; [| now apply Hno_cleanup].
    vm_compute in Hin. intuition discriminate.
  - intros pin Hin. apply in_app_or in Hin as [Hin | Hin]; [| now apply (Hno_input pin)].
    vm_compute in Hin. intuition discriminate.
  - now destruct e.
Qed.

Lemma cleanup_runs (s : frame) (h : Z) :
  media_player s = Some h ->
  quiet (output (cleanup s)) = true ->
  exists w v1 v2,
    cleanup s
    = (Ret tt, Frame w (Some h),
       [ Called (player_stop h) (Returns v1);
         Called GPIO_cleanup (Returns v2);
         Logged INFO "Cleanup complete" ]).
Proof.
  intros Hs Q. pose proof (read_media_player_run s h Hs) as Hr.
  unfold cleanup in Q.
  apply bind_quiet in Q as (_ & Q). specialize (Q _ _ _ Hr). cbv beta in Q.
  next_call Q v1 w1 E1. next_call Q v2 w2 E2.
  exists w2, v1, v2. unfold cleanup. rewrite <- Hs at 1.
  etransitivity.
  { eapply bind_run; [exact Hr |]. eapply bind_run; [exact E1 |].
    eapply bind_run; [exact E2 |]. reflexivity. }
  reflexivity.
Qed.

(** X14.  When the guarded part of [main] raises after line 58 has
    assigned the player (an interrupt, or an error of a pause or stop in
    the loop), [main] logs "Shutting down" for an interrupt and
    "Unexpected error: ..." for an [Exception]; then, if neither call of
    the [finally] block raises, it stops the player, releases the pins,
    logs "Cleanup complete" and returns. *)
Theorem main_shuts_down_after_the_loop_raises
    (N : nat) (s : frame) (e : exn) (h : Z) :
  result (guarded N s) = Raise e ->
  media_player (final (guarded N s)) = Some h ->
  quiet (output (cleanup (final (guarded N s)))) = true ->
  result (main N s) = Ret tt
  /\ calls (output (main N s))
     = calls (output (guarded N s)) ++ [player_stop h; GPIO_cleanup]
  /\ logged (output (main N s))
     = logged (output (guarded N s))
         ++ [ if is_KeyboardInterrupt e
              then (INFO, "Shutting down")
              else (ERROR, "Unexpected error: " +++ str e);
              (INFO, "Cleanup complete") ].
Proof.
  destruct (guarded N s) as [[o s1] t1] eqn:Hrun. cbn [result final output fst snd].
  intros -> Hs Q.
  destruct (cleanup_runs s1 h Hs Q) as (w & v1 & v2 & Hfin).
  unfold main, try_finally, try_except. rewrite Hrun.
  destruct e as [| m]; cbn [select is_KeyboardInterrupt is_Exception];
    unfold logger_info, logger_error, emit; cbv beta iota zeta;
    rewrite Hfin; cbn [result output fst snd];
    rewrite !calls_app, !logged_app; cbn; rewrite ?app_nil_r, <- ?app_assoc;
    repeat split.
Qed.

Lemma setup_media_player_footprint (s : frame) :
  ~ In GPIO_cleanup (calls (output (setup_media_player s))).
Proof.
  unfold setup_media_player, try_except, bind, call, output.
  destruct (ext vlc_MediaPlayer (env s)) as [[player | [| m1]] w1]; cbn;
    [ | intuition discriminate .. ].
  destruct (ext (toggle_fullscreen player) w1) as [[v | [| m2]] w2]; cbn;
    intuition discriminate.
Qed.

Lemma guarded_never_cleans_up (N : nat) (s : frame) :
  ~ In GPIO_cleanup (calls (output (guarded N s))).
Proof.
  unfold guarded. rewrite bind_output, calls_app. intros Hin.
  apply in_app_or in Hin as [Hin | Hin].
  { destruct (setup_gpio_footprint s) as (_ & Hfoot).
    rewrite Forall_forall in Hfoot. exact (Hfoot _ Hin). }
  destruct (setup_gpio s) as [[[[] | e |] s1] t1]; [ | contradiction ..].
  rewrite bind_output, calls_app in Hin.
  apply in_app_or in Hin as [Hin | Hin].
  { exact (setup_media_player_footprint s1 Hin). }
  destruct (setup_media_player s1) as [[[h | e |] s2] t2]; [ | contradiction ..].
  rewrite bind_output in Hin. cbn [assign_media_player output snd app] in Hin.
  rewrite bind_output in Hin. cbn [logger_info emit output snd] in Hin.
  rewrite calls_app in Hin. apply in_app_or in Hin as [Hin | Hin]; [easy |].
  destruct (loop_upholds h N (Frame (env s2) (Some h)) eq_refl) as (Hloop & _).
  rewrite <- forallb_calls, forallb_forall in Hloop.
  apply Hloop in Hin. discriminate Hin.
Qed.

Lemma main_calls (N : nat) (s : frame) :
  calls (output (main N s))
  = calls (output (guarded N s))
      ++ match result (guarded N s) with
         | Running => []
         | _ => calls (output (cleanup (final (guarded N s))))
         end.
Proof.
  unfold main. rewrite try_finally_output, calls_app. unfold try_except.
  destruct (guarded N s) as [[[[] | e |] s1] t1]; cbn [result final output fst snd];
    try reflexivity.
  destruct e as [| m]; cbn [select is_KeyboardInterrupt is_Exception];
    unfold logger_info, logger_error, emit; cbv beta iota zeta;
    cbn [output snd]; rewrite calls_app; cbn [calls flat_map app];
    now rewrite app_nil_r.
Qed.

Lemma cleanup_calls (s : frame) :
  In GPIO_cleanup (calls (output (cleanup s))) ->
  exists h, calls (output (cleanup s)) = [player_stop h; GPIO_cleanup].
Proof.
  unfold cleanup, read_media_player, bind, call, logger_info, emit, output.
  destruct (media_player s) as [h |]; cbn; [| contradiction].
  destruct (ext (player_stop h) (env s)) as [[v1 | e1] w1]; cbn;
    [| intuition discriminate].
  destruct (ext GPIO_cleanup w1) as [[v2 | e2] w2]; cbn; intros _; now exists h.
Qed.

(** X15.  On no path does [main] release the GPIO pins more than once or
    before it is done: if [GPIO.cleanup] is called at all, it is the last
    call [main] makes, and the call before it is the [stop] of the
    [finally] block. *)
Theorem main_releases_the_pins_last (N : nat) (s : frame) :
  In GPIO_cleanup (calls (output (main N s))) ->
  exists pre h,
    calls (output (main N s)) = pre ++ [player_stop h; GPIO_cleanup]
    /\ ~ In GPIO_cleanup pre.
Proof.
  rewrite main_calls. intros Hin.
  apply in_app_or in Hin as [Hin | Hin].
  { now apply guarded_never_cleans_up in Hin. }
  exists (calls (output (guarded N s))).
  destruct (result (guarded N s)); [ | | contradiction ];
    destruct (cleanup_calls _ Hin) as (h & ->); exists h;
    (split; [reflexivity | apply guarded_never_cleans_up]).
Qed.
End Facts.

(** *** The statements at work *)

Lemma play_video_stops_loads_plays_witness :
  exists v1 media v3 v4,
    output (@play_video held_13 1 "/home/pi/Videos/1.mp4" (@Frame held_13 tt None))
    = [ Called (player_stop 1) (Returns v1);
        Called (vlc_Media "/home/pi/Videos/1.mp4") (Returns media);
        Called (set_media 1 media) (Returns v3);
        Called (player_play 1) (Returns v4);
        Logged INFO ("Playing video: " +++ "/home/pi/Videos/1.mp4") ]
    /\ result (@play_video held_13 1 "/home/pi/Videos/1.mp4" (@Frame held_13 tt None))
       = Ret tt.
Proof.
  apply (@play_video_stops_loads_plays held_13). reflexivity.
Defined.


(** An entry that differs from "pause" by its case only is taken for a
    file name. *)
Lemma other_entries_are_played_witness :
  exists media,
    calls (output (@on_button held_13 (13%Z, "Pause") (@Frame held_13 tt (Some 1%Z))))
    = [ GPIO_input 13;
        player_stop 1; vlc_Media "Pause"; set_media 1 media; player_play 1;
        time_sleep 200 ]
    /\ logged (output (@on_button held_13 (13%Z, "Pause") (@Frame held_13 tt (Some 1%Z))))
       = [(INFO, "Playing video: " +++ "Pause")]
    /\ result (@on_button held_13 (13%Z, "Pause") (@Frame held_13 tt (Some 1%Z)))
       = Ret tt.
Proof.
  apply (@other_entries_are_played held_13).
  - discriminate.
  - discriminate.
  - reflexivity.
  - reflexivity.
  - reflexivity.
Defined.

Lemma held_button_fires_every_pass_witness :
  result (@while_true _ _ 3 (@scan_pass held_13) (@Frame held_13 tt (Some 1%Z)))
  = Running
  /\ (exists passes,
        List.length passes = 3
        /\ calls (output (@while_true _ _ 3 (@scan_pass held_13)
                            (@Frame held_13 tt (Some 1%Z))))
           = List.concat passes
        /\ Forall (served 1 13 "/home/pi/Videos/1.mp4" true) passes)
  /\ times_fired "/home/pi/Videos/1.mp4"
       (output (@while_true _ _ 3 (@scan_pass held_13) (@Frame held_13 tt (Some 1%Z))))
     = 3.
Proof.
  apply (@held_button_fires_every_pass held_13 13 "/home/pi/Videos/1.mp4" 3 _ 1%Z).
  - cbn. tauto.
  - reflexivity.
  - reflexivity.
  - reflexivity.
  - apply le_n.
Defined.

(** The scenario of the specification, on the whole program: button 1 held
    across three passes has its video loaded and played three times. *)
Example held_button_three_passes :
  times_fired "/home/pi/Videos/1.mp4" (output (@main held_13 3 (@start held_13 tt))) = 3
  /\ count_occ op_eq_dec (calls (output (@main held_13 3 (@start held_13 tt))))
       (vlc_Media "/home/pi/Videos/1.mp4") = 3
  /\ count_occ op_eq_dec (calls (output (@main held_13 3 (@start held_13 tt))))
       (player_play 1) = 3.
Proof.
  repeat split; vm_compute; reflexivity.
Qed.

(** One pass with button 1 held, call by call. *)
Example scan_pass_with_button_1_held :
  calls (output (@scan_pass held_13 (@Frame held_13 tt (Some 1%Z))))
  = [ GPIO_input 13;
      player_stop 1; vlc_Media "/home/pi/Videos/1.mp4"; set_media 1 2; player_play 1;
      time_sleep 200;
      GPIO_input 19; GPIO_input 26; GPIO_input 21; GPIO_input 20; GPIO_input 16;
      time_sleep 10 ].
Proof.
  reflexivity.
Qed.

Lemma main_skips_cleanup_when_gpio_setup_fails_witness :
  result (@main gpio_broken 1 (@start gpio_broken tt))
  = Raise (UnboundLocalError "media_player")
  /\ ~ In GPIO_cleanup (calls (output (@main gpio_broken 1 (@start gpio_broken tt))))
  /\ (forall h, ~ In (player_stop h)
                   (calls (output (@main gpio_broken 1 (@start gpio_broken tt)))))
  /\ (forall pin, ~ In (GPIO_input pin)
                     (calls (output (@main gpio_broken 1 (@start gpio_broken tt))))).
Proof.
  apply (@main_skips_cleanup_when_gpio_setup_fails gpio_broken tt
           (Exception "No access to /dev/mem") 1).
  reflexivity.
Defined.

(** The run of [main] when [GPIO.setup] fails on the first pin, event by
    event: two error lines, no cleanup. *)
Example main_when_gpio_is_broken :
  @main gpio_broken 1 (@start gpio_broken tt)
  = (Raise (UnboundLocalError "media_player"), @Frame gpio_broken tt None,
     [ Called (GPIO_setwarnings false) (Returns 0);
       Called GPIO_setmode_BCM (Returns 0);
       Called (GPIO_setup_IN_PUD_UP 13) (Raises (Exception "No access to /dev/mem"));
       Logged ERROR "GPIO setup error: No access to /dev/mem";
       Logged ERROR "Unexpected error: No access to /dev/mem" ]).
Proof.
  reflexivity.
Qed.

(** The same slip when the player cannot be made: the inputs are
    configured by then, and are not released. *)
Example main_when_vlc_is_broken :
  result (@main vlc_broken 1 (@start vlc_broken tt))
  = Raise (UnboundLocalError "media_player")
  /\ calls (output (@main vlc_broken 1 (@start vlc_broken tt)))
     = [ GPIO_setwarnings false; GPIO_setmode_BCM;
         GPIO_setup_IN_PUD_UP 13; GPIO_setup_IN_PUD_UP 19; GPIO_setup_IN_PUD_UP 26;
         GPIO_setup_IN_PUD_UP 21; GPIO_setup_IN_PUD_UP 20; GPIO_setup_IN_PUD_UP 16;
         vlc_MediaPlayer ].
Proof.
  split; reflexivity.
Qed.

(** The exit path that works: both setups succeed and the loop is
    interrupted; the player is stopped and the inputs are released. *)
Example main_when_interrupted :
  result (@main interrupted 5 (@start interrupted tt)) = Ret tt
  /\ calls (output (@main interrupted 5 (@start interrupted tt)))
     = [ GPIO_setwarnings false; GPIO_setmode_BCM;
         GPIO_setup_IN_PUD_UP 13; GPIO_setup_IN_PUD_UP 19; GPIO_setup_IN_PUD_UP 26;
         GPIO_setup_IN_PUD_UP 21; GPIO_setup_IN_PUD_UP 20; GPIO_setup_IN_PUD_UP 16;
         vlc_MediaPlayer; toggle_fullscreen 1;
         GPIO_input 13; GPIO_input 19; GPIO_input 26;
         GPIO_input 21; GPIO_input 20; GPIO_input 16;
         time_sleep 10;
         player_stop 1; GPIO_cleanup ]
  /\ logged (output (@main interrupted 5 (@start interrupted tt)))
     = [ (INFO, "GPIO initialized successfully");
         (INFO, "Media player initialized successfully");
         (INFO, "Starting main loop");
         (INFO, "Shutting down");
         (INFO, "Cleanup complete") ].
Proof.
  repeat split; reflexivity.
Qed.


(** *** Startup, single passes and shutdown at work *)

Lemma setup_gpio_configures_the_inputs_witness :
  result (@setup_gpio held_13 (@Frame held_13 tt None)) = Ret tt
  /\ calls (output (@setup_gpio held_13 (@Frame held_13 tt None)))
     = [ GPIO_setwarnings false; GPIO_setmode_BCM;
         GPIO_setup_IN_PUD_UP 13; GPIO_setup_IN_PUD_UP 19; GPIO_setup_IN_PUD_UP 26;
         GPIO_setup_IN_PUD_UP 21; GPIO_setup_IN_PUD_UP 20; GPIO_setup_IN_PUD_UP 16 ]
  /\ logged (output (@setup_gpio held_13 (@Frame held_13 tt None)))
     = [(INFO, "GPIO initialized successfully")]
  /\ media_player (final (@setup_gpio held_13 (@Frame held_13 tt None))) = None.
Proof.
  apply (@setup_gpio_configures_the_inputs held_13 (@Frame held_13 tt None)).
  reflexivity.
Defined.

(** The first [GPIO.setup] raises: pin 13 is the last thing touched. *)
Lemma setup_gpio_reraises_witness :
  (exists n, n < List.length setup_calls
             /\ calls (output (@setup_gpio gpio_broken (@Frame gpio_broken tt None)))
                = firstn (S n) setup_calls)
  /\ (exists c,
        In (Called c (Raises (Exception "No access to /dev/mem")))
           (output (@setup_gpio gpio_broken (@Frame gpio_broken tt None)))
        /\ last (calls (output (@setup_gpio gpio_broken (@Frame gpio_broken tt None)))) c
           = c)
  /\ logged (output (@setup_gpio gpio_broken (@Frame gpio_broken tt None)))
     = (if is_Exception (Exception "No access to /dev/mem")
        then [(ERROR, "GPIO setup error: " +++ str (Exception "No access to /dev/mem"))]
        else []).
Proof.
  apply (@setup_gpio_reraises gpio_broken (@Frame gpio_broken tt None)
           (Exception "No access to /dev/mem")).
  reflexivity.
Defined.

Lemma setup_media_player_returns_the_player_witness :
  exists player v,
    result (@setup_media_player held_13 (@Frame held_13 tt None)) = Ret player
    /\ output (@setup_media_player held_13 (@Frame held_13 tt None))
       = [ Called vlc_MediaPlayer (Returns player);
           Called (toggle_fullscreen player) (Returns v);
           Logged INFO "Media player initialized successfully" ]
    /\ media_player (final (@setup_media_player held_13 (@Frame held_13 tt None)))
       = None.
Proof.
  apply (@setup_media_player_returns_the_player held_13 (@Frame held_13 tt None)).
  reflexivity.
Defined.

Lemma setup_media_player_reraises_witness :
  logged (output (@setup_media_player vlc_broken (@Frame vlc_broken tt None)))
  = (if is_Exception (Exception "no libvlc")
     then [(ERROR, "Media player setup error: " +++ str (Exception "no libvlc"))]
     else [])
  /\ ((calls (output (@setup_media_player vlc_broken (@Frame vlc_broken tt None)))
       = [vlc_MediaPlayer]
       /\ In (Called vlc_MediaPlayer (Raises (Exception "no libvlc")))
             (output (@setup_media_player vlc_broken (@Frame vlc_broken tt None))))
      \/ exists player,
           calls (output (@setup_media_player vlc_broken (@Frame vlc_broken tt None)))
           = [vlc_MediaPlayer; toggle_fullscreen player]
           /\ In (Called (toggle_fullscreen player) (Raises (Exception "no libvlc")))
                 (output (@setup_media_player vlc_broken (@Frame vlc_broken tt None)))).
Proof.
  apply (@setup_media_player_reraises vlc_broken (@Frame vlc_broken tt None)
           (Exception "no libvlc")).
  reflexivity.
Defined.

(** The file of button 1 cannot be opened: the player is stopped, nothing
    is set or played, and the loop goes on. *)
Lemma play_video_swallows_errors_witness :
  result (@play_video missing_file 1 "/home/pi/Videos/1.mp4"
            (@Frame missing_file tt (Some 1%Z)))
  = Ret tt
  /\ logged (output (@play_video missing_file 1 "/home/pi/Videos/1.mp4"
                       (@Frame missing_file tt (Some 1%Z))))
     = [(ERROR, "Playback error for " +++ "/home/pi/Videos/1.mp4" +++ ": "
                  +++ "cannot open file")]
  /\ last (calls (output (@play_video missing_file 1 "/home/pi/Videos/1.mp4"
                            (@Frame missing_file tt (Some 1%Z)))))
          (vlc_Media "/home/pi/Videos/1.mp4")
     = vlc_Media "/home/pi/Videos/1.mp4".
Proof.
  apply (@play_video_swallows_errors missing_file 1 "/home/pi/Videos/1.mp4"
           (@Frame missing_file tt (Some 1%Z)) (vlc_Media "/home/pi/Videos/1.mp4")
           "cannot open file").
  right. left. reflexivity.
Defined.

(** The same pass before any player is bound. *)
Lemma idle_pass_only_reads_and_sleeps_witness :
  result (@scan_pass all_released (@Frame all_released tt None)) = Ret tt
  /\ calls (output (@scan_pass all_released (@Frame all_released tt None)))
     = [ GPIO_input 13; GPIO_input 19; GPIO_input 26;
         GPIO_input 21; GPIO_input 20; GPIO_input 16; time_sleep 10 ]
  /\ logged (output (@scan_pass all_released (@Frame all_released tt None))) = []
  /\ media_player (final (@scan_pass all_released (@Frame all_released tt None)))
     = None.
Proof.
  apply (@idle_pass_only_reads_and_sleeps all_released (@Frame all_released tt None)).
  reflexivity.
Defined.

Lemma pause_and_stop_errors_leave_the_loop_witness :
  @on_button pause_broken (20%Z, "pause") (@Frame pause_broken tt (Some 1%Z))
  = (Raise (Exception "player is gone"), @Frame pause_broken tt (Some 1%Z),
     [ Called (GPIO_input 20) (Returns LOW);
       Called (player_pause 1) (Raises (Exception "player is gone")) ]).
Proof.
  apply (@pause_and_stop_errors_leave_the_loop pause_broken 20 "pause" (player_pause 1)
           (@Frame pause_broken tt (Some 1%Z)) 1 (Exception "player is gone") tt tt).
  - reflexivity.
  - left. reflexivity.
  - reflexivity.
  - reflexivity.
Defined.

(** Buttons 1 and 5 are down together: all six inputs are read, and the
    pass sleeps 10 ms plus 200 ms for each of the two actions. *)
Lemma scan_pass_reads_every_input_once_witness :
  result (@scan_pass held_13_and_20 (@Frame held_13_and_20 tt (Some 1%Z))) = Ret tt
  /\ reads (output (@scan_pass held_13_and_20 (@Frame held_13_and_20 tt (Some 1%Z))))
     = [13; 19; 26; 21; 20; 16]%Z
  /\ slept (output (@scan_pass held_13_and_20 (@Frame held_13_and_20 tt (Some 1%Z))))
     = (10 + 200 * Z.of_nat
                     (List.length
                        (logged (output (@scan_pass held_13_and_20
                                           (@Frame held_13_and_20 tt (Some 1%Z)))))))%Z.
Proof.
  apply (@scan_pass_reads_every_input_once held_13_and_20
           (@Frame held_13_and_20 tt (Some 1%Z)) 1).
  - reflexivity.
  - reflexivity.
Defined.

Lemma scan_pass_fires_what_is_pressed_witness :
  served 1 20 "pause"
    (pressed 20 (output (@scan_pass held_13_and_20 (@Frame held_13_and_20 tt (Some 1%Z)))))
    (calls (output (@scan_pass held_13_and_20 (@Frame held_13_and_20 tt (Some 1%Z)))))
  /\ times_fired "pause"
       (output (@scan_pass held_13_and_20 (@Frame held_13_and_20 tt (Some 1%Z))))
     = (if pressed 20 (output (@scan_pass held_13_and_20
                                 (@Frame held_13_and_20 tt (Some 1%Z))))
        then 1 else 0).
Proof.
  apply (@scan_pass_fires_what_is_pressed held_13_and_20 20 "pause"
           (@Frame held_13_and_20 tt (Some 1%Z)) 1).
  - cbn. tauto.
  - reflexivity.
  - reflexivity.
Defined.

(** In that pass both actions run, one after the other, and the four
    released inputs run nothing. *)
Example two_buttons_in_one_pass :
  logged (output (@scan_pass held_13_and_20 (@Frame held_13_and_20 tt (Some 1%Z))))
  = [ (INFO, "Playing video: /home/pi/Videos/1.mp4"); (INFO, "Video paused") ].
Proof.
  reflexivity.
Qed.

Lemma loop_drives_only_its_player_witness :
  forallb (loop_op 1)
    (calls (output (@while_true _ _ 2 (@scan_pass held_13)
                      (@Frame held_13 tt (Some 1%Z)))))
  = true
  /\ media_player (final (@while_true _ _ 2 (@scan_pass held_13)
                            (@Frame held_13 tt (Some 1%Z))))
     = Some 1%Z.
Proof.
  apply (@loop_drives_only_its_player held_13 1 2 (@Frame held_13 tt (Some 1%Z))).
  reflexivity.
Defined.

(** "pause" and "stop" are entries of the table and no files of it. *)
Example pause_and_stop_are_no_files :
  video_files
  = [ "/home/pi/Videos/1.mp4"; "/home/pi/Videos/2.mp4";
      "/home/pi/Videos/3.mp4"; "/home/pi/Videos/4.mp4" ]
  /\ loop_op 1 (vlc_Media "pause") = false
  /\ loop_op 1 (vlc_Media "stop") = false.
Proof.
  repeat split; reflexivity.
Qed.

Lemma main_runs_until_a_call_raises_witness :
  result (@main held_13 2 (@start held_13 tt)) = Running
  /\ exists h rest lines,
       calls (output (@main held_13 2 (@start held_13 tt)))
       = setup_calls ++ [vlc_MediaPlayer; toggle_fullscreen h] ++ rest
       /\ forallb (loop_op h) rest = true
       /\ logged (output (@main held_13 2 (@start held_13 tt)))
          = [ (INFO, "GPIO initialized successfully");
              (INFO, "Media player initialized successfully");
              (INFO, "Starting main loop") ] ++ lines.
Proof.
  apply (@main_runs_until_a_call_raises held_13 2 (@start held_13 tt)).
  reflexivity.
Defined.

(** libvlc is missing: the pins stay configured and are not released. *)
Lemma main_skips_cleanup_when_player_setup_fails_witness :
  result (@main vlc_broken 1 (@start vlc_broken tt))
  = Raise (UnboundLocalError "media_player")
  /\ ~ In GPIO_cleanup (calls (output (@main vlc_broken 1 (@start vlc_broken tt))))
  /\ (forall pin,
        ~ In (GPIO_input pin) (calls (output (@main vlc_broken 1 (@start vlc_broken tt)))))
  /\ logged (output (@main vlc_broken 1 (@start vlc_broken tt)))
     = (INFO, "GPIO initialized successfully")
         :: (if is_Exception (Exception "no libvlc")
             then [ (ERROR, "Media player setup error: " +++ str (Exception "no libvlc"));
                    (ERROR, "Unexpected error: " +++ str (Exception "no libvlc")) ]
             else [ (INFO, "Shutting down") ]).
Proof.
  apply (@main_skips_cleanup_when_player_setup_fails vlc_broken 1
           (@start vlc_broken tt) (Exception "no libvlc")).
  - reflexivity.
  - reflexivity.
  - reflexivity.
Defined.

(** Ctrl-C during the idle sleep of the first pass. *)
Lemma main_shuts_down_after_the_loop_raises_witness :
  result (@main interrupted 5 (@start interrupted tt)) = Ret tt
  /\ calls (output (@main interrupted 5 (@start interrupted tt)))
     = calls (output (@guarded interrupted 5 (@start interrupted tt)))
         ++ [player_stop 1; GPIO_cleanup]
  /\ logged (output (@main interrupted 5 (@start interrupted tt)))
     = logged (output (@guarded interrupted 5 (@start interrupted tt)))
         ++ [ if is_KeyboardInterrupt KeyboardInterrupt
              then (INFO, "Shutting down")
              else (ERROR, "Unexpected error: " +++ str KeyboardInterrupt);
              (INFO, "Cleanup complete") ].
Proof.
  apply (@main_shuts_down_after_the_loop_raises interrupted 5
           (@start interrupted tt) KeyboardInterrupt 1).
  - reflexivity.
  - reflexivity.
  - reflexivity.
Defined.

Lemma main_releases_the_pins_last_witness :
  exists pre h,
    calls (output (@main interrupted 5 (@start interrupted tt)))
    = pre ++ [player_stop h; GPIO_cleanup]
    /\ ~ In GPIO_cleanup pre.
Proof.
  apply (@main_releases_the_pins_last interrupted 5 (@start interrupted tt)).
  vm_compute. tauto.
Defined.
End MediaPlayerFacts.

(* ================================================================== *)
(** * Facts about the USB ingest watcher *)
(* ================================================================== *)

Module UsbCopyFacts.
Import UsbCopy.

#[local] Arguments copytree_onto : simpl never.

(** ** The filesystem *)

Lemma child_set_child_same (x : string) (c' : node) (es : list (string * node)) :
  child x es <> None -> child x (set_child x c' es) = Some c'.
Proof.
  induction es as [| [n c] es IH]; cbn; [easy |].
  destruct (n =? x)%string eqn:E; cbn; rewrite E; auto.
Qed.

Lemma child_set_child_other (x y : string) (c' : node) (es : list (string * node)) :
  x <> y -> child y (set_child x c' es) = child y es.
Proof.
  intros Hxy. induction es as [| [n c] es IH]; cbn; [easy |].
  destruct (n =? x)%string eqn:E; cbn.
  - apply String.eqb_eq in E as ->.
    apply String.eqb_neq in Hxy. now rewrite Hxy.
  - now rewrite IH.
Qed.

Lemma child_app (x : string) (es es' : list (string * node)) :
  child x (es ++ es') = match child x es with Some c => Some c | None => child x es' end.
Proof.
  induction es as [| [n c] es IH]; cbn; [easy |].
  now destruct (n =? x)%string.
Qed.

Lemma child_in (x : string) (es : list (string * node)) (c : node) :
  child x es = Some c -> In x (map fst es).
Proof.
  induction es as [| [n c0] es IH]; cbn; [easy |].
  destruct (n =? x)%string eqn:E; [apply String.eqb_eq in E; auto | auto].
Qed.

Lemma lookup_app (p r : path) (n : node) :
  lookup (p ++ r) n
  = match lookup p n with Some m => lookup r m | None => None end.
Proof.
  revert n. induction p as [| x p IH]; intros n; cbn; [easy |].
  destruct n as [| es |]; trivial. now destruct (child x es).
Qed.

(** What lies below a path that exists, exists only if the path does. *)
Lemma lookup_inside (q p : path) (fs n : node) :
  inside q p -> lookup q fs = Some n -> lookup p fs <> None.
Proof.
  intros (r & ->). rewrite lookup_app. now destruct (lookup p fs).
Qed.

Lemma inside_cons (x y : string) (q p : path) :
  inside (x :: q) (y :: p) <-> x = y /\ inside q p.
Proof.
  split.
  - intros (r & H). injection H as -> ->. split; [easy | now exists r].
  - intros (-> & r & ->). now exists r.
Qed.

Lemma inside_nil (q : path) : inside q [].
Proof.
  now exists q.
Qed.

(** A path that a one-step extension of [p] lies inside is that
    extension, or has [p] inside it. *)
Lemma inside_snoc (p q : path) (x : string) :
  inside (p ++ [x]) q -> q = p ++ [x] \/ inside p q.
Proof.
  intros (r & H). induction r as [| y r' _] using rev_ind.
  - left. now rewrite app_nil_r in H.
  - right. rewrite app_assoc in H. apply app_inj_tail in H as (-> & _).
    now exists r'.
Qed.

Lemma lookup_mk_off (p q : path) (new : node) :
  ~ inside p q -> ~ inside q p -> lookup q (mk p new) = None.
Proof.
  revert q. induction p as [| x p IH]; intros q Hpq Hqp.
  - contradict Hqp. apply inside_nil.
  - destruct q as [| y q]; [contradict Hpq; apply inside_nil |].
    cbn. destruct (x =? y)%string eqn:E; trivial.
    apply String.eqb_eq in E as ->. apply IH.
    + contradict Hpq. now apply inside_cons.
    + contradict Hqp. now apply inside_cons.
Qed.

(** Writing at [p] leaves every path alone that is neither on the way
    to [p] nor below it. *)
Lemma write_frame (parents : bool) (p q : path) (new fs fs' : node) :
  write parents p new fs = Some fs' ->
  ~ inside p q -> ~ inside q p ->
  lookup q fs' = lookup q fs.
Proof.
  revert q fs fs'. induction p as [| x p IH]; intros q fs fs' Hw Hpq Hqp.
  - contradict Hqp. apply inside_nil.
  - destruct q as [| y q]; [contradict Hpq; apply inside_nil |].
    cbn in Hw. destruct fs as [| es |]; try discriminate.
    destruct (String.eqb_spec x y) as [<- | Hxy].
    + assert (Hpq' : ~ inside p q) by (contradict Hpq; now apply inside_cons).
      assert (Hqp' : ~ inside q p) by (contradict Hqp; now apply inside_cons).
      destruct (child x es) as [c |] eqn:Hc.
      * destruct (write parents p new c) as [c' |] eqn:Hwc; [| discriminate].
        injection Hw as <-. cbn. rewrite Hc, child_set_child_same by congruence.
        now apply IH.
      * assert (Hnew : fs' = Dir (es ++ [(x, mk p new)])).
        { destruct p; [now injection Hw as <- |].
          destruct parents; [now injection Hw as <- | discriminate]. }
        subst fs'. cbn. rewrite child_app, Hc. cbn. rewrite String.eqb_refl.
        now apply lookup_mk_off.
    + assert (Hes : exists es', fs' = Dir es' /\ child y es' = child y es).
      { destruct (child x es) as [c |] eqn:Hc.
        - destruct (write parents p new c) as [c' |]; [| discriminate].
          injection Hw as <-. eexists. split; [reflexivity |].
          now apply child_set_child_other.
        - assert (Hnew : fs' = Dir (es ++ [(x, mk p new)])).
          { destruct p; [now injection Hw as <- |].
            destruct parents; [now injection Hw as <- | discriminate]. }
          eexists. split; [exact Hnew |]. rewrite child_app.
          destruct (child y es); trivial. cbn.
          apply String.eqb_neq in Hxy. now rewrite Hxy. }
      destruct Hes as (es' & -> & Hes). cbn. now rewrite Hes.
Qed.

Lemma lookup_mk (p : path) (new : node) : lookup p (mk p new) = Some new.
Proof.
  induction p as [| x p IH]; cbn; [easy |]. now rewrite String.eqb_refl.
Qed.

(** What was written at [p] is what [p] names afterwards. *)
Lemma write_lookup (parents : bool) (p : path) (new fs fs' : node) :
  write parents p new fs = Some fs' -> lookup p fs' = Some new.
Proof.
  revert fs fs'. induction p as [| x p IH]; intros fs fs' Hw; cbn in Hw.
  - now injection Hw as <-.
  - destruct fs as [| es |]; try discriminate.
    destruct (child x es) as [c |] eqn:Hc.
    + destruct (write parents p new c) as [c' |] eqn:Hwc; [| discriminate].
      injection Hw as <-. cbn. rewrite child_set_child_same by congruence.
      now apply IH with c.
    + assert (Hnew : fs' = Dir (es ++ [(x, mk p new)])).
      { destruct p; [now injection Hw as <- |].
        destruct parents; [now injection Hw as <- | discriminate]. }
      subst fs'. cbn. rewrite child_app, Hc. cbn. rewrite String.eqb_refl.
      apply lookup_mk.
Qed.

(** A new name can always be put into a directory that exists, and the
    directory is one afterwards. *)
Lemma write_new_child (parents : bool) (dir : path) (x : string) (new fs : node)
    (es : list (string * node)) :
  lookup dir fs = Some (Dir es) ->
  exists fs' es',
    write parents (dir ++ [x]) new fs = Some fs'
    /\ lookup dir fs' = Some (Dir es').
Proof.
  revert fs. induction dir as [| y dir IH]; intros fs Hd; cbn in Hd.
  - injection Hd as ->. cbn. destruct (child x es) eqn:Hc; eauto.
  - destruct fs as [| es0 |]; try discriminate.
    destruct (child y es0) as [c |] eqn:Hc; [| discriminate].
    destruct (IH c Hd) as (c' & es' & Hw & Hl).
    exists (Dir (set_child y c' es0)), es'. cbn. rewrite Hc, Hw.
    split; [reflexivity |]. now rewrite child_set_child_same by congruence.
Qed.

(** ** What one entry of the source does to the filesystem *)

Lemma keeps_refl (dst : path) (fs : node) : keeps dst fs fs.
Proof.
  now intros q n _ H.
Qed.

Lemma keeps_trans (dst : path) (fs1 fs2 fs3 : node) :
  keeps dst fs1 fs2 -> keeps dst fs2 fs3 -> keeps dst fs1 fs3.
Proof.
  intros H12 H23 q n Hq H. eauto.
Qed.

(** Putting a new entry into [dst] keeps what was there. *)
Lemma write_new_keeps (parents : bool) (dst : path) (item : string) (new fs fs' : node) :
  lookup (dst ++ [item]) fs = None ->
  write parents (dst ++ [item]) new fs = Some fs' ->
  keeps dst fs fs'.
Proof.
  intros Hnone Hw q n Hq Hl. rewrite <- Hl.
  apply (write_frame _ _ _ _ _ _ Hw).
  - intros Hin. apply inside_snoc in Hin as [-> | Hin]; [congruence | contradiction].
  - intros Hin. apply (lookup_inside _ _ _ _ Hin Hl), Hnone.
Qed.

Section Facts.
Context {Flt : Faults}.

(** The loop body, by what the two paths name. *)
Lemma copy_item_unfold (src dst : path) (item : string) (fs : node) :
  copy_item src dst item fs
  = match lookup (dst ++ [item]) fs with
    | Some _ =>
        (Ret tt, fs,
         [Printed ("Skipping " +++ show (dst ++ [item]) +++ " - already exists")])
    | None =>
        match lookup (src ++ [item]) fs with
        | Some (File _) =>
            let '(o, fs', t) := shutil_copy2 (src ++ [item]) (dst ++ [item]) fs in
            (o, fs',
             Printed ("Copying file: " +++ show (src ++ [item])
                      +++ " to " +++ show (dst ++ [item])) :: t)
        | Some (Dir _) =>
            let '(o, fs', t) := shutil_copytree (src ++ [item]) (dst ++ [item]) fs in
            (o, fs',
             Printed ("Copying directory: " +++ show (src ++ [item])
                      +++ " to " +++ show (dst ++ [item])) :: t)
        | _ => (Ret tt, fs, [])
        end
    end.
Proof.
  unfold copy_item, bind, os_path_exists, os_path_isfile, os_path_isdir, print, emit.
  destruct (lookup (dst ++ [item]) fs) as [d |] eqn:Hd;
    destruct (lookup (src ++ [item]) fs) as [[data | es |] |] eqn:Hs;
    repeat progress (cbv beta iota zeta; rewrite ?Hd, ?Hs);
    try reflexivity.
  - destruct (shutil_copy2 _ _ fs) as [[[[] | e |] fs'] t]; reflexivity.
  - destruct (shutil_copytree _ _ fs) as [[[[] | e |] fs'] t]; reflexivity.
Qed.

(** A copy into a free name changes the filesystem, if at all, by one
    write of that name. *)
Lemma shutil_copy2_writes (src_path dst_path : path) (fs : node) :
  final (shutil_copy2 src_path dst_path fs) = fs
  \/ exists parents new,
       write parents dst_path new fs = Some (final (shutil_copy2 src_path dst_path fs)).
Proof.
  unfold shutil_copy2, leftover.
  destruct (copy_fault src_path dst_path) as [[[rest |] e] |]; cbn; auto.
  - destruct (write true dst_path rest fs) eqn:Hw; cbn; eauto.
  - destruct (lookup src_path fs) as [[data | es |] |]; cbn; auto.
    destruct (write false dst_path (File data) fs) eqn:Hw; cbn; eauto.
Qed.

Lemma shutil_copytree_writes (src_path dst_path : path) (fs : node) :
  final (shutil_copytree src_path dst_path fs) = fs
  \/ exists parents new,
       write parents dst_path new fs
       = Some (final (shutil_copytree src_path dst_path fs)).
Proof.
  unfold shutil_copytree, leftover.
  destruct (copy_fault src_path dst_path) as [[[rest |] e] |]; cbn; auto.
  - destruct (write true dst_path rest fs) eqn:Hw; cbn; eauto.
  - destruct (lookup src_path fs) as [[data | es |] |]; cbn; auto.
    destruct (match lookup dst_path fs with
              | Some d => copytree_onto (Dir es) d
              | None => Some (Dir es)
              end) as [new |]; cbn; auto.
    destruct (write true dst_path new fs) eqn:Hw; cbn; eauto.
Qed.

(** The loop body either finds the name taken and only says so, or finds
    it free and then changes the filesystem, if at all, by one write of
    that name. *)
Lemma copy_item_cases (src dst : path) (item : string) (fs : node) :
  (lookup (dst ++ [item]) fs <> None
   /\ copy_item src dst item fs
      = (Ret tt, fs,
         [Printed ("Skipping " +++ show (dst ++ [item]) +++ " - already exists")]))
  \/ (lookup (dst ++ [item]) fs = None
      /\ (final (copy_item src dst item fs) = fs
          \/ exists parents new,
               write parents (dst ++ [item]) new fs
               = Some (final (copy_item src dst item fs)))).
Proof.
  rewrite copy_item_unfold.
  destruct (lookup (dst ++ [item]) fs) as [d |] eqn:Hd; [left; split; easy | right].
  split; [reflexivity |].
  destruct (lookup (src ++ [item]) fs) as [[data | es |] |]; cbn; auto.
  - pose proof (shutil_copy2_writes (src ++ [item]) (dst ++ [item]) fs) as H.
    now destruct (shutil_copy2 _ _ fs) as [[o fs'] t].
  - pose proof (shutil_copytree_writes (src ++ [item]) (dst ++ [item]) fs) as H.
    now destruct (shutil_copytree _ _ fs) as [[o fs'] t].
Qed.

Lemma copy_item_keeps (src dst : path) (item : string) (fs : node) :
  keeps dst fs (final (copy_item src dst item fs)).
Proof.
  destruct (copy_item_cases src dst item fs)
    as [(_ & ->) | (Hnone & [-> | (parents & new & Hw)])].
  - apply keeps_refl.
  - apply keeps_refl.
  - now apply (write_new_keeps parents dst item new).
Qed.

(** The other names of [dst] are not touched by the loop body for [item]. *)
Lemma copy_item_frame (src dst : path) (item : string) (fs : node) (q : path) :
  ~ inside (dst ++ [item]) q -> ~ inside q (dst ++ [item]) ->
  lookup q (final (copy_item src dst item fs)) = lookup q fs.
Proof.
  intros H1 H2.
  destruct (copy_item_cases src dst item fs)
    as [(_ & ->) | (Hnone & [-> | (parents & new & Hw)])]; trivial.
  now apply (write_frame _ _ _ _ _ _ Hw).
Qed.

Lemma os_listdir_final (p : path) (fs : node) : final (os_listdir p fs) = fs.
Proof.
  unfold os_listdir.
  destruct (listdir_fault p); [easy |].
  now destruct (lookup p fs) as [[| |] |].
Qed.

Lemma copy_loop_keeps (src dst : path) (fs : node) :
  keeps dst fs (final (copy_loop src dst fs)).
Proof.
  unfold copy_loop.
  apply bind_maintains; [apply keeps_trans | |].
  - rewrite os_listdir_final. apply keeps_refl.
  - intros items fs1.
    apply for_each_maintains; [apply keeps_refl | apply keeps_trans |].
    intros item fs2. apply copy_item_keeps.
Qed.

(** [copy_files] keeps everything that is not [dst] or on the way to it,
    whatever fails and whenever. *)
Lemma copy_files_keeps (src dst : path) (fs : node) :
  keeps dst fs (final (copy_files src dst fs)).
Proof.
  unfold copy_files.
  apply try_except_maintains; [apply keeps_trans | apply copy_loop_keeps |].
  intros e h fs1. cbn. destruct (is_Exception e); [| discriminate].
  intros [= <-]. apply keeps_refl.
Qed.

Lemma below_is_not_on_the_way (dst r : path) : r <> [] -> ~ inside dst (dst ++ r).
Proof.
  intros Hr (r' & H). rewrite <- app_assoc in H.
  rewrite <- (app_nil_r dst) in H at 1. apply app_inv_head in H.
  symmetry in H. apply app_eq_nil in H as (-> & _). now apply Hr.
Qed.

(** C6.  A name that both the source and the destination have is
    skipped: the loop body for it prints the notice and does nothing
    else (it neither reads nor compares what the source holds under the
    name), and after [copy_files] the destination holds under that name
    exactly what it held before. *)
Theorem copy_files_skips_existing
    (src dst : path) (item : string) (fs in_src in_dst : node) :
  lookup (src ++ [item]) fs = Some in_src ->
  lookup (dst ++ [item]) fs = Some in_dst ->
  copy_item src dst item fs
  = (Ret tt, fs, [Printed ("Skipping " +++ show (dst ++ [item]) +++ " - already exists")])
  /\ lookup (dst ++ [item]) (final (copy_files src dst fs)) = Some in_dst.
Proof.
  intros _ Hdst. split.
  - destruct (copy_item_cases src dst item fs) as [(_ & H) | (Hnone & _)];
      [exact H | congruence].
  - apply (copy_files_keeps src dst fs); [| exact Hdst].
    now apply below_is_not_on_the_way.
Qed.

(** C10.  [copy_files] only ever adds below the destination: whatever a
    path below [dst] named before the call, it names afterwards, be it a
    file, a directory with all it holds, or anything else, whether the
    source has the name or not, and whatever goes wrong during the call. *)
Theorem copy_files_only_adds (src dst r : path) (fs n : node) :
  r <> [] ->
  lookup (dst ++ r) fs = Some n ->
  lookup (dst ++ r) (final (copy_files src dst fs)) = Some n.
Proof.
  intros Hr Hl.
  apply (copy_files_keeps src dst fs); [| exact Hl].
  now apply below_is_not_on_the_way.
Qed.

(** ** Copies that succeed *)

(** The loop body when nothing fails for its entry and [dst] is a
    directory: it returns, [dst] is a directory still, and a name that was
    free in [dst] now names what the source holds under it, if that is a
    file or a directory. *)
Lemma copy_item_ok (src dst : path) (item : string) (fs : node)
    (des : list (string * node)) :
  copy_fault (src ++ [item]) (dst ++ [item]) = None ->
  lookup dst fs = Some (Dir des) ->
  exists fs1 t des1,
    copy_item src dst item fs = (Ret tt, fs1, t)
    /\ lookup dst fs1 = Some (Dir des1)
    /\ (forall n,
          lookup (dst ++ [item]) fs = None ->
          lookup (src ++ [item]) fs = Some n ->
          n <> Other ->
          lookup (dst ++ [item]) fs1 = Some n).
Proof.
  intros Hf Hdst. rewrite copy_item_unfold.
  destruct (lookup (dst ++ [item]) fs) as [d |] eqn:Hd.
  { exists fs; eexists; exists des.
    split; [reflexivity |]. split; [exact Hdst | discriminate]. }
  destruct (lookup (src ++ [item]) fs) as [[data | es |] |] eqn:Hs.
  - destruct (write_new_child false dst item (File data) fs des Hdst)
      as (fs1 & des1 & Hw & Hdst1).
    unfold shutil_copy2. rewrite Hf, Hs, Hw.
    exists fs1; eexists; exists des1.
    split; [reflexivity |]. split; [exact Hdst1 |].
    intros n _ [= <-] _. apply (write_lookup _ _ _ _ _ Hw).
  - destruct (write_new_child true dst item (Dir es) fs des Hdst)
      as (fs1 & des1 & Hw & Hdst1).
    unfold shutil_copytree. rewrite Hf, Hs, Hd, Hw.
    exists fs1; eexists; exists des1.
    split; [reflexivity |]. split; [exact Hdst1 |].
    intros n _ [= <-] _. apply (write_lookup _ _ _ _ _ Hw).
  - exists fs, [], des. split; [reflexivity |]. split; [exact Hdst | congruence].
  - exists fs, [], des. split; [reflexivity |]. split; [exact Hdst | congruence].
Qed.

Lemma sibling_is_off (dst : path) (x y : string) :
  x <> y -> ~ inside (dst ++ [x]) (dst ++ [y]).
Proof.
  intros Hxy (r & H). rewrite <- app_assoc in H. apply app_inv_head in H.
  injection H as H _. now apply Hxy.
Qed.

(** The loop over entries none of which fails. *)
Lemma copy_items_ok (src dst : path) (items : list string) :
  (forall item, In item items -> copy_fault (src ++ [item]) (dst ++ [item]) = None) ->
  ~ inside dst src ->
  forall (fs : node) (des : list (string * node)),
    lookup dst fs = Some (Dir des) ->
    exists fs' t,
      for_each items (copy_item src dst) fs = (Ret tt, fs', t)
      /\ (forall item n,
            In item items ->
            lookup (dst ++ [item]) fs = None ->
            lookup (src ++ [item]) fs = Some n ->
            n <> Other ->
            lookup (dst ++ [item]) fs' = Some n).
Proof.
  intros Hf Hsrc. induction items as [| x items IH]; intros fs des Hdst.
  - exists fs, []. split; [reflexivity | intros item n []].
  - destruct (copy_item_ok src dst x fs des (Hf x (or_introl eq_refl)) Hdst)
      as (fs1 & t1 & des1 & Hrun1 & Hdst1 & Hcopy1).
    destruct (IH (fun item Hin => Hf item (or_intror Hin)) fs1 des1 Hdst1)
      as (fs' & t' & Hrun' & Hcopy').
    exists fs', (t1 ++ t'). split.
    + cbn [for_each]. eapply bind_run; [exact Hrun1 | exact Hrun'].
    + intros item n Hin Hfree Hs Hn.
      assert (Hfs1 : fs1 = final (copy_item src dst x fs)) by now rewrite Hrun1.
      destruct (string_dec x item) as [-> | Hx].
      * assert (Hkeep : keeps dst fs1 fs').
        { replace fs' with (final (for_each items (copy_item src dst) fs1))
            by now rewrite Hrun'.
          apply for_each_maintains; [apply keeps_refl | apply keeps_trans |].
          intros y s. apply copy_item_keeps. }
        apply Hkeep; [now apply below_is_not_on_the_way | now apply Hcopy1].
      * destruct Hin as [-> | Hin]; [contradiction |].
        apply Hcopy'; trivial.
        -- rewrite Hfs1, copy_item_frame; trivial.
           ++ now apply sibling_is_off.
           ++ apply sibling_is_off. congruence.
        -- rewrite Hfs1. apply copy_item_keeps; trivial.
           intros (r & H). apply Hsrc. exists ([item] ++ r).
           now rewrite app_assoc.
Qed.

(** A call in which nothing fails copies every file and directory of
    the source whose name is free in the destination. *)
Lemma copy_files_copies_new (src dst : path) (fs : node)
    (ses des : list (string * node)) :
  faultless src dst ->
  lookup src fs = Some (Dir ses) ->
  lookup dst fs = Some (Dir des) ->
  ~ inside dst src ->
  result (copy_files src dst fs) = Ret tt
  /\ (forall item n,
        lookup (dst ++ [item]) fs = None ->
        lookup (src ++ [item]) fs = Some n ->
        n <> Other ->
        lookup (dst ++ [item]) (final (copy_files src dst fs)) = Some n).
Proof.
  intros (Hlist & Hcopy) Hs Hd Hoff.
  destruct (copy_items_ok src dst (map fst ses) (fun item _ => Hcopy item) Hoff fs des Hd)
    as (fs' & t & Hrun & Hnew).
  assert (Hfiles : copy_files src dst fs = (Ret tt, fs', [] ++ t)).
  { assert (Hloop : copy_loop src dst fs = (Ret tt, fs', [] ++ t)).
    { unfold copy_loop. eapply bind_run; [| exact Hrun].
      unfold os_listdir. now rewrite Hlist, Hs. }
    unfold copy_files, try_except. now rewrite Hloop. }
  rewrite Hfiles. split; [reflexivity |].
  intros item n Hfree Hitem Hn. apply Hnew; trivial.
  rewrite lookup_app, Hs in Hitem. cbn in Hitem.
  destruct (child item ses) as [c |] eqn:Hc; [| discriminate].
  now apply child_in with c.
Qed.

(** C2, as the code has it.  In a call in which nothing fails, a
    directory of the source whose name is free in the destination is
    copied whole, and one whose name is taken in the destination is
    skipped whole: the destination keeps what it had under the name and
    gets nothing of what the source has there. *)
Theorem copy_files_copies_or_skips_directories
    (src dst : path) (item : string) (fs : node)
    (des es : list (string * node)) :
  faultless src dst ->
  lookup dst fs = Some (Dir des) ->
  ~ inside dst src ->
  lookup (src ++ [item]) fs = Some (Dir es) ->
  lookup (dst ++ [item]) (final (copy_files src dst fs))
  = match lookup (dst ++ [item]) fs with
    | None => Some (Dir es)
    | Some old => Some old
    end.
Proof.
  intros Hok Hd Hoff Hitem.
  destruct (lookup (dst ++ [item]) fs) as [old |] eqn:Hfree.
  - apply (copy_files_keeps src dst fs); [| exact Hfree].
    now apply below_is_not_on_the_way.
  - assert (Hs : exists ses, lookup src fs = Some (Dir ses)).
    { rewrite lookup_app in Hitem.
      destruct (lookup src fs) as [[| ses |] |]; try discriminate. eauto. }
    destruct Hs as (ses & Hs).
    now apply (copy_files_copies_new src dst fs ses des Hok Hs Hd Hoff).
Qed.

(** ** Errors *)

Lemma copy_item_ends (src dst : path) (item : string) (fs : node) :
  ends_well (fun _ => True) (result (copy_item src dst item fs)).
Proof.
  rewrite copy_item_unfold.
  destruct (lookup (dst ++ [item]) fs) as [d |] eqn:Hd; [exact I |].
  destruct (lookup (src ++ [item]) fs) as [[data | es |] |] eqn:Hs; try exact I.
  - unfold shutil_copy2. rewrite Hs.
    destruct (copy_fault (src ++ [item]) (dst ++ [item])) as [[rest e] |]; cbn; trivial.
    now destruct (write false (dst ++ [item]) (File data) fs).
  - unfold shutil_copytree. rewrite Hs, Hd.
    destruct (copy_fault (src ++ [item]) (dst ++ [item])) as [[rest e] |]; cbn; trivial.
    now destruct (write true (dst ++ [item]) (Dir es) fs).
Qed.

Lemma copy_loop_ends (src dst : path) (fs : node) :
  ends_well (fun _ => True) (result (copy_loop src dst fs)).
Proof.
  unfold copy_loop. apply bind_ends_well.
  - unfold os_listdir. destruct (listdir_fault src) as [e |]; cbn; trivial.
    now destruct (lookup src fs) as [[| |] |].
  - intros items fs1. apply for_each_ends_well.
    intros item fs2. apply copy_item_ends.
Qed.

(** What [copy_files] makes of a run of its loop. *)
Lemma copy_files_unfold (src dst : path) (fs : node) :
  copy_files src dst fs
  = match copy_loop src dst fs with
    | (Raise (Exception msg), fs1, t1) =>
        (Ret tt, fs1, t1 ++ [Printed ("Error copying files: " +++ msg)])
    | r => r
    end.
Proof.
  unfold copy_files, try_except.
  now destruct (copy_loop src dst fs) as [[[[] | [| msg] |] fs1] t1].
Qed.

(** [copy_files] returns, unless the process is interrupted during it. *)
Lemma copy_files_ends (src dst : path) (fs : node) :
  ends_well (fun e => e = KeyboardInterrupt) (result (copy_files src dst fs)).
Proof.
  pose proof (copy_loop_ends src dst fs) as Hend. rewrite copy_files_unfold.
  now destruct (copy_loop src dst fs) as [[[[] | [| msg] |] fs1] t1].
Qed.

Lemma on_existing_ends (d : device) (fs : node) :
  ends_well (fun e => e = KeyboardInterrupt) (result (on_existing d fs)).
Proof.
  unfold on_existing.
  destruct (equals (get d "ID_BUS") "usb" && truthy (get d "MEDIA_MNT")); [| easy].
  destruct (get_mount_point d) as [mp |]; [| easy].
  destruct (truthy (Some mp)); [| easy].
  apply bind_ends_well; [easy | intros _ fs1; apply copy_files_ends].
Qed.

Lemma on_event_ends (d : device) (fs : node) :
  ends_well (fun e => e = KeyboardInterrupt) (result (on_event d fs)).
Proof.
  unfold on_event.
  destruct (equals (get d "ID_BUS") "usb" && equals (action d) "add"); [| easy].
  apply bind_ends_well; [easy | intros _ fs1].
  destruct (get_mount_point d) as [mp |]; [| easy].
  destruct (truthy (Some mp)); [| easy].
  apply bind_ends_well; [easy | intros _ fs2; apply copy_files_ends].
Qed.

(** C7.  Every error that is raised during a [copy_files] invocation is
    caught by the one handler of the invocation, which is around the whole
    loop and not around one entry: at the first entry whose copy raises,
    the error is printed and the invocation returns at once, without
    looking at the entries that are listed after it.  The filesystem is
    left as it was when the error struck: what was copied by then stays,
    nothing is rolled back.  [copy_files] itself never raises an error, so
    the startup scan and the event loop, which call it, never stop on one:
    they go through all their devices (unless the process is
    interrupted). *)
Theorem copy_files_swallows_errors
    (src dst : path) (fs fs1 fs2 : node) (ses : list (string * node))
    (pre post : list string) (x msg : string) (t1 t2 : list event) :
  listdir_fault src = None ->
  lookup src fs = Some (Dir ses) ->
  map fst ses = pre ++ x :: post ->
  for_each pre (copy_item src dst) fs = (Ret tt, fs1, t1) ->
  copy_item src dst x fs1 = (Raise (Exception msg), fs2, t2) ->
  copy_files src dst fs
  = (Ret tt, fs2, t1 ++ t2 ++ [Printed ("Error copying files: " +++ msg)])
  /\ (forall r n,
        r <> [] ->
        lookup (dst ++ r) fs1 = Some n ->
        lookup (dst ++ r) (final (copy_files src dst fs)) = Some n)
  /\ (forall src' dst' fs' msg' fs1' t1',
        copy_loop src' dst' fs' = (Raise (Exception msg'), fs1', t1') ->
        copy_files src' dst' fs'
        = (Ret tt, fs1', t1' ++ [Printed ("Error copying files: " +++ msg')]))
  /\ (forall src' dst' fs' msg',
        result (copy_files src' dst' fs') <> Raise (Exception msg'))
  /\ (forall (devices : list device) (fs0 : node),
        (result (for_each devices on_existing fs0) = Ret tt
         \/ result (for_each devices on_existing fs0) = Raise KeyboardInterrupt)
        /\ (result (for_each devices on_event fs0) = Ret tt
            \/ result (for_each devices on_event fs0) = Raise KeyboardInterrupt)).
Proof.
  intros Hlist Hs Hnames Hpre Hx.
  assert (Hloop : copy_loop src dst fs = (Raise (Exception msg), fs2, [] ++ t1 ++ t2)).
  { unfold copy_loop. eapply bind_run.
    - unfold os_listdir. now rewrite Hlist, Hs.
    - rewrite Hnames, (for_each_app_run _ pre (x :: post) fs fs1 t1 Hpre).
      cbn [for_each]. now rewrite (bind_raise _ _ _ _ _ _ Hx). }
  assert (Hfiles : copy_files src dst fs
                   = (Ret tt, fs2,
                      t1 ++ t2 ++ [Printed ("Error copying files: " +++ msg)])).
  { rewrite copy_files_unfold, Hloop. cbn [app]. now rewrite <- app_assoc. }
  split; [exact Hfiles |]. split; [| split; [| split]].
  - intros r n Hr Hl. rewrite Hfiles. cbn [final fst snd].
    replace fs2 with (final (copy_item src dst x fs1)) by now rewrite Hx.
    apply copy_item_keeps; [| exact Hl]. now apply below_is_not_on_the_way.
  - intros src' dst' fs' msg' fs1' t1' Hloop'. now rewrite copy_files_unfold, Hloop'.
  - intros src' dst' fs' msg' H. pose proof (copy_files_ends src' dst' fs') as Hend.
    rewrite H in Hend. discriminate Hend.
  - intros devices fs0. split.
    + pose proof (for_each_ends_well (fun e => e = KeyboardInterrupt) on_existing
                    on_existing_ends devices fs0) as Hend.
      destruct (result (for_each devices on_existing fs0)) as [[] | e |];
        cbn in Hend; subst; auto; contradiction.
    + pose proof (for_each_ends_well (fun e => e = KeyboardInterrupt) on_event
                    on_event_ends devices fs0) as Hend.
      destruct (result (for_each devices on_event fs0)) as [[] | e |];
        cbn in Hend; subst; auto; contradiction.
Qed.

(** C8.  For a USB volume with a mount point, the startup scan and the
    arrival event make the same call: [copy_files] of that mount point
    and [DEST_DIR].  The two differ in what they announce before it (and
    in the settle delay of the event path), and in nothing that the copy
    does: same outcome, same filesystem, same lines of the copy. *)
Theorem scan_and_event_make_the_same_call
    (enumerated arrived : device) (mount_point : string) (fs : node) :
  get enumerated "ID_BUS" = Some "usb" ->
  get enumerated "MEDIA_MNT" = Some mount_point ->
  get arrived "ID_BUS" = Some "usb" ->
  action arrived = Some "add" ->
  get arrived "MEDIA_MNT" = Some mount_point ->
  mount_point <> "" ->
  let copy := copy_files (path_of mount_point) DEST_DIR fs in
  on_existing enumerated fs
  = (result copy, final copy,
     Printed ("Found existing USB at " +++ mount_point) :: output copy)
  /\ on_event arrived fs
     = (result copy, final copy,
        Slept 1000 :: Printed ("New USB detected at " +++ mount_point) :: output copy).
Proof.
  intros Hbus Hmnt Hbus' Hact Hmnt' Hne copy.
  apply String.eqb_neq in Hne.
  unfold on_existing, on_event, get_mount_point.
  rewrite Hbus, Hmnt, Hbus', Hact, Hmnt'. cbn [equals truthy].
  rewrite Hne. cbn [negb andb String.eqb Ascii.eqb Bool.eqb].
  unfold bind, print, time_sleep, emit. cbv beta iota zeta. fold copy.
  destruct copy as [[o fs1] t1]. split; reflexivity.
Qed.

(** ** What [copy_files] leaves alone *)

(** What relates the filesystem before and after each pass of the loop
    body relates it before and after [copy_files]. *)
Lemma copy_files_maintains (R : node -> node -> Prop) (src dst : path) :
  (forall fs, R fs fs) ->
  (forall fs1 fs2 fs3, R fs1 fs2 -> R fs2 fs3 -> R fs1 fs3) ->
  (forall item fs, R fs (final (copy_item src dst item fs))) ->
  forall fs, R fs (final (copy_files src dst fs)).
Proof.
  intros Hrefl Htrans Hitem fs. unfold copy_files.
  apply try_except_maintains; [exact Htrans | |].
  - unfold copy_loop. apply bind_maintains; [exact Htrans | |].
    + rewrite os_listdir_final. apply Hrefl.
    + intros items fs1. now apply for_each_maintains.
  - intros e h fs1. cbn. destruct (is_Exception e); [| discriminate].
    intros [= <-]. apply Hrefl.
Qed.

Lemma copy_item_source (src dst : path) (item : string) (fs n : node) :
  ~ inside dst src ->
  lookup src fs = Some n ->
  lookup src (final (copy_item src dst item fs)) = Some n.
Proof.
  intros Hoff Hsrc.
  destruct (copy_item_cases src dst item fs)
    as [(_ & ->) | (Hnone & [-> | (parents & new & Hw)])]; trivial.
  rewrite <- Hsrc. apply (write_frame _ _ _ _ _ _ Hw).
  - intros Hin. apply inside_snoc in Hin as [-> | Hin]; [congruence | contradiction].
  - intros Hin. apply (lookup_inside _ _ _ _ Hin Hsrc), Hnone.
Qed.

Lemma os_listdir_raises (src : path) (fs : node) :
  (forall es, lookup src fs <> Some (Dir es)) ->
  exists e, os_listdir src fs = (Raise e, fs, []).
Proof.
  intros Hno. unfold os_listdir.
  destruct (listdir_fault src) as [e |]; [eauto |].
  destruct (lookup src fs) as [[data | es |] |]; eauto.
  now contradiction (Hno es).
Qed.

Lemma copy_files_unreadable (src dst : path) (fs : node) (e : exn) :
  os_listdir src fs = (Raise e, fs, []) ->
  copy_files src dst fs
  = match e with
    | Exception msg => (Ret tt, fs, [Printed ("Error copying files: " +++ msg)])
    | KeyboardInterrupt => (Raise KeyboardInterrupt, fs, [])
    end.
Proof.
  intros Hlist. rewrite copy_files_unfold.
  unfold copy_loop. rewrite (bind_raise _ _ _ _ _ _ Hlist). now destruct e.
Qed.

(** X17.  The volume is only read: unless the destination lies on the
    volume itself, the tree at [src] is after the call exactly what it
    was before it, nothing changed and nothing added, whatever fails. *)
Theorem copy_files_leaves_the_source_alone (src dst : path) (fs : node) :
  ~ inside dst src ->
  lookup src (final (copy_files src dst fs)) = lookup src fs.
Proof.
  intros Hoff. destruct (lookup src fs) as [n |] eqn:Hsrc.
  - revert Hsrc.
    apply (copy_files_maintains
             (fun fs fs' => lookup src fs = Some n -> lookup src fs' = Some n)).
    + auto.
    + auto.
    + intros item fs0. now apply copy_item_source.
  - destruct (os_listdir_raises src fs) as (e & Hlist); [congruence |].
    rewrite (copy_files_unreadable src dst fs e Hlist).
    now destruct e.
Qed.

(** X18.  A mount point that is not there, or that is no directory,
    makes [copy_files] print the error of [os.listdir] and return: nothing
    is copied and the filesystem is left as it is. *)
Theorem copy_files_reports_a_missing_source (src dst : path) (fs : node) :
  listdir_fault src = None ->
  (forall es, lookup src fs <> Some (Dir es)) ->
  copy_files src dst fs
  = (Ret tt, fs,
     [ Printed ("Error copying files: "
                +++ str (match lookup src fs with
                         | None => FileNotFoundError src
                         | Some _ => NotADirectoryError src
                         end)) ]).
Proof.
  intros Hlist Hno.
  assert (Hraise : os_listdir src fs
                   = (Raise (match lookup src fs with
                             | None => FileNotFoundError src
                             | Some _ => NotADirectoryError src
                             end), fs, [])).
  { unfold os_listdir. rewrite Hlist.
    destruct (lookup src fs) as [[data | es |] |]; trivial.
    now contradiction (Hno es). }
  rewrite (copy_files_unreadable src dst fs _ Hraise).
  now destruct (lookup src fs).
Qed.

(** X19.  An entry of the volume that is neither a regular file nor a
    directory (a FIFO, a socket, a device node) is never copied: its name
    is as free in the destination after the call as it was before. *)
Theorem copy_files_ignores_special_files
    (src dst : path) (item : string) (fs : node) :
  ~ inside dst src ->
  lookup (src ++ [item]) fs = Some Other ->
  lookup (dst ++ [item]) fs = None ->
  lookup (dst ++ [item]) (final (copy_files src dst fs)) = None.
Proof.
  intros Hoff Hsrc Hdst.
  assert (H : lookup (src ++ [item]) (final (copy_files src dst fs)) = Some Other
              /\ lookup (dst ++ [item]) (final (copy_files src dst fs)) = None);
    [| now destruct H].
  generalize (conj Hsrc Hdst).
  apply (copy_files_maintains
           (fun fs fs' =>
              lookup (src ++ [item]) fs = Some Other /\ lookup (dst ++ [item]) fs = None ->
              lookup (src ++ [item]) fs' = Some Other /\ lookup (dst ++ [item]) fs' = None)).
  - auto.
  - auto.
  - intros y fs0 (Hs & Hd). destruct (string_dec y item) as [-> | Hy].
    + rewrite copy_item_unfold, Hd, Hs. now split.
    + split.
      * apply copy_item_keeps; [| exact Hs].
        intros (r & H). apply Hoff. exists ([item] ++ r). now rewrite app_assoc.
      * rewrite copy_item_frame; [exact Hd | |]; now apply sibling_is_off.
Qed.

(** ** Calls in which nothing fails *)

Lemma below_the_source_is_off (src dst : path) (item : string) :
  ~ inside dst src -> ~ inside dst (src ++ [item]).
Proof.
  intros Hoff (r & H). apply Hoff. exists ([item] ++ r). now rewrite app_assoc.
Qed.

(** X20.  In a call in which nothing fails, a file of the volume whose
    name is free in the destination is there afterwards, with the bytes
    and metadata it has on the volume; one whose name is taken leaves the
    destination's entry as it was; the file on the volume stays as it is,
    and the call returns. *)
Theorem copy_files_copies_new_files
    (src dst : path) (item data : string) (fs : node) (des : list (string * node)) :
  faultless src dst ->
  lookup dst fs = Some (Dir des) ->
  ~ inside dst src ->
  lookup (src ++ [item]) fs = Some (File data) ->
  result (copy_files src dst fs) = Ret tt
  /\ lookup (dst ++ [item]) (final (copy_files src dst fs))
     = Some (match lookup (dst ++ [item]) fs with
             | None => File data
             | Some old => old
             end)
  /\ lookup (src ++ [item]) (final (copy_files src dst fs)) = Some (File data).
Proof.
  intros Hok Hd Hoff Hitem.
  assert (Hs : exists ses, lookup src fs = Some (Dir ses)).
  { rewrite lookup_app in Hitem.
    destruct (lookup src fs) as [[| ses |] |]; try discriminate. eauto. }
  destruct Hs as (ses & Hs).
  destruct (copy_files_copies_new src dst fs ses des Hok Hs Hd Hoff) as (Hret & Hnew).
  split; [exact Hret |]. split.
  - destruct (lookup (dst ++ [item]) fs) as [old |] eqn:Hfree.
    + apply (copy_files_keeps src dst fs); [| exact Hfree].
      now apply below_is_not_on_the_way.
    + now apply Hnew.
  - apply (copy_files_keeps src dst fs); [| exact Hitem].
    now apply below_the_source_is_off.
Qed.

(** The loop over entries for none of which there is anything to do. *)
Lemma copy_items_nothing_to_do (src dst : path) (items : list string) (fs : node) :
  (forall item, In item items ->
                lookup (dst ++ [item]) fs <> None
                \/ lookup (src ++ [item]) fs = None
                \/ lookup (src ++ [item]) fs = Some Other) ->
  exists t, for_each items (copy_item src dst) fs = (Ret tt, fs, t).
Proof.
  induction items as [| x items IH]; intros Hdone.
  - now exists [].
  - destruct (IH (fun item Hin => Hdone item (or_intror Hin))) as (t & Hrest).
    assert (Hx : exists tx, copy_item src dst x fs = (Ret tt, fs, tx)).
    { rewrite copy_item_unfold.
      destruct (Hdone x (or_introl eq_refl)) as [Hd | [Hs | Hs]].
      - destruct (lookup (dst ++ [x]) fs); [eauto | contradiction].
      - destruct (lookup (dst ++ [x]) fs); [eauto |]. rewrite Hs. eauto.
      - destruct (lookup (dst ++ [x]) fs); [eauto |]. rewrite Hs. eauto. }
    destruct Hx as (tx & Hx). exists (tx ++ t).
    cbn [for_each]. eapply bind_run; [exact Hx | exact Hrest].
Qed.

(** X21.  Copying the same volume again is a no-op: after a call in
    which nothing failed, a second call (in which listing the volume does
    not fail) returns and leaves the filesystem exactly as the first call
    left it. *)
Theorem copy_files_twice_changes_nothing
    (src dst : path) (fs : node) (ses des : list (string * node)) :
  faultless src dst ->
  lookup src fs = Some (Dir ses) ->
  lookup dst fs = Some (Dir des) ->
  ~ inside dst src ->
  result (copy_files src dst (final (copy_files src dst fs))) = Ret tt
  /\ final (copy_files src dst (final (copy_files src dst fs)))
     = final (copy_files src dst fs).
Proof.
  intros Hok Hs Hd Hoff.
  destruct (copy_files_copies_new src dst fs ses des Hok Hs Hd Hoff) as (_ & Hnew).
  pose proof (copy_files_keeps src dst fs) as Hkeep.
  set (fs1 := final (copy_files src dst fs)) in *.
  assert (Hs1 : lookup src fs1 = Some (Dir ses)) by now apply Hkeep.
  assert (Hdone : forall item, In item (map fst ses) ->
                    lookup (dst ++ [item]) fs1 <> None
                    \/ lookup (src ++ [item]) fs1 = None
                    \/ lookup (src ++ [item]) fs1 = Some Other).
  { intros item _.
    destruct (lookup (dst ++ [item]) fs) as [old |] eqn:Hfree.
    { left. rewrite (Hkeep _ old); [discriminate | | exact Hfree].
      now apply below_is_not_on_the_way. }
    destruct (lookup (src ++ [item]) fs) as [n |] eqn:Hitem.
    - destruct n as [data | es |].
      + left. now rewrite (Hnew item (File data)).
      + left. now rewrite (Hnew item (Dir es)).
      + right. right. apply Hkeep; [| exact Hitem].
        now apply below_the_source_is_off.
    - right. left. rewrite lookup_app, Hs1. now rewrite lookup_app, Hs in Hitem. }
  destruct (copy_items_nothing_to_do src dst (map fst ses) fs1 Hdone) as (t & Hrun).
  assert (Hfiles : copy_files src dst fs1 = (Ret tt, fs1, [] ++ t)).
  { assert (Hloop : copy_loop src dst fs1 = (Ret tt, fs1, [] ++ t)).
    { unfold copy_loop. eapply bind_run; [| exact Hrun].
      unfold os_listdir. destruct Hok as (Hlist & _). now rewrite Hlist, Hs1. }
    unfold copy_files, try_except. now rewrite Hloop. }
  rewrite Hfiles. split; reflexivity.
Qed.

(** ** What a call prints, and where it stops *)

Lemma copy_items_announce (src dst : path) (item : string) (items : list string) :
  forall fs,
    lookup (dst ++ [item]) fs = None ->
    ~ In (Printed ("Copying file: " +++ show (src ++ [item])
                   +++ " to " +++ show (dst ++ [item])))
         (output (for_each items (copy_item src dst) fs)) ->
    ~ In (Printed ("Copying directory: " +++ show (src ++ [item])
                   +++ " to " +++ show (dst ++ [item])))
         (output (for_each items (copy_item src dst) fs)) ->
    lookup (dst ++ [item]) (final (for_each items (copy_item src dst) fs)) = None.
Proof.
  induction items as [| y items IH]; intros fs Hfree Hfile Hdir; [exact Hfree |].
  cbn [for_each] in Hfile, Hdir |- *. rewrite bind_output in Hfile, Hdir.
  assert (Hstep : lookup (dst ++ [item]) (final (copy_item src dst y fs)) = None).
  { destruct (string_dec y item) as [-> | Hy].
    - rewrite copy_item_unfold, Hfree in Hfile, Hdir |- *.
      destruct (lookup (src ++ [item]) fs) as [[data | es |] |]; trivial.
      + destruct (shutil_copy2 (src ++ [item]) (dst ++ [item]) fs) as [[o fs'] t].
        contradict Hfile. apply in_or_app. left. now left.
      + destruct (shutil_copytree (src ++ [item]) (dst ++ [item]) fs) as [[o fs'] t].
        contradict Hdir. apply in_or_app. left. now left.
    - rewrite copy_item_frame; [exact Hfree | |]; now apply sibling_is_off. }
  unfold bind.
  destruct (copy_item src dst y fs) as [[[[] | e |] fs1] t1]; cbn in Hstep |- *; trivial.
  specialize (IH fs1 Hstep).
  destruct (for_each items (copy_item src dst) fs1) as [[o fs2] t2].
  cbn in IH, Hfile, Hdir |- *. apply IH.
  - contradict Hfile. apply in_or_app. now right.
  - contradict Hdir. apply in_or_app. now right.
Qed.

Lemma copy_loop_announce (src dst : path) (item : string) (fs : node) :
  lookup (dst ++ [item]) fs = None ->
  ~ In (Printed ("Copying file: " +++ show (src ++ [item])
                 +++ " to " +++ show (dst ++ [item])))
       (output (copy_loop src dst fs)) ->
  ~ In (Printed ("Copying directory: " +++ show (src ++ [item])
                 +++ " to " +++ show (dst ++ [item])))
       (output (copy_loop src dst fs)) ->
  lookup (dst ++ [item]) (final (copy_loop src dst fs)) = None.
Proof.
  intros Hfree. unfold copy_loop, bind, os_listdir.
  destruct (listdir_fault src) as [e |]; [trivial |].
  destruct (lookup src fs) as [[data | es |] |]; trivial.
  pose proof (copy_items_announce src dst item (map fst es) fs Hfree) as Hitems.
  destruct (for_each (map fst es) (copy_item src dst) fs) as [[o fs2] t2].
  exact Hitems.
Qed.

(** X22.  Nothing is copied unannounced: a name that was free in the
    destination and for which the call printed neither "Copying file: ..."
    nor "Copying directory: ..." is still free after the call; so what
    a call has put into the destination can be read off its output,
    whatever failed. *)
Theorem copy_files_announces_every_copy
    (src dst : path) (item : string) (fs : node) :
  lookup (dst ++ [item]) fs = None ->
  ~ In (Printed ("Copying file: " +++ show (src ++ [item])
                 +++ " to " +++ show (dst ++ [item])))
       (output (copy_files src dst fs)) ->
  ~ In (Printed ("Copying directory: " +++ show (src ++ [item])
                 +++ " to " +++ show (dst ++ [item])))
       (output (copy_files src dst fs)) ->
  lookup (dst ++ [item]) (final (copy_files src dst fs)) = None.
Proof.
  intros Hfree. pose proof (copy_loop_announce src dst item fs Hfree) as Hloop.
  rewrite copy_files_unfold.
  destruct (copy_loop src dst fs) as [[[[] | [| msg] |] fs1] t1];
    cbn [final output fst snd] in Hloop |- *; trivial.
  intros Hfile Hdir. apply Hloop.
  - contradict Hfile. apply in_or_app. now left.
  - contradict Hdir. apply in_or_app. now left.
Qed.

(** X23.  The first entry whose copy raises an error ends the call: the
    entries listed after it are not looked at, although nothing is wrong
    with them.  The call returns with the filesystem as the failed copy
    left it, and its output is that of the entries up to the failed one,
    followed by the error line. *)
Theorem copy_files_stops_at_the_first_failure
    (src dst : path) (fs fs1 fs2 : node) (ses : list (string * node))
    (pre post : list string) (x msg : string) (t1 t2 : list event) :
  listdir_fault src = None ->
  lookup src fs = Some (Dir ses) ->
  map fst ses = pre ++ x :: post ->
  for_each pre (copy_item src dst) fs = (Ret tt, fs1, t1) ->
  copy_item src dst x fs1 = (Raise (Exception msg), fs2, t2) ->
  copy_files src dst fs
  = (Ret tt, fs2, t1 ++ t2 ++ [Printed ("Error copying files: " +++ msg)]).
Proof.
  intros Hlist Hs Hnames Hpre Hx.
  assert (Hloop : copy_loop src dst fs = (Raise (Exception msg), fs2, [] ++ t1 ++ t2)).
  { unfold copy_loop. eapply bind_run.
    - unfold os_listdir. now rewrite Hlist, Hs.
    - rewrite Hnames, (for_each_app_run _ pre (x :: post) fs fs1 t1 Hpre).
      cbn [for_each]. now rewrite (bind_raise _ _ _ _ _ _ Hx). }
  rewrite copy_files_unfold, Hloop. cbn [app]. now rewrite <- app_assoc.
Qed.

(** ** Devices that are not mounted USB volumes *)

Lemma on_existing_ignores (d : device) (fs : node) :
  get d "ID_BUS" <> Some "usb"
  \/ get d "MEDIA_MNT" = None \/ get d "MEDIA_MNT" = Some "" ->
  on_existing d fs = (Ret tt, fs, []).
Proof.
  intros H.
  assert (Hc : equals (get d "ID_BUS") "usb" && truthy (get d "MEDIA_MNT") = false).
  { destruct H as [H | [H | H]].
    - destruct (get d "ID_BUS") as [bus |]; cbn; trivial.
      destruct (String.eqb_spec bus "usb") as [-> | _]; [now contradiction H | easy].
    - rewrite H. apply andb_false_r.
    - rewrite H. apply andb_false_r. }
  unfold on_existing. now rewrite Hc.
Qed.

Lemma on_event_ignores (d : device) (fs : node) :
  get d "ID_BUS" <> Some "usb" \/ action d <> Some "add"
  \/ get d "MEDIA_MNT" = None \/ get d "MEDIA_MNT" = Some "" ->
  on_event d fs
  = (Ret tt, fs,
     if equals (get d "ID_BUS") "usb" && equals (action d) "add"
     then [Slept 1000] else []).
Proof.
  intros H. unfold on_event, get_mount_point.
  destruct (equals (get d "ID_BUS") "usb" && equals (action d) "add") eqn:Hc;
    [| reflexivity].
  apply andb_true_iff in Hc as (Hbus & Hact).
  assert (Hm : get d "MEDIA_MNT" = None \/ get d "MEDIA_MNT" = Some "").
  { destruct H as [H | [H | H]]; [| | exact H].
    - destruct (get d "ID_BUS") as [bus |]; [| discriminate Hbus].
      apply String.eqb_eq in Hbus as ->. now contradiction H.
    - destruct (action d) as [a |]; [| discriminate Hact].
      apply String.eqb_eq in Hact as ->. now contradiction H. }
  destruct Hm as [-> | ->]; reflexivity.
Qed.

(** X24.  A device that is no USB device, or has no mount point, or an
    event that is no arrival, starts no copy: when no enumerated device
    and no event is a mounted USB volume (arriving), [main] prints its
    banner, sleeps its one second for every USB arrival, leaves the
    filesystem as it is, and keeps waiting. *)
Theorem main_ignores_other_devices (existing events : list device) (fs : node) :
  Forall (fun d => get d "ID_BUS" <> Some "usb"
                   \/ get d "MEDIA_MNT" = None \/ get d "MEDIA_MNT" = Some "")
         existing ->
  Forall (fun d => get d "ID_BUS" <> Some "usb" \/ action d <> Some "add"
                   \/ get d "MEDIA_MNT" = None \/ get d "MEDIA_MNT" = Some "")
         events ->
  main existing events fs
  = (Running, fs,
     Printed "Monitoring for USB devices..."
       :: map (fun _ => Slept 1000)
              (filter (fun d => equals (get d "ID_BUS") "usb" && equals (action d) "add")
                      events)).
Proof.
  intros Hex Hev.
  assert (Hscan : for_each existing on_existing fs = (Ret tt, fs, [])).
  { induction Hex as [| d ds Hd _ IH]; [reflexivity |].
    cbn [for_each]. change (@nil event) with (@nil event ++ []).
    eapply bind_run; [now apply on_existing_ignores | exact IH]. }
  assert (Hloop : for_each events on_event fs
                  = (Ret tt, fs,
                     map (fun _ => Slept 1000)
                         (filter (fun d => equals (get d "ID_BUS") "usb"
                                           && equals (action d) "add") events))).
  { induction Hev as [| d ds Hd _ IH]; [reflexivity |].
    cbn [for_each filter]. etransitivity.
    { eapply bind_run; [now apply on_event_ignores | exact IH]. }
    now destruct (equals (get d "ID_BUS") "usb" && equals (action d) "add"). }
  unfold main. etransitivity.
  { eapply bind_run; [reflexivity |]. eapply bind_run; [exact Hscan |].
    eapply bind_run; [exact Hloop | reflexivity]. }
  cbn [app]. now rewrite app_nil_r.
Qed.
End Facts.

(** ** The statements at work *)

Lemma no_faults_faultless (src dst : path) : @faultless no_faults src dst.
Proof.
  split; [reflexivity | intros item; reflexivity].
Qed.

(** C2, as the claim states it, fails: the volume has [clips/new.mp4],
    the destination has a directory [clips] without it, nothing goes wrong
    during the call, and afterwards the destination's [clips] still lacks
    [new.mp4]. *)
Lemma existing_subdirectory_is_not_merged :
  lookup (path_of "/media/usb" ++ ["clips"; "new.mp4"]) fs_clips = Some (File "new")
  /\ lookup (DEST_DIR ++ ["clips"]) fs_clips = Some (Dir [("old.mp4", File "old")])
  /\ @copy_files no_faults (path_of "/media/usb") DEST_DIR fs_clips
     = (Ret tt, fs_clips, [Printed "Skipping /home/apex/clips - already exists"])
  /\ lookup (DEST_DIR ++ ["clips"; "new.mp4"])
       (final (@copy_files no_faults (path_of "/media/usb") DEST_DIR fs_clips))
     = None.
Proof.
  repeat split; reflexivity.
Qed.

(** The merge that [dirs_exist_ok=True] asks of [shutil.copytree] is what
    the claim describes; [copy_files] does not reach it, because line 24
    has skipped every name that exists. *)
Example copytree_would_merge :
  copytree_onto (Dir [("new.mp4", File "new")]) (Dir [("old.mp4", File "old")])
  = Some (Dir [("old.mp4", File "old"); ("new.mp4", File "new")]).
Proof.
  reflexivity.
Qed.

Lemma copy_files_copies_or_skips_directories_witness :
  lookup (DEST_DIR ++ ["c"])
    (final (@copy_files no_faults (path_of "/media/usb") DEST_DIR fs_ab))
  = match lookup (DEST_DIR ++ ["c"]) fs_ab with
    | None => Some (Dir [("d.txt", File "d")])
    | Some old => Some old
    end.
Proof.
  apply (@copy_files_copies_or_skips_directories no_faults
           (path_of "/media/usb") DEST_DIR "c" fs_ab
           [("b.txt", File "b of the destination")] [("d.txt", File "d")]).
  - apply no_faults_faultless.
  - reflexivity.
  - intros (r & H). vm_compute in H. discriminate H.
  - reflexivity.
Defined.

Lemma copy_files_skips_existing_witness :
  @copy_item no_faults (path_of "/media/usb") DEST_DIR "b.txt" fs_ab
  = (Ret tt, fs_ab,
     [Printed ("Skipping " +++ show (DEST_DIR ++ ["b.txt"]) +++ " - already exists")])
  /\ lookup (DEST_DIR ++ ["b.txt"])
       (final (@copy_files no_faults (path_of "/media/usb") DEST_DIR fs_ab))
     = Some (File "b of the destination").
Proof.
  apply (@copy_files_skips_existing no_faults (path_of "/media/usb") DEST_DIR "b.txt"
           fs_ab (File "b of the volume") (File "b of the destination"));
    reflexivity.
Defined.

Lemma copy_files_only_adds_witness :
  lookup (DEST_DIR ++ ["b.txt"])
    (final (@copy_files io_error_at_c (path_of "/media/usb") DEST_DIR fs_ab))
  = Some (File "b of the destination").
Proof.
  apply (@copy_files_only_adds io_error_at_c (path_of "/media/usb") DEST_DIR ["b.txt"]
           fs_ab (File "b of the destination")).
  - discriminate.
  - reflexivity.
Defined.

(** A call in which a copy fails: [a.txt] is copied, [b.txt] is skipped,
    the copy of [c] fails and leaves an empty [c]; the error is printed,
    the call returns, and what was copied is there. *)
Example copy_files_with_an_io_error :
  @copy_files io_error_at_c (path_of "/media/usb") DEST_DIR fs_ab
  = (Ret tt,
     Dir [ ("media", Dir [ ("usb", Dir [ ("a.txt", File "a of the volume");
                                         ("b.txt", File "b of the volume");
                                         ("c", Dir [ ("d.txt", File "d") ]) ]) ]);
           ("home", Dir [ ("apex", Dir [ ("b.txt", File "b of the destination");
                                         ("a.txt", File "a of the volume");
                                         ("c", Dir []) ]) ]) ],
     [ Printed "Copying file: /media/usb/a.txt to /home/apex/a.txt";
       Printed "Skipping /home/apex/b.txt - already exists";
       Printed "Copying directory: /media/usb/c to /home/apex/c";
       Printed "Error copying files: [Errno 5] Input/output error" ]).
Proof.
  reflexivity.
Qed.

(** The scenario of the specification: [a.txt] is new, [b.txt] exists
    with other content; afterwards [a.txt] matches the source, [b.txt] is
    as the destination had it, and nothing was raised. *)
Example copy_files_new_and_existing :
  let r := @copy_files no_faults (path_of "/media/usb") DEST_DIR fs_ab in
  result r = Ret tt
  /\ lookup (DEST_DIR ++ ["a.txt"]) (final r) = Some (File "a of the volume")
  /\ lookup (DEST_DIR ++ ["b.txt"]) (final r) = Some (File "b of the destination")
  /\ lookup (DEST_DIR ++ ["c"; "d.txt"]) (final r) = Some (File "d").
Proof.
  repeat split; reflexivity.
Qed.

(** The disk fills up while [a.txt], the first entry of the volume, is
    copied: the call prints the error and returns; the half of [a.txt]
    stays, and [c], listed after it, is not copied although nothing is
    wrong with it. *)
Lemma copy_files_swallows_errors_witness :
  @copy_files disk_full_at_a (path_of "/media/usb") DEST_DIR fs_ab
  = (Ret tt,
     final (@copy_item disk_full_at_a (path_of "/media/usb") DEST_DIR "a.txt" fs_ab),
     [] ++ output (@copy_item disk_full_at_a (path_of "/media/usb") DEST_DIR "a.txt" fs_ab)
        ++ [Printed ("Error copying files: " +++ "[Errno 28] No space left on device")])
  /\ (forall r n,
        r <> [] ->
        lookup (DEST_DIR ++ r) fs_ab = Some n ->
        lookup (DEST_DIR ++ r)
          (final (@copy_files disk_full_at_a (path_of "/media/usb") DEST_DIR fs_ab))
        = Some n)
  /\ (forall src' dst' fs' msg' fs1' t1',
        @copy_loop disk_full_at_a src' dst' fs' = (Raise (Exception msg'), fs1', t1') ->
        @copy_files disk_full_at_a src' dst' fs'
        = (Ret tt, fs1', t1' ++ [Printed ("Error copying files: " +++ msg')]))
  /\ (forall src' dst' fs' msg',
        result (@copy_files disk_full_at_a src' dst' fs') <> Raise (Exception msg'))
  /\ (forall (devices : list device) (fs0 : node),
        (result (for_each devices (@on_existing disk_full_at_a) fs0) = Ret tt
         \/ result (for_each devices (@on_existing disk_full_at_a) fs0)
            = Raise KeyboardInterrupt)
        /\ (result (for_each devices (@on_event disk_full_at_a) fs0) = Ret tt
            \/ result (for_each devices (@on_event disk_full_at_a) fs0)
               = Raise KeyboardInterrupt)).
Proof.
  apply (@copy_files_swallows_errors disk_full_at_a
           (path_of "/media/usb") DEST_DIR fs_ab fs_ab
           (final (@copy_item disk_full_at_a (path_of "/media/usb") DEST_DIR "a.txt" fs_ab))
           [ ("a.txt", File "a of the volume"); ("b.txt", File "b of the volume");
             ("c", Dir [ ("d.txt", File "d") ]) ]
           [] ["b.txt"; "c"] "a.txt" "[Errno 28] No space left on device" []
           (output (@copy_item disk_full_at_a (path_of "/media/usb") DEST_DIR
                      "a.txt" fs_ab))).
  - reflexivity.
  - reflexivity.
  - reflexivity.
  - reflexivity.
  - reflexivity.
Defined.

Example disk_full_ends_the_call :
  output (@copy_files disk_full_at_a (path_of "/media/usb") DEST_DIR fs_ab)
  = [ Printed "Copying file: /media/usb/a.txt to /home/apex/a.txt";
      Printed "Error copying files: [Errno 28] No space left on device" ]
  /\ lookup (DEST_DIR ++ ["a.txt"])
       (final (@copy_files disk_full_at_a (path_of "/media/usb") DEST_DIR fs_ab))
     = Some (File "a of")
  /\ lookup (DEST_DIR ++ ["c"])
       (final (@copy_files disk_full_at_a (path_of "/media/usb") DEST_DIR fs_ab))
     = None
  /\ lookup (DEST_DIR ++ ["c"])
       (final (@copy_files no_faults (path_of "/media/usb") DEST_DIR fs_ab))
     = Some (Dir [ ("d.txt", File "d") ]).
Proof.
  repeat split; reflexivity.
Qed.

Lemma scan_and_event_make_the_same_call_witness :
  let copy := @copy_files no_faults (path_of "/media/usb") DEST_DIR fs_ab in
  @on_existing no_faults usb_enumerated fs_ab
  = (result copy, final copy,
     Printed ("Found existing USB at " +++ "/media/usb") :: output copy)
  /\ @on_event no_faults usb_arrived fs_ab
     = (result copy, final copy,
        Slept 1000 :: Printed ("New USB detected at " +++ "/media/usb") :: output copy).
Proof.
  apply (@scan_and_event_make_the_same_call no_faults usb_enumerated usb_arrived
           "/media/usb" fs_ab); try reflexivity.
  discriminate.
Defined.

(** The whole watcher on a volume that is there at startup and is
    reported again by an event: the second copy finds every name taken. *)
Example main_scan_then_event :
  output (@main no_faults [usb_enumerated] [usb_arrived] fs_ab)
  = [ Printed "Monitoring for USB devices...";
      Printed "Found existing USB at /media/usb";
      Printed "Copying file: /media/usb/a.txt to /home/apex/a.txt";
      Printed "Skipping /home/apex/b.txt - already exists";
      Printed "Copying directory: /media/usb/c to /home/apex/c";
      Slept 1000;
      Printed "New USB detected at /media/usb";
      Printed "Skipping /home/apex/a.txt - already exists";
      Printed "Skipping /home/apex/b.txt - already exists";
      Printed "Skipping /home/apex/c - already exists" ]
  /\ result (@main no_faults [usb_enumerated] [usb_arrived] fs_ab) = Running.
Proof.
  split; reflexivity.
Qed.


(** ** Failed copies *)

(** X25.  A copy that failed part-way is never repaired: when
    [shutil.copy2] raises after writing a part of the file, the part
    stays in the destination under the file's name, the name is taken
    from then on, and no later call, whatever happens in it, replaces the
    part by the file. *)
Theorem failed_copy_is_not_repaired
    (first later : Faults) (src dst : path) (item data msg : string)
    (fs part : node) (des : list (string * node)) :
  lookup dst fs = Some (Dir des) ->
  lookup (dst ++ [item]) fs = None ->
  lookup (src ++ [item]) fs = Some (File data) ->
  @copy_fault first (src ++ [item]) (dst ++ [item]) = Some (Some part, Exception msg) ->
  result (@copy_item first src dst item fs) = Raise (Exception msg)
  /\ lookup (dst ++ [item]) (final (@copy_item first src dst item fs)) = Some part
  /\ lookup (dst ++ [item])
       (final (@copy_files later src dst (final (@copy_item first src dst item fs))))
     = Some part.
Proof.
  intros Hd Hfree Hs Hfault.
  destruct (write_new_child true dst item part fs des Hd) as (fs1 & des1 & Hw & _).
  assert (Hrun : @copy_item first src dst item fs
                 = (Raise (Exception msg), fs1,
                    [Printed ("Copying file: " +++ show (src ++ [item])
                              +++ " to " +++ show (dst ++ [item]))])).
  { rewrite copy_item_unfold, Hfree, Hs.
    unfold shutil_copy2, leftover. now rewrite Hfault, Hw. }
  rewrite Hrun. cbn [result final fst snd].
  pose proof (write_lookup _ _ _ _ _ Hw) as Hpart.
  split; [reflexivity |]. split; [exact Hpart |].
  apply (@copy_files_keeps later src dst fs1); [| exact Hpart].
  apply below_is_not_on_the_way. discriminate.
Qed.

(** ** The further statements at work *)

Lemma copy_files_leaves_the_source_alone_witness :
  lookup (path_of "/media/usb")
    (final (@copy_files io_error_at_c (path_of "/media/usb") DEST_DIR fs_ab))
  = lookup (path_of "/media/usb") fs_ab.
Proof.
  apply (@copy_files_leaves_the_source_alone io_error_at_c
           (path_of "/media/usb") DEST_DIR fs_ab).
  intros (r & H). vm_compute in H. discriminate H.
Defined.

(** The event of a volume that is not mounted yet. *)
Lemma copy_files_reports_a_missing_source_witness :
  @copy_files no_faults (path_of "/media/usb") DEST_DIR fs_bare
  = (Ret tt, fs_bare,
     [ Printed ("Error copying files: "
                +++ str (match lookup (path_of "/media/usb") fs_bare with
                         | None => FileNotFoundError (path_of "/media/usb")
                         | Some _ => NotADirectoryError (path_of "/media/usb")
                         end)) ]).
Proof.
  apply (@copy_files_reports_a_missing_source no_faults
           (path_of "/media/usb") DEST_DIR fs_bare).
  - reflexivity.
  - intros es H. vm_compute in H. discriminate H.
Defined.

Example missing_source_message :
  output (@copy_files no_faults (path_of "/media/usb") DEST_DIR fs_bare)
  = [ Printed "Error copying files: [Errno 2] No such file or directory: '/media/usb'" ].
Proof.
  reflexivity.
Qed.

Lemma copy_files_ignores_special_files_witness :
  lookup (DEST_DIR ++ ["pipe"])
    (final (@copy_files no_faults (path_of "/media/usb") DEST_DIR fs_fifo))
  = None.
Proof.
  apply (@copy_files_ignores_special_files no_faults
           (path_of "/media/usb") DEST_DIR "pipe" fs_fifo).
  - intros (r & H). vm_compute in H. discriminate H.
  - reflexivity.
  - reflexivity.
Defined.

Lemma copy_files_copies_new_files_witness :
  result (@copy_files no_faults (path_of "/media/usb") DEST_DIR fs_ab) = Ret tt
  /\ lookup (DEST_DIR ++ ["a.txt"])
       (final (@copy_files no_faults (path_of "/media/usb") DEST_DIR fs_ab))
     = Some (match lookup (DEST_DIR ++ ["a.txt"]) fs_ab with
             | None => File "a of the volume"
             | Some old => old
             end)
  /\ lookup (path_of "/media/usb" ++ ["a.txt"])
       (final (@copy_files no_faults (path_of "/media/usb") DEST_DIR fs_ab))
     = Some (File "a of the volume").
Proof.
  apply (@copy_files_copies_new_files no_faults
           (path_of "/media/usb") DEST_DIR "a.txt" "a of the volume" fs_ab
           [("b.txt", File "b of the destination")]).
  - apply no_faults_faultless.
  - reflexivity.
  - intros (r & H). vm_compute in H. discriminate H.
  - reflexivity.
Defined.

Lemma copy_files_twice_changes_nothing_witness :
  result (@copy_files no_faults (path_of "/media/usb") DEST_DIR
            (final (@copy_files no_faults (path_of "/media/usb") DEST_DIR fs_ab)))
  = Ret tt
  /\ final (@copy_files no_faults (path_of "/media/usb") DEST_DIR
              (final (@copy_files no_faults (path_of "/media/usb") DEST_DIR fs_ab)))
     = final (@copy_files no_faults (path_of "/media/usb") DEST_DIR fs_ab).
Proof.
  apply (@copy_files_twice_changes_nothing no_faults
           (path_of "/media/usb") DEST_DIR fs_ab
           [ ("a.txt", File "a of the volume"); ("b.txt", File "b of the volume");
             ("c", Dir [ ("d.txt", File "d") ]) ]
           [ ("b.txt", File "b of the destination") ]).
  - apply no_faults_faultless.
  - reflexivity.
  - reflexivity.
  - intros (r & H). vm_compute in H. discriminate H.
Defined.

(** The second call only skips. *)
Example second_call_only_skips :
  output (@copy_files no_faults (path_of "/media/usb") DEST_DIR
            (final (@copy_files no_faults (path_of "/media/usb") DEST_DIR fs_ab)))
  = [ Printed "Skipping /home/apex/a.txt - already exists";
      Printed "Skipping /home/apex/b.txt - already exists";
      Printed "Skipping /home/apex/c - already exists" ].
Proof.
  reflexivity.
Qed.

(** The copy of [a.txt] fails: [c], listed after it, is not announced and
    not copied. *)
Lemma copy_files_announces_every_copy_witness :
  lookup (DEST_DIR ++ ["c"])
    (final (@copy_files io_error_at_a (path_of "/media/usb") DEST_DIR fs_ab))
  = None.
Proof.
  apply (@copy_files_announces_every_copy io_error_at_a
           (path_of "/media/usb") DEST_DIR "c" fs_ab).
  - reflexivity.
  - intros H. vm_compute in H. intuition discriminate.
  - intros H. vm_compute in H. intuition discriminate.
Defined.

Lemma copy_files_stops_at_the_first_failure_witness :
  @copy_files io_error_at_a (path_of "/media/usb") DEST_DIR fs_ab
  = (Ret tt, fs_ab,
     [] ++ [ Printed ("Copying file: " +++ show (path_of "/media/usb" ++ ["a.txt"])
                      +++ " to " +++ show (DEST_DIR ++ ["a.txt"])) ]
        ++ [ Printed ("Error copying files: " +++ "[Errno 5] Input/output error") ]).
Proof.
  apply (@copy_files_stops_at_the_first_failure io_error_at_a
           (path_of "/media/usb") DEST_DIR fs_ab fs_ab fs_ab
           [ ("a.txt", File "a of the volume"); ("b.txt", File "b of the volume");
             ("c", Dir [ ("d.txt", File "d") ]) ]
           [] ["b.txt"; "c"] "a.txt" "[Errno 5] Input/output error").
  - reflexivity.
  - reflexivity.
  - reflexivity.
  - reflexivity.
  - reflexivity.
Defined.

Lemma main_ignores_other_devices_witness :
  @main no_faults [sd_card; usb_unmounted] [usb_removed; usb_unmounted; sd_card] fs_ab
  = (Running, fs_ab,
     Printed "Monitoring for USB devices..."
       :: map (fun _ => Slept 1000)
              (filter (fun d => equals (get d "ID_BUS") "usb" && equals (action d) "add")
                      [usb_removed; usb_unmounted; sd_card])).
Proof.
  apply (@main_ignores_other_devices no_faults
           [sd_card; usb_unmounted] [usb_removed; usb_unmounted; sd_card] fs_ab).
  - apply Forall_cons; [left; discriminate |].
    apply Forall_cons; [right; left; reflexivity |].
    apply Forall_nil.
  - apply Forall_cons; [right; left; discriminate |].
    apply Forall_cons; [right; right; left; reflexivity |].
    apply Forall_cons; [left; discriminate |].
    apply Forall_nil.
Defined.

(** The disk fills up while [a.txt] is copied; the next call, in which
    nothing fails, keeps the half file. *)
Lemma failed_copy_is_not_repaired_witness :
  result (@copy_item disk_full_at_a (path_of "/media/usb") DEST_DIR "a.txt" fs_ab)
  = Raise (Exception "[Errno 28] No space left on device")
  /\ lookup (DEST_DIR ++ ["a.txt"])
       (final (@copy_item disk_full_at_a (path_of "/media/usb") DEST_DIR "a.txt" fs_ab))
     = Some (File "a of")
  /\ lookup (DEST_DIR ++ ["a.txt"])
       (final (@copy_files no_faults (path_of "/media/usb") DEST_DIR
                 (final (@copy_item disk_full_at_a (path_of "/media/usb") DEST_DIR
                           "a.txt" fs_ab))))
     = Some (File "a of").
Proof.
  apply (@failed_copy_is_not_repaired disk_full_at_a no_faults
           (path_of "/media/usb") DEST_DIR "a.txt" "a of the volume"
           "[Errno 28] No space left on device" fs_ab (File "a of")
           [ ("b.txt", File "b of the destination") ]).
  - reflexivity.
  - reflexivity.
  - reflexivity.
  - reflexivity.
Defined.
End UsbCopyFacts.
